(** * nest-http: key-case transformer and request pipeline

    A shallow embedding of [src/http.helper.ts] (class [HttpHepler]) and of
    [src/http.service.ts] (class [HttpFetchService]), with the properties
    stated in the specification of the repository.

    Layout:
    - [Lodash]: the two lodash string functions the helper calls;
    - [Js]: JSON-like values, property access, truthiness;
    - [HttpHepler]: the transformer on values (trees);
    - [Heap]: the same transformer on a store of mutable objects, where
      copying and in-place mutation are visible ([store_agrees] relates
      the two);
    - [HttpFetchService]: the request pipeline and the verb wrappers. *)

From Stdlib Require Import ZArith Ascii String List Bool Lia.
From stdpp Require Import base tactics option list strings.

Local Open Scope string_scope.
Local Open Scope list_scope.
Local Open Scope Z_scope.

Set Warnings "-register-all".

(** ** The lodash dependency *)

Module Lodash.

(** Character classes of lodash's word regular expressions, on 7-bit
    ASCII.  Every ASCII character that is not a letter or a digit belongs
    to lodash's [rsBreakRange]. *)
Definition code (c : ascii) : nat := nat_of_ascii c.

Definition is_lower (c : ascii) : bool := (97 <=? code c)%nat && (code c <=? 122)%nat.
Definition is_upper (c : ascii) : bool := (65 <=? code c)%nat && (code c <=? 90)%nat.
Definition is_digit (c : ascii) : bool := (48 <=? code c)%nat && (code c <=? 57)%nat.
Definition is_letter (c : ascii) : bool := is_lower c || is_upper c.
Definition is_alnum (c : ascii) : bool := is_letter c || is_digit c.
Definition is_break (c : ascii) : bool := negb (is_alnum c).
Definition is_space (c : ascii) : bool := (code c =? 32)%nat.
Definition is_apos (c : ascii) : bool := (code c =? 39)%nat.

Definition toLower (c : ascii) : ascii :=
  if is_upper c then ascii_of_nat (code c + 32) else c.
Definition toUpper (c : ascii) : ascii :=
  if is_lower c then ascii_of_nat (code c - 32) else c.

Definition toLowerCase (w : list ascii) : list ascii := map toLower w.

(** [upperFirst] *)
Definition upperFirst (w : list ascii) : list ascii :=
  match w with
  | c :: w' => toUpper c :: w'
  | [] => []
  end.

(** [capitalize = upperFirst (toLowerCase w)] *)
Definition capitalize (w : list ascii) : list ascii := upperFirst (toLowerCase w).

(** The longest prefix whose characters satisfy [p], and the rest. *)
Fixpoint span (p : ascii → bool) (s : list ascii) : list ascii * list ascii :=
  match s with
  | c :: s' =>
      if p c then let '(a, b) := span p s' in (c :: a, b) else ([], s)
  | [] => ([], [])
  end.

Definition next_is (p : ascii → bool) (s : list ascii) : bool :=
  match s with
  | c :: _ => p c
  | [] => false
  end.

Definition at_end (s : list ascii) : bool :=
  match s with
  | [] => true
  | _ => false
  end.

(** [reHasUnicodeWord]:
    [/[a-z][A-Z]|[A-Z]{2}[a-z]|[0-9][a-zA-Z]|[a-zA-Z][0-9]|[^a-zA-Z0-9 ]/] *)
Fixpoint hasUnicodeWord (s : list ascii) : bool :=
  match s with
  | [] => false
  | a :: r =>
      negb (is_alnum a || is_space a)
      || match r with
         | b :: r' =>
             (is_lower a && is_upper b)
             || (is_upper a && is_upper b && next_is is_lower r')
             || (is_digit a && is_letter b)
             || (is_letter a && is_digit b)
         | [] => false
         end
      || hasUnicodeWord r
  end.

(** [reAsciiWord]: the maximal runs of characters outside the break
    ranges. *)
Fixpoint runs (p : ascii → bool) (s cur : list ascii) : list (list ascii) :=
  let flush := match cur with [] => [] | _ => [rev cur] end in
  match s with
  | [] => flush
  | c :: s' => if p c then runs p s' (c :: cur) else (flush ++ runs p s' [])%list
  end.

Definition asciiWords (s : list ascii) : list (list ascii) := runs is_alnum s [].

(** The alternatives of [reUnicodeWord], in their order, each giving the
    length of its match at the head of [s] (0: no match).  Apostrophes
    are removed before [words] runs, so the optional contraction suffix
    never matches; on ASCII [rsMisc] is empty and the emoji alternative
    never matches. *)

(** [rsUpper? rsLower+ (?= rsBreak | rsUpper | $)] *)
Definition alt_word_then_boundary (s : list ascii) : nat :=
  let '(u, r) := match s with
                 | c :: r => if is_upper c then (1%nat, r) else (0%nat, s)
                 | [] => (0%nat, s)
                 end in
  let '(ls, rest) := span is_lower r in
  if (0 <? length ls)%nat
     && (at_end rest || next_is is_break rest || next_is is_upper rest)
  then (u + length ls)%nat else 0%nat.

(** [rsUpper+ (?= rsBreak | rsUpper rsLower | $)]: the whole run of
    capitals before a break or the end, the run less its last capital
    before a lower-case letter. *)
Definition alt_upper_then_boundary (s : list ascii) : nat :=
  let '(us, rest) := span is_upper s in
  let n := length us in
  if (n =? 0)%nat then 0%nat
  else if at_end rest || next_is is_break rest then n
  else if next_is is_lower rest && (2 <=? n)%nat then (n - 1)%nat
  else 0%nat.

(** [rsUpper? rsLower+] *)
Definition alt_word (s : list ascii) : nat :=
  let '(u, r) := match s with
                 | c :: r => if is_upper c then (1%nat, r) else (0%nat, s)
                 | [] => (0%nat, s)
                 end in
  let '(ls, _) := span is_lower r in
  if (0 <? length ls)%nat then (u + length ls)%nat else 0%nat.

(** [rsUpper+] *)
Definition alt_upper (s : list ascii) : nat := length (fst (span is_upper s)).

(** [\d*(?:1st|2nd|3rd|(?![123])\dth)(?=\b|[A-Z_])] and its upper-case
    twin: the digit before the suffix is the last one of the run, and the
    look-ahead fails exactly on a digit or a letter of the suffix's
    case. *)
Definition ordinal_suffix (lower : bool) (d : ascii) (r : list ascii) : bool :=
  match r with
  | a :: b :: rest =>
      let fix_case := if lower then toLower else toUpper in
      let both := fun (x y : ascii) =>
        (code a =? code (fix_case x))%nat && (code b =? code (fix_case y))%nat in
      (if (code d =? 49)%nat then both "s"%char "t"%char
       else if (code d =? 50)%nat then both "n"%char "d"%char
       else if (code d =? 51)%nat then both "r"%char "d"%char
       else both "t"%char "h"%char)
      && negb (next_is (fun c => is_digit c || (if lower then is_lower c else is_upper c)) rest)
  | _ => false
  end.

Definition alt_ordinal (lower : bool) (s : list ascii) : nat :=
  let '(ds, rest) := span is_digit s in
  match last ds with
  | Some d => if ordinal_suffix lower d rest then (length ds + 2)%nat else 0%nat
  | None => 0%nat
  end.

(** [\d+] *)
Definition alt_digits (s : list ascii) : nat := length (fst (span is_digit s)).

Definition first_match (alts : list (list ascii → nat)) (s : list ascii) : nat :=
  foldr (fun alt k => if (alt s =? 0)%nat then k else alt s) 0%nat alts.

Definition match_word : list ascii → nat :=
  first_match
    [ alt_word_then_boundary; alt_upper_then_boundary; alt_word; alt_upper;
      alt_ordinal false; alt_ordinal true; alt_digits ].

(** [string.match(reUnicodeWord)] with the [g] flag: the matches from
    left to right, one character skipped where none starts. *)
Fixpoint scan (fuel : nat) (s : list ascii) : list (list ascii) :=
  match fuel, s with
  | S fuel', _ :: r =>
      let n := match_word s in
      if (n =? 0)%nat then scan fuel' r else take n s :: scan fuel' (drop n s)
  | _, _ => []
  end.

Definition unicodeWords (s : list ascii) : list (list ascii) := scan (length s) s.

(** [words(deburr(string).replace(reApos, ''))] *)
Definition words (s : string) : list (list ascii) :=
  let l := List.filter (fun c => negb (is_apos c)) (list_ascii_of_string s) in
  if hasUnicodeWord l then unicodeWords l else asciiWords l.

(** Modelled from the spec: [_.camelCase] is lodash's and is not under
    src/; the specification describes it as the pass that removes the
    separators and capitalizes the following letter.  The definition
    follows lodash 4.17 ([createCompounder] over [words]) on 7-bit ASCII
    keys. *)
Definition camelCase (s : string) : string :=
  string_of_list_ascii
    (snd (fold_left
            (fun '(index, result) word =>
               let word := toLowerCase word in
               (S index,
                (result ++ (if (index =? 0)%nat then word else capitalize word))%list))
            (words s) (0%nat, []))).

(** Modelled from the spec: [_.snakeCase] is lodash's and is not under
    src/; the specification describes it as the pass that lower-cases and
    inserts [_] at the camel-hump boundaries.  Same source as
    [camelCase]. *)
Definition snakeCase (s : string) : string :=
  string_of_list_ascii
    (snd (fold_left
            (fun '(index, result) word =>
               (S index,
                (result ++ (if (index =? 0)%nat then [] else ["_"%char])
                        ++ toLowerCase word)%list))
            (words s) (0%nat, []))).

End Lodash.

(** ** JSON-like values *)

Module Js.

(** A JavaScript value as the payloads of the service have them.  An
    object is the list of its own enumerable properties in enumeration
    order, which is the order of creation for keys that are not array
    indices (keys are pairwise distinct in a value that comes from
    JavaScript, see [wf]); numbers are the integers. *)
Inductive value : Type :=
| VUndef
| VNull
| VBool (b : bool)
| VNum (n : Z)
| VStr (s : string)
| VArr (items : list value)
| VObj (props : list (string * value)).

(** The own enumerable properties of an object, in enumeration order. *)
Definition properties (V : Type) : Type := list (string * V).

Definition obj : Type := properties value.

Section Properties.

Context {V : Type}.

Definition keys (o : properties V) : list string := fst <$> o.

Fixpoint obj_lookup (o : properties V) (k : string) : option V :=
  match o with
  | [] => None
  | (k', v) :: o' => if String.eqb k' k then Some v else obj_lookup o' k
  end.

(** [k in o] *)
Definition obj_has (o : properties V) (k : string) : bool :=
  match obj_lookup o k with
  | Some _ => true
  | None => false
  end.

(** [o[k] = v]: an existing property keeps its place, a new one goes to
    the end. *)
Fixpoint obj_set (o : properties V) (k : string) (v : V) : properties V :=
  match o with
  | [] => [(k, v)]
  | (k', v') :: o' =>
      if String.eqb k' k then (k, v) :: o' else (k', v') :: obj_set o' k v
  end.

(** [delete o[k]] *)
Fixpoint obj_delete (o : properties V) (k : string) : properties V :=
  match o with
  | [] => []
  | (k', v') :: o' =>
      if String.eqb k' k then obj_delete o' k else (k', v') :: obj_delete o' k
  end.

End Properties.

(** [o[k]] *)
Definition obj_get (o : obj) (k : string) : value :=
  default VUndef (obj_lookup o k).

(** [{...a, ...b}] onto [a] *)
Definition obj_assign (a b : obj) : obj :=
  fold_left (fun acc '(k, v) => obj_set acc k v) b a.

(** [typeof v === 'object'] *)
Definition typeof_object (v : value) : bool :=
  match v with
  | VNull | VArr _ | VObj _ => true
  | _ => false
  end.

(** [!!v] *)
Definition truthy (v : value) : bool :=
  match v with
  | VUndef | VNull => false
  | VBool b => b
  | VNum n => negb (n =? 0)%Z
  | VStr s => negb (String.eqb s "")
  | VArr _ | VObj _ => true
  end.

(** [a || b] *)
Definition or_else (a b : value) : value := if truthy a then a else b.

(** [a ?? b] *)
Definition nullish_else (a b : value) : value :=
  match a with
  | VUndef | VNull => b
  | _ => a
  end.

(** [v.k] for a key that no prototype defines ([data], [code], [msg]):
    reading it off [null] or [undefined] raises a [TypeError] ([None]),
    every other value that is not an object with that key gives
    [undefined]. *)
Definition get_prop (v : value) (k : string) : option value :=
  match v with
  | VUndef | VNull => None
  | VObj o => Some (obj_get o k)
  | _ => Some VUndef
  end.

(** [k in v] for an object [v] *)
Definition has_field (v : value) (k : string) : bool :=
  match v with
  | VObj o => obj_has o k
  | _ => false
  end.

Fixpoint height (v : value) : nat :=
  match v with
  | VArr items => S (foldr (fun x m => Nat.max (height x) m) 0%nat items)
  | VObj props => S (foldr (fun kv m => Nat.max (height (snd kv)) m) 0%nat props)
  | _ => 0%nat
  end.

(** Every key of every object inside [v] satisfies [p]. *)
Fixpoint all_keys (p : string → bool) (v : value) : bool :=
  match v with
  | VArr items => forallb (all_keys p) items
  | VObj props => forallb (fun kv => p (fst kv) && all_keys p (snd kv)) props
  | _ => true
  end.

Fixpoint distinct (l : list string) : bool :=
  match l with
  | [] => true
  | k :: l' => negb (existsb (String.eqb k) l') && distinct l'
  end.

(** Well-formed: no object inside [v] lists a key twice. *)
Fixpoint wf (v : value) : bool :=
  match v with
  | VArr items => forallb wf items
  | VObj props => distinct (fst <$> props) && forallb (fun kv => wf (snd kv)) props
  | _ => true
  end.

(** Deep equality ([_.isEqual] on JSON-like values): arrays element by
    element, objects as maps from keys to values whatever the order of
    their properties. *)
Inductive deep_equal : value → value → Prop :=
| DE_undef : deep_equal VUndef VUndef
| DE_null : deep_equal VNull VNull
| DE_bool b : deep_equal (VBool b) (VBool b)
| DE_num n : deep_equal (VNum n) (VNum n)
| DE_str s : deep_equal (VStr s) (VStr s)
| DE_arr l1 l2 :
    Forall2 deep_equal l1 l2 → deep_equal (VArr l1) (VArr l2)
| DE_obj o1 o2 o1' o2' :
    o1 ≡ₚ o1' → o2 ≡ₚ o2' →
    Forall2 (fun kv1 kv2 => fst kv1 = fst kv2 ∧ deep_equal (snd kv1) (snd kv2)) o1' o2' →
    deep_equal (VObj o1) (VObj o2).

End Js.
Import Js.

(** ** [HttpHepler] on values *)

Module HttpHepler.

(** [depth = 10], the default of every [depth] parameter. *)
Definition default_depth : Z := 10.

(** [_.cloneDeep]: the copy of a value is that value ([Heap.cloneDeep] is
    the copy in the store). *)
Definition cloneDeep (target : value) : value := target.

Section Transformer.

(** [_.camelCase] in [_snakeToHump], [_.snakeCase] in [_humpToSnake]; the
    two private functions are the same text otherwise. *)
Variable newKeyOf : string → string.

(** One turn of [for (const key in target)].  The keys are those the object
    had when the loop started; one that is gone when its turn comes is
    skipped.  [recur v] is the state in which the recursive call leaves
    [v]. *)
Definition for_in_step (recur : value → option value) (target : obj) (key : string)
  : option obj :=
  if obj_has target key then
    let newKey := newKeyOf key in
    let target :=
      if String.eqb key newKey then target
      else obj_delete (obj_set target newKey (obj_get target key)) key in
    if typeof_object (obj_get target newKey) then
      v' ← recur (obj_get target newKey);
      Some (obj_set target newKey v')
    else Some target
  else Some target.

Fixpoint for_in (recur : value → option value) (ks : list string) (target : obj)
  : option obj :=
  match ks with
  | [] => Some target
  | key :: ks' =>
      target' ← for_in_step recur target key;
      for_in recur ks' target'
  end.

(** [_snakeToHump] / [_humpToSnake].  The result is the value returned and
    the state in which the call leaves [target], which it mutates in place.
    A primitive has no key to rename (the loop over a string runs over its
    indices, which both key functions leave as they are).  [fuel] bounds
    the nesting of the calls. *)
Fixpoint _rename (fuel : nat) (target : value) (depth : Z) : option (value * value) :=
  match fuel with
  | O => None
  | S fuel' =>
      let depth := depth - 1 in
      if depth <? 0 then Some (VUndef, target)
      else
        match target with
        | VArr items =>
            items' ← mapM (fun item => snd <$> _rename fuel' item default_depth) items;
            Some (VArr items', VArr items')
        | VObj props =>
            props' ← for_in (fun v => snd <$> _rename fuel' v depth) (keys props) props;
            Some (VObj props', VObj props')
        | _ => Some (target, target)
        end
  end.

(** The value returned by [_rename] on [target], run with the fuel its
    nesting needs ([_rename_total] below: that much fuel gives a result;
    [_rename_fuel]: more fuel changes nothing). *)
Definition rename (target : value) (depth : Z) : value :=
  match _rename (S (height target)) target depth with
  | Some (result, _) => result
  | None => VUndef
  end.

End Transformer.

Definition _snakeToHump := _rename Lodash.camelCase.
Definition _humpToSnake := _rename Lodash.snakeCase.

(** [static snakeToHump(target, depth = 10)] *)
Definition snakeToHump (target : value) (depth : Z) : value :=
  let temp := cloneDeep target in
  rename Lodash.camelCase temp depth.

(** [static humpToSnake(target, depth = 10)] *)
Definition humpToSnake (target : value) (depth : Z) : value :=
  let temp := cloneDeep target in
  rename Lodash.snakeCase temp depth.

End HttpHepler.

Import HttpHepler.

(** ** Naming conventions *)

(** A key is in the convention that [convert] produces when [convert]
    leaves it as it is; a value is when all the keys inside it are. *)
Definition key_in_convention (convert : string → string) (k : string) : bool :=
  String.eqb (convert k) k.

Definition in_convention (convert : string → string) (v : value) : bool :=
  all_keys (key_in_convention convert) v.

(** Turning the key into the other convention and back gives it again. *)
Definition key_lossless (there back : string → string) (k : string) : bool :=
  String.eqb (back (there k)) k.

Definition lossless (there back : string → string) (v : value) : bool :=
  all_keys (key_lossless there back) v.

(** ** Vocabulary of the proofs about the transformer *)

(** Every value of [o] has height at most [H]. *)
Definition vals_le (H : nat) (o : obj) : Prop :=
  Forall (fun kv => (height (snd kv) ≤ H)%nat) o.

(** What the loop leaves under the new key, when [recur] is the recursive
    call. *)
Definition walked (recur : value → option value) (v : value) : value :=
  if typeof_object v then default v (recur v) else v.

Definition renamed (newKeyOf : string → string) (recur : value → option value)
    (kv : string * value) : string * value :=
  (newKeyOf (fst kv), walked recur (snd kv)).

(** The conditions under which the loop over [o] renames every property
    without two of them meeting: the keys are distinct, a new key that is
    already a key of the object is the old key itself, and no two keys get
    the same new key. *)
Definition no_clash (newKeyOf : string → string) (o : obj) : Prop :=
  NoDup (keys o)
  ∧ (∀ k, k ∈ keys o → newKeyOf k ∈ keys o → newKeyOf k = k)
  ∧ (∀ k k', k ∈ keys o → k' ∈ keys o → newKeyOf k = newKeyOf k' → k = k').

(** The keys of [o] are in the convention of [back], and [back] undoes
    [there] on them. *)
Definition keys_round_trip (there back : string → string) (o : obj) : Prop :=
  ∀ k, k ∈ keys o → back k = k ∧ back (there k) = k.

Definition round_trip_ready (there back : string → string) (x : value) : Prop :=
  wf x = true ∧ in_convention back x = true ∧ lossless there back x = true.

(** ** [HttpHepler] on a store of mutable objects

    The same functions with the objects where JavaScript has them: in a
    store, named by references, copied by [_.cloneDeep] and changed in
    place by the two private functions. *)

Module Heap.

Abbreviation loc := nat (only parsing).

(** A value is a primitive or a reference to an array or an object. *)
Inductive jsval : Type :=
| JUndef
| JNull
| JBool (b : bool)
| JNum (n : Z)
| JStr (s : string)
| JRef (l : loc).

Inductive cell : Type :=
| CArr (items : list jsval)
| CObj (props : properties jsval).

(** The store: the cell of reference [l] is the [l]-th one; a new cell
    goes to the end. *)
Abbreviation heap := (list cell) (only parsing).

Definition obj_get (o : properties jsval) (k : string) : jsval :=
  default JUndef (obj_lookup o k).

(** [typeof v === 'object'] *)
Definition typeof_object (v : jsval) : bool :=
  match v with
  | JNull | JRef _ => true
  | _ => false
  end.

(** [stack.get(value)] of lodash's [baseClone] *)
Fixpoint stack_get (stack : list (loc * loc)) (l : loc) : option loc :=
  match stack with
  | [] => None
  | (a, b) :: stack' => if (a =? l)%nat then Some b else stack_get stack' l
  end.

(** [result[key] = v] on the array or object at [l] *)
Definition assignValue (h : heap) (l : loc) (key : nat + string) (v : jsval) : heap :=
  match h !! l, key with
  | Some (CArr items), inl i => <[l := CArr (<[i := v]> items)]> h
  | Some (CObj props), inr k => <[l := CObj (obj_set props k v)]> h
  | _, _ => h
  end.

(** [_.cloneDeep], that is lodash's [baseClone] with the deep flag, on
    arrays and plain objects: a value already copied is looked up in
    [stack]; otherwise an empty array of the same length or an empty
    object is created and recorded in [stack], and the copies of the
    elements or properties are assigned to it one after the other. *)
Fixpoint baseClone (fuel : nat) (h : heap) (stack : list (loc * loc)) (v : jsval)
  : option (heap * list (loc * loc) * jsval) :=
  match fuel with
  | O => None
  | S fuel' =>
      match v with
      | JRef l =>
          match stack_get stack l with
          | Some l' => Some (h, stack, JRef l')
          | None =>
              let result := length h in
              let each (acc : option (heap * list (loc * loc)))
                       (entry : (nat + string) * jsval) :=
                '(h, stack) ← acc;
                '(h, stack, v') ← baseClone fuel' h stack (snd entry);
                Some (assignValue h result (fst entry) v', stack) in
              match h !! l with
              | Some (CArr items) =>
                  '(h, stack) ←
                    foldl each
                      (Some (h ++ [CArr (replicate (length items) JUndef)],
                             (l, result) :: stack))
                      (imap (fun i x => (inl i, x)) items);
                  Some (h, stack, JRef result)
              | Some (CObj props) =>
                  '(h, stack) ←
                    foldl each
                      (Some (h ++ [CObj []], (l, result) :: stack))
                      (prod_map inr id <$> props);
                  Some (h, stack, JRef result)
              | None => None
              end
          end
      | _ => Some (h, stack, v)
      end
  end.

Definition cloneDeep (fuel : nat) (h : heap) (v : jsval) : option (heap * jsval) :=
  '(h, _, v') ← baseClone fuel h [] v;
  Some (h, v').

Section Transformer.

Variable newKeyOf : string → string.

(** One turn of [for (const key in target)] on the object at [l]; [recur]
    is the recursive call, which leaves a store. *)
Definition for_in_step (recur : heap → jsval → option heap) (l : loc)
    (h : heap) (key : string) : option heap :=
  match h !! l with
  | Some (CObj target) =>
      if obj_has target key then
        let newKey := newKeyOf key in
        let target :=
          if String.eqb key newKey then target
          else obj_delete (obj_set target newKey (obj_get target key)) key in
        let h := <[l := CObj target]> h in
        if typeof_object (obj_get target newKey) then
          recur h (obj_get target newKey)
        else Some h
      else Some h
  | _ => None
  end.

Definition for_in (recur : heap → jsval → option heap) (l : loc)
    (ks : list string) (h : heap) : option heap :=
  foldl (fun acc key => h ← acc; for_in_step recur l h key) (Some h) ks.

(** [target.forEach(item => ...)]; no write ever goes to the cell of an
    array, so its elements are those it had when the loop started. *)
Definition forEach (recur : heap → jsval → option heap)
    (items : list jsval) (h : heap) : option heap :=
  foldl (fun acc item => h ← acc; recur h item) (Some h) items.

(** [_snakeToHump] / [_humpToSnake]: the store the call leaves and the
    value it returns. *)
Fixpoint _rename (fuel : nat) (h : heap) (target : jsval) (depth : Z)
  : option (heap * jsval) :=
  match fuel with
  | O => None
  | S fuel' =>
      let depth := depth - 1 in
      if depth <? 0 then Some (h, JUndef)
      else
        match target with
        | JRef l =>
            match h !! l with
            | Some (CArr items) =>
                h' ← forEach
                       (fun h item => fst <$> _rename fuel' h item HttpHepler.default_depth)
                       items h;
                Some (h', target)
            | Some (CObj props) =>
                h' ← for_in (fun h v => fst <$> _rename fuel' h v depth) l (keys props) h;
                Some (h', target)
            | None => None
            end
        | _ => Some (h, target)
        end
  end.

Definition transform (fuel : nat) (h : heap) (target : jsval) (depth : Z)
  : option (heap * jsval) :=
  '(h, temp) ← cloneDeep fuel h target;
  _rename fuel h temp depth.

End Transformer.

(** [static snakeToHump(target, depth = 10)] *)
Definition snakeToHump := transform Lodash.camelCase.

(** [static humpToSnake(target, depth = 10)] *)
Definition humpToSnake := transform Lodash.snakeCase.

(** The value a snapshot of [v] holds: the tree of what is reachable from
    [v] in the store. *)
Fixpoint read (fuel : nat) (h : heap) (v : jsval) : option value :=
  match fuel with
  | O => None
  | S fuel' =>
      match v with
      | JUndef => Some VUndef
      | JNull => Some VNull
      | JBool b => Some (VBool b)
      | JNum n => Some (VNum n)
      | JStr s => Some (VStr s)
      | JRef l =>
          match h !! l with
          | Some (CArr items) => VArr <$> mapM (read fuel' h) items
          | Some (CObj props) =>
              VObj <$> mapM (fun kv => pair (fst kv) <$> read fuel' h (snd kv)) props
          | None => None
          end
      end
  end.

(** A value laid out in new cells of the store, and the reference to it. *)
Fixpoint alloc (h : heap) (t : value) : heap * jsval :=
  match t with
  | VUndef => (h, JUndef)
  | VNull => (h, JNull)
  | VBool b => (h, JBool b)
  | VNum n => (h, JNum n)
  | VStr s => (h, JStr s)
  | VArr items =>
      let l := length h in
      let '(h, vs) :=
        fold_left (fun '(h, vs) t => let '(h, v) := alloc h t in (h, vs ++ [v]))
                  items (h ++ [CArr []], []) in
      (<[l := CArr vs]> h, JRef l)
  | VObj props =>
      let l := length h in
      let '(h, kvs) :=
        fold_left (fun '(h, kvs) kt =>
                     let '(h, v) := alloc h (snd kt) in (h, kvs ++ [(fst kt, v)]))
                  props (h ++ [CObj []], []) in
      (<[l := CObj kvs]> h, JRef l)
  end.

(** [convert] on the value [t] laid out in an empty store, read back. *)
Definition on_store (convert : nat → heap → jsval → Z → option (heap * jsval))
    (fuel : nat) (t : value) (depth : Z) : option value :=
  let '(h, v) := alloc [] t in
  '(h', r) ← convert fuel h v depth;
  read fuel h' r.

(** Every reference in [v], in [c] is at least [n]. *)
Definition fresh (n : nat) (v : jsval) : Prop :=
  match v with
  | JRef l => (n ≤ l)%nat
  | _ => True
  end.

Definition cell_fresh (n : nat) (c : cell) : Prop :=
  match c with
  | CArr items => Forall (fresh n) items
  | CObj props => Forall (fun kv => fresh n (snd kv)) props
  end.

(** [h'] has the first [n] cells of [h] as they are, and its later cells
    refer to later cells only. *)
Definition extends (n : nat) (h h' : heap) : Prop :=
  (∀ l, (l < n)%nat → h' !! l = h !! l)
  ∧ (∀ l c, (n ≤ l)%nat → h' !! l = Some c → cell_fresh n c).

(** The footprints of the values of an object, one after the other. *)
Definition vals (kf : properties (list nat)) : list nat := concat (snd <$> kf).

(** [v] in the store [h] is the value [t], laid out as a tree in the cells
    [fp]: no cell is reached twice. *)
Inductive lays (h : list cell) : jsval → value → list nat → Prop :=
| lays_undef : lays h JUndef VUndef []
| lays_null : lays h JNull VNull []
| lays_bool b : lays h (JBool b) (VBool b) []
| lays_num n : lays h (JNum n) (VNum n) []
| lays_str s : lays h (JStr s) (VStr s) []
| lays_arr l items ts fps :
    h !! l = Some (CArr items) →
    Forall3 (lays h) items ts fps →
    NoDup (l :: concat fps) →
    lays h (JRef l) (VArr ts) (l :: concat fps)
| lays_obj l props ps kf :
    h !! l = Some (CObj props) →
    Forall3 (fun p q g => fst p = fst q ∧ fst g = fst q ∧ lays h (snd p) (snd q) (snd g))
            props ps kf →
    NoDup (l :: vals kf) →
    lays h (JRef l) (VObj ps) (l :: vals kf).

(** [h'] is [h] outside the cells [fp]. *)
Definition kept (fp : list nat) (h h' : list cell) : Prop :=
  length h' = length h ∧ ∀ l, l ∉ fp → h' !! l = h !! l.

(** Three objects with the same keys in the same order, their values
    related by [R]. *)
Definition al3 {A B C} (R : A → B → C → Prop)
    (a : properties A) (b : properties B) (c : properties C) : Prop :=
  Forall3 (fun p q g => fst p = fst q ∧ fst g = fst q ∧ R (snd p) (snd q) (snd g)) a b c.

(** The recursive calls on values and on the store do the same. *)
Definition agrees (rec_t : value → option value)
    (rec_h : list cell → jsval → option (list cell)) : Prop :=
  ∀ h v t g t',
    lays h v t g → rec_t t = Some t' →
    ∃ h' g', rec_h h v = Some h' ∧ lays h' v t' g' ∧ g' ⊆+ g ∧ kept g h h'.

(** One turn of the loop of [baseClone] over the elements or properties. *)
Definition clone_each
    (clone : list cell → list (loc * loc) → jsval
             → option (list cell * list (loc * loc) * jsval))
    (result : nat)
    (acc : option (list cell * list (loc * loc)))
    (entry : (nat + string) * jsval) : option (list cell * list (loc * loc)) :=
  '(h, stack) ← acc;
  '(h, stack, v') ← clone h stack (snd entry);
  Some (assignValue h result (fst entry) v', stack).

(** What a copy of a laid-out value is: the same value, laid out in cells
    that are new, with the cells that were there left as they were; the
    stack gets entries for the cells of the original only. *)
Definition clones (n : nat)
    (clone : list cell → list (loc * loc) → jsval
             → option (list cell * list (loc * loc) * jsval)) : Prop :=
  ∀ h stack v t fp,
    lays h v t fp → wf t = true → (height t < n)%nat →
    (∀ l, l ∈ fp → stack_get stack l = None) →
    ∃ h' stack' v' fp',
      clone h stack v = Some (h', stack', v')
      ∧ lays h' v' t fp'
      ∧ (∀ l, l ∈ fp' → (length h ≤ l)%nat)
      ∧ (∀ l, (l < length h)%nat → h' !! l = h !! l)
      ∧ (length h ≤ length h')%nat
      ∧ (∀ l, l ∉ fp → stack_get stack' l = stack_get stack l).

(** The references the stack of [baseClone] hands out are at least [n]. *)
Definition stack_fresh (n : nat) (stack : list (loc * loc)) : Prop :=
  Forall (fun p => (n ≤ snd p)%nat) stack.

(** What one copy keeps true: the first [n] cells, the freshness of the
    later ones and of the references the stack hands out. *)
Definition clone_ok (n : nat) (h0 : heap) (st : heap * list (loc * loc)) : Prop :=
  extends n h0 (fst st) ∧ stack_fresh n (snd st) ∧ (n ≤ length (fst st))%nat.

End Heap.

(** ** Sample payloads *)

(** [{user_id: 5}] and [{userId: 5}] *)
Definition snake_payload : value := VObj [("user_id", VNum 5)].
Definition camel_payload : value := VObj [("userId", VNum 5)].

(** [{userId: 5, profile: {firstName: "Ada", tags: [{tagName: "x"}]}}] and
    the same in snake_case. *)
Definition camel_nested : value :=
  VObj [("userId", VNum 5);
        ("profile", VObj [("firstName", VStr "Ada");
                          ("tags", VArr [VObj [("tagName", VStr "x")]])])].

Definition snake_nested : value :=
  VObj [("user_id", VNum 5);
        ("profile", VObj [("first_name", VStr "Ada");
                          ("tags", VArr [VObj [("tag_name", VStr "x")]])])].

(** [v] under [n] arrays: [[[...[v]...]]] *)
Fixpoint nest_arr (n : nat) (v : value) : value :=
  match n with
  | O => v
  | S n' => VArr [nest_arr n' v]
  end.

(** [v] under [n] objects: [{level: {level: ... v}}] *)
Fixpoint nest_obj (n : nat) (v : value) : value :=
  match n with
  | O => v
  | S n' => VObj [("level", nest_obj n' v)]
  end.

(** ** [HttpFetchService] *)

Module HttpFetchService.

(** Modelled from the spec: the enumeration [ParameterStyle] is declared in
    http.interface, which is not under src/. *)
Inductive ParameterStyle : Type :=
| NONE
| CAMEL_TO_SNAKE
| SNAKE_TO_CAMEL.

(** Modelled from the spec: [RequestConfig] is declared in http.interface,
    which is not under src/.  [protocol] and [parameterStyle] are optional;
    [transportDefaults] holds the fields that are meant for the transport.
    The logger and the interceptors are collaborators, not data. *)
Record RequestConfig : Type := {
  protocol : option string;
  parameterStyle : option ParameterStyle;
  transportDefaults : obj
}.

(** Modelled from the spec: [ResponseSchema] is declared in http.interface,
    which is not under src/. *)
Record ResponseSchema : Type := {
  code : value;
  msg : value;
  data : value;
  status : Z
}.

(** What axios resolves with: [{status, data, config}]. *)
Record AxiosResponse : Type := {
  resp_status : Z;
  resp_data : value;
  resp_config : obj
}.

(** What axios rejects with: [{message, response?: {status, data}}]. *)
Record ErrorResponse : Type := {
  eresp_status : Z;
  eresp_data : value
}.

Record AxiosError : Type := {
  err_message : string;
  err_response : option ErrorResponse
}.

Inductive TransportOutcome : Type :=
| Resolved (resp : AxiosResponse)
| Rejected (err : AxiosError).

(** What a call can throw: the exception of http.exception with its [msg],
    or the [TypeError] of reading a property of [undefined] or [null]
    (the text names the read). *)
Inductive exception : Type :=
| HttpRequestApiException (msg : string)
| TypeError (reading : string).

Inductive outcome : Type :=
| Returns (response : ResponseSchema)
| Throws (e : exception).

(** A line given to the logger: [logger.log] with the url, the parameters
    and the body of the request (the elapsed time is left out), or
    [logger.error] with a message. *)
Inductive log_line : Type :=
| LogRequest (url params body : value)
| LogError (message : string).

(** One call of [request]: the configuration the transport was called
    with, what the caller gets, and what was logged. *)
Record run : Type := {
  sent : obj;
  result : outcome;
  logged : list log_line
}.

(** [String.prototype.indexOf]: the first position at which [search]
    occurs in [s], or -1. *)
Fixpoint indexOf_from (s search : string) (pos : Z) : Z :=
  if String.prefix search s then pos
  else match s with
       | EmptyString => -1
       | String _ s' => indexOf_from s' search (pos + 1)
       end.

Definition indexOf (s search : string) : Z := indexOf_from s search 0.

(** [this.httpOption.protocol || 'http'] *)
Definition protocol_of (httpOption : RequestConfig) : string :=
  match protocol httpOption with
  | Some p => if String.eqb p "" then "http" else p
  | None => "http"
  end.

(** [if (url.indexOf(protocol) !== 0) url = `${protocol}://${url}`] *)
Definition normalize_url (httpOption : RequestConfig) (url : string) : string :=
  let protocol := protocol_of httpOption in
  if indexOf url protocol =? 0 then url else protocol +:+ "://" +:+ url.

(** [if (config[field]) config[field] = convert(config[field])] *)
Definition convert_field (convert : value → Z → value) (field : string) (config : obj) : obj :=
  if truthy (obj_get config field)
  then obj_set config field (convert (obj_get config field) default_depth)
  else config.

(** The [switch] on the parameter style, for the request. *)
Definition outgoing (httpOption : RequestConfig) (config : obj) : obj :=
  match parameterStyle httpOption with
  | Some CAMEL_TO_SNAKE =>
      convert_field humpToSnake "params" (convert_field humpToSnake "data" config)
  | Some SNAKE_TO_CAMEL =>
      convert_field snakeToHump "params" (convert_field snakeToHump "data" config)
  | _ => config
  end.

(** Modelled from the spec: the members of [ParameterStyle], declared in
    http.interface, as values; each is represented by its name. *)
Definition style_value (style : ParameterStyle) : value :=
  VStr match style with
       | NONE => "NONE"
       | CAMEL_TO_SNAKE => "CAMEL_TO_SNAKE"
       | SNAKE_TO_CAMEL => "SNAKE_TO_CAMEL"
       end.

(** The own fields of [this.httpOption]: [protocol] and [parameterStyle]
    when they are set, and the fields that are meant for the transport.
    (A logger and interceptors, when the options hold them, are spread
    with the rest; they are objects with methods, which a JSON-like value
    does not represent, and [RequestConfig] does not hold them.) *)
Definition option_fields (httpOption : RequestConfig) : obj :=
  ((if protocol httpOption is Some p then [("protocol", VStr p)] else [])
   ++ (if parameterStyle httpOption is Some style
       then [("parameterStyle", style_value style)] else [])
   ++ transportDefaults httpOption)%list.

(** [{...this.httpOption, ...config, url}] *)
Definition merged (httpOption : RequestConfig) (config : obj) (url : string) : obj :=
  obj_set (obj_assign (obj_assign [] (option_fields httpOption)) config)
          "url" (VStr url).

(** [v.k] for a value [v] that is neither [null] nor [undefined]. *)
Definition get_field (v : value) (k : string) : value :=
  default VUndef (get_prop v k).

(** The [catch] block.  [resp] is the local variable of that name, still
    unassigned when the transport rejected. *)
Definition catch (err : AxiosError) (resp : option AxiosResponse)
  : outcome * list log_line :=
  ( match err_response err with
    | None => Throws (TypeError "err.response.data")
    | Some response =>
        let body := or_else (eresp_data response) (VObj []) in
        if negb (truthy (get_field body "code")) && negb (truthy (get_field body "data"))
        then Throws (HttpRequestApiException (err_message err))
        else
          match resp with
          | None => Throws (TypeError "resp.status")
          | Some resp =>
              Returns {| code := or_else (get_field body "code") (VNum 0);
                         msg := or_else (get_field body "msg") (VStr (err_message err));
                         data := get_field body "data";
                         status := resp_status resp |}
          end
    end,
    [LogError (err_message err)] ).

(** The payload of the response, converted the other way round. *)
Definition incoming (httpOption : RequestConfig) (content : value) : value :=
  match parameterStyle httpOption with
  | Some CAMEL_TO_SNAKE => snakeToHump (or_else content (VObj [])) default_depth
  | Some SNAKE_TO_CAMEL => humpToSnake (or_else content (VObj [])) default_depth
  | _ => content
  end.

(** [private async request(url, config = {})]; [transport] stands for
    [this.httpService.axiosRef.request]. *)
Definition request (httpOption : RequestConfig) (transport : obj → TransportOutcome)
    (url : string) (config : option obj) : run :=
  let config := default [] config in
  let url := normalize_url httpOption url in
  let config := outgoing httpOption config in
  let stringParams := or_else (obj_get config "params") (VObj []) in
  let stringBody := or_else (obj_get config "data") (VObj []) in
  let args := merged httpOption config url in
  let response :=
    match transport args with
    | Resolved resp =>
        let line := LogRequest (obj_get (resp_config resp) "url") stringParams stringBody in
        let data := resp_data resp in
        match get_prop data "data" with
        | Some content =>
            ( Returns {| code := or_else (get_field data "code") (VNum 0);
                         msg := or_else (get_field data "msg") (VStr "");
                         data := incoming httpOption content;
                         status := resp_status resp |},
              [line] )
        | None =>
            let thrown :=
              catch {| err_message := "Cannot read properties of " +:+
                                      (if data is VNull then "null" else "undefined") +:+
                                      " (reading 'data')";
                       err_response := None |}
                    (Some resp) in
            (fst thrown, line :: snd thrown)
        end
    | Rejected err => catch err None
    end in
  {| sent := args; result := fst response; logged := snd response |}.

(** [{...config, method: verb}] *)
Definition with_method (verb : string) (config : option obj) : obj :=
  obj_set (default [] config) "method" (VStr verb).

Definition post httpOption transport url config :=
  request httpOption transport url (Some (with_method "post" config)).

Definition get httpOption transport url config :=
  request httpOption transport url (Some (with_method "get" config)).

Definition put httpOption transport url config :=
  request httpOption transport url (Some (with_method "put" config)).

Definition delete httpOption transport url config :=
  request httpOption transport url (Some (with_method "delete" config)).

Definition patch httpOption transport url config :=
  request httpOption transport url (Some (with_method "patch" config)).

Definition head httpOption transport url config :=
  request httpOption transport url (Some (with_method "head" config)).

(** The wording of the specification for the wrappers: [config'] is the
    per-call configuration with [method] fixed to [verb] and every other
    field as the caller gave it. *)
Definition method_fixed (verb : string) (config : option obj) (config' : obj) : Prop :=
  obj_lookup config' "method" = Some (VStr verb)
  ∧ ∀ k, k ≠ "method" → obj_lookup config' k = obj_lookup (default [] config) k.

(** The wording of the specification for the envelope of a success:
    [code: data.code ?? 0], [msg: data.msg ?? ""], and the payload
    [data.data] converted the other way round. *)
Definition envelope_as_specified (httpOption : RequestConfig) (resp : AxiosResponse)
  : ResponseSchema :=
  let body := resp_data resp in
  {| code := nullish_else (get_field body "code") (VNum 0);
     msg := nullish_else (get_field body "msg") (VStr "");
     data := match parameterStyle httpOption with
             | Some CAMEL_TO_SNAKE => snakeToHump (get_field body "data") default_depth
             | Some SNAKE_TO_CAMEL => humpToSnake (get_field body "data") default_depth
             | _ => get_field body "data"
             end;
     status := resp_status resp |}.

(** The envelope the code builds for a success. *)
Definition envelope_of (httpOption : RequestConfig) (resp : AxiosResponse)
  : ResponseSchema :=
  let body := resp_data resp in
  {| code := or_else (get_field body "code") (VNum 0);
     msg := or_else (get_field body "msg") (VStr "");
     data := match parameterStyle httpOption with
             | Some CAMEL_TO_SNAKE =>
                 snakeToHump (or_else (get_field body "data") (VObj [])) default_depth
             | Some SNAKE_TO_CAMEL =>
                 humpToSnake (or_else (get_field body "data") (VObj [])) default_depth
             | _ => get_field body "data"
             end;
     status := resp_status resp |}.

(** Sample configurations and transports. *)
Definition options (style : option ParameterStyle) : RequestConfig :=
  {| protocol := None; parameterStyle := style; transportDefaults := [] |}.


Definition resolves_with (status : Z) (body : value) : obj → TransportOutcome :=
  fun args => Resolved {| resp_status := status; resp_data := body; resp_config := args |}.

Definition rejects_with (message : string) (status : Z) (body : value)
  : obj → TransportOutcome :=
  fun _ => Rejected {| err_message := message;
                       err_response := Some {| eresp_status := status; eresp_data := body |} |}.

(** [{code: 0, msg: "ok", data: {user_id: 5}}], the same without [data],
    [{code: 404, msg: "not found"}] and [{code: 0, msg: "zero"}] *)
Definition ok_body : value :=
  VObj [("code", VNum 0); ("msg", VStr "ok"); ("data", snake_payload)].

Definition ok_body_without_data : value :=
  VObj [("code", VNum 0); ("msg", VStr "ok")].

Definition not_found_body : value :=
  VObj [("code", VNum 404); ("msg", VStr "not found")].

Definition zero_code_body : value :=
  VObj [("code", VNum 0); ("msg", VStr "zero")].

End HttpFetchService.

(** A store with [{a_b: [ {c_d: null}, 1, <the same object> ]}] at
    reference 0, and the store after [snakeToHump] of that object. *)
Definition sample_heap : list Heap.cell :=
  [ Heap.CObj [("a_b", Heap.JRef 1)];
    Heap.CArr [Heap.JRef 2; Heap.JNum 1; Heap.JRef 2];
    Heap.CObj [("c_d", Heap.JNull)] ].

Definition sample_heap_after : list Heap.cell :=
  sample_heap ++
  [ Heap.CObj [("aB", Heap.JRef 4)];
    Heap.CArr [Heap.JRef 5; Heap.JNum 1; Heap.JRef 5];
    Heap.CObj [("cD", Heap.JNull)] ].

(** ** Keys written in a convention *)

(** [c] is the underscore. *)
Definition is_underscore (c : ascii) : bool := (Lodash.code c =? 95)%nat.

(** Lower-case words, each but the first led by a separator:
    [[a-z]+(<sep>[a-z]+)*] without its first letter; [after_sep] says that
    the character before was a separator. *)
Fixpoint plain_tail (sep : ascii → bool) (after_sep : bool) (s : list ascii) : bool :=
  match s with
  | [] => negb after_sep
  | c :: r =>
      if Lodash.is_lower c then plain_tail sep false r
      else if sep c then negb after_sep && plain_tail sep true r
      else false
  end.

Definition plain (sep : ascii → bool) (k : string) : bool :=
  match list_ascii_of_string k with
  | c :: r => Lodash.is_lower c && plain_tail sep false r
  | [] => false
  end.

(** Plain camelCase, [[a-z]+([A-Z][a-z]+)*]: a lower-case word, then humps
    of one capital and at least one lower-case letter; no digit, no two
    capitals in a row, no capital at the end. *)
Definition plain_camelCase : string → bool := plain Lodash.is_upper.

(** Plain snake_case, [[a-z]+(_[a-z]+)*]: lower-case words joined by
    single underscores; no digit. *)
Definition plain_snake_case : string → bool := plain is_underscore.

(** camelCase as it is usually written, [[a-z][a-zA-Z0-9]*]: no
    separator, a lower-case letter first. *)
Definition camelCase_shaped (k : string) : bool :=
  match list_ascii_of_string k with
  | c :: r => Lodash.is_lower c && forallb Lodash.is_alnum r
  | [] => false
  end.

(** snake_case as it is usually written, [[a-z][a-z0-9]*(_[a-z0-9]+)*]:
    lower-case letters and digits, in words joined by single
    underscores. *)
Fixpoint snake_tail (after_sep : bool) (s : list ascii) : bool :=
  match s with
  | [] => negb after_sep
  | c :: r =>
      if Lodash.is_lower c || Lodash.is_digit c then snake_tail false r
      else if is_underscore c then negb after_sep && snake_tail true r
      else false
  end.

Definition snake_case_shaped (k : string) : bool :=
  match list_ascii_of_string k with
  | c :: r => Lodash.is_lower c && snake_tail false r
  | [] => false
  end.

(** A separator followed by a lower-case word. *)
Definition segment (sep : ascii → bool) (h : list ascii) : bool :=
  match h with
  | c :: c' :: ls => sep c && Lodash.is_lower c' && forallb Lodash.is_lower ls
  | _ => false
  end.

(** Where a word may end: at the end of the key, before a capital or
    before a break. *)
Definition boundary (rest : list ascii) : bool :=
  match rest with
  | [] => true
  | c :: _ => negb (Lodash.is_lower c) && (Lodash.is_upper c || Lodash.is_break c)
  end.

(** ** Vocabulary of the properties of budgets, stores and requests *)

(** The budget [depth] reaches every object inside [v]: one level is
    spent on each object on the way, and the elements of an array start
    again from the default, as in [_rename]. *)
Fixpoint within_budget (v : value) (depth : Z) : bool :=
  match v with
  | VArr items =>
      (0 <? depth) && forallb (fun item => within_budget item default_depth) items
  | VObj props =>
      (0 <? depth) && forallb (fun kv => within_budget (snd kv) (depth - 1)) props
  | _ => true
  end.

(** Every key of every object inside a value satisfies [P]. *)
Inductive every_key (P : string → Prop) : value → Prop :=
| EK_primitive v : typeof_object v = false → every_key P v
| EK_null : every_key P VNull
| EK_arr items : Forall (every_key P) items → every_key P (VArr items)
| EK_obj props :
    Forall (fun kv => P (fst kv) ∧ every_key P (snd kv)) props →
    every_key P (VObj props).

(** [k] is a key that [convert] gives. *)
Definition converted (convert : string → string) (k : string) : Prop :=
  ∃ k0, k = convert k0.

(** A transport that answers every request with the status 200 and the
    body [{code: 0, msg: "ok", data: <the data it was sent>}]. *)
Definition echoes : obj → HttpFetchService.TransportOutcome :=
  fun args =>
    HttpFetchService.Resolved
      {| HttpFetchService.resp_status := 200;
         HttpFetchService.resp_data :=
           VObj [("code", VNum 0); ("msg", VStr "ok"); ("data", obj_get args "data")];
         HttpFetchService.resp_config := args |}.

(** [if (x) x = convert(x)]: what the request does to a field that holds
    [x]. *)
Definition converted_field (convert : value → Z → value) (x : value) : value :=
  if truthy x then convert x default_depth else x.


(** The store [h'] has as many cells as [h], and every array of [h] as it
    is. *)
Definition arrays_kept (h h' : list Heap.cell) : Prop :=
  length h' = length h
  ∧ ∀ l items, h !! l = Some (Heap.CArr items) → h' !! l = Some (Heap.CArr items).

(** [v] is a primitive or the reference of a cell of [h]. *)
Definition valid_ref (h : list Heap.cell) (v : Heap.jsval) : Prop :=
  match v with
  | Heap.JRef l => (l < length h)%nat
  | _ => True
  end.

(** A store of objects only, whose references all name a cell. *)
Definition objects_only (h : list Heap.cell) : Prop :=
  ∀ l c, h !! l = Some c →
    ∃ props, c = Heap.CObj props ∧ Forall (fun kv => valid_ref h (snd kv)) props.

(** How many of the first [n] cells the stack of [baseClone] has no copy
    for yet. *)
Fixpoint unvisited (stack : list (nat * nat)) (n : nat) : nat :=
  match n with
  | O => O
  | S n' => ((if Heap.stack_get stack n' is None then 1 else 0) + unvisited stack n')%nat
  end.

(** * Properties *)

(** ** The key functions on the examples of lodash's documentation *)

Example camelCase_examples :
  Lodash.camelCase "Foo Bar" = "fooBar"
  ∧ Lodash.camelCase "--foo-bar--" = "fooBar"
  ∧ Lodash.camelCase "__FOO_BAR__" = "fooBar"
  ∧ Lodash.camelCase "user_id" = "userId"
  ∧ Lodash.camelCase "userId" = "userId".
Proof. repeat split; vm_compute; reflexivity. Qed.

Example snakeCase_examples :
  Lodash.snakeCase "Foo Bar" = "foo_bar"
  ∧ Lodash.snakeCase "fooBar" = "foo_bar"
  ∧ Lodash.snakeCase "--FOO-BAR--" = "foo_bar"
  ∧ Lodash.snakeCase "userId" = "user_id"
  ∧ Lodash.snakeCase "user_id" = "user_id".
Proof. repeat split; vm_compute; reflexivity. Qed.

(** ** Objects as association lists *)

Section ObjFacts.

Context {V : Type}.
Implicit Types (o : properties V) (k : string) (v : V).

Lemma obj_lookup_set_eq o k v : obj_lookup (obj_set o k v) k = Some v.
Proof.
  induction o as [|[k' v'] o IH]; simpl.
  - by rewrite String.eqb_refl.
  - destruct (String.eqb k' k) eqn:E; simpl.
    + by rewrite String.eqb_refl.
    + by rewrite E.
Qed.

Lemma obj_lookup_set_ne o k k' v :
  k ≠ k' → obj_lookup (obj_set o k v) k' = obj_lookup o k'.
Proof.
  intros Hne. induction o as [|[k0 v0] o IH]; simpl.
  - by apply String.eqb_neq in Hne as ->.
  - destruct (String.eqb k0 k) eqn:E; simpl.
    + apply String.eqb_eq in E as ->.
      by apply String.eqb_neq in Hne as ->.
    + by rewrite IH.
Qed.

Lemma obj_lookup_delete_eq o k : obj_lookup (obj_delete o k) k = None.
Proof.
  induction o as [|[k0 v0] o IH]; simpl; [done|].
  destruct (String.eqb k0 k) eqn:E; simpl; [done|]. by rewrite E.
Qed.

Lemma obj_lookup_delete_ne o k k' :
  k ≠ k' → obj_lookup (obj_delete o k) k' = obj_lookup o k'.
Proof.
  intros Hne. induction o as [|[k0 v0] o IH]; simpl; [done|].
  destruct (String.eqb k0 k) eqn:E; simpl.
  - apply String.eqb_eq in E as ->.
    by apply String.eqb_neq in Hne as ->.
  - by rewrite IH.
Qed.

Lemma obj_lookup_In o k v : obj_lookup o k = Some v → (k, v) ∈ o.
Proof.
  induction o as [|[k0 v0] o IH]; simpl; [done|].
  destruct (String.eqb k0 k) eqn:E.
  - apply String.eqb_eq in E. subst k0. intros [= <-]. by left.
  - intros. right. auto.
Qed.

Lemma obj_lookup_None o k : obj_lookup o k = None ↔ k ∉ keys o.
Proof.
  unfold keys. induction o as [|[k0 v0] o IH]; simpl.
  - split; [intros _; apply not_elem_of_nil | done].
  - rewrite not_elem_of_cons, <- IH.
    destruct (String.eqb k0 k) eqn:E.
    + apply String.eqb_eq in E as ->. split; [done | intros [? _]; done].
    + apply String.eqb_neq in E. split; [by split | by intros [_ ?]].
Qed.

(** Writing back what a property holds changes nothing. *)
Lemma obj_set_lookup_id o k v : obj_lookup o k = Some v → obj_set o k v = o.
Proof.
  induction o as [|[k0 v0] o IH]; simpl; [done|].
  destruct (String.eqb k0 k) eqn:E; simpl.
  - apply String.eqb_eq in E as ->. by intros [= ->].
  - intros H. by rewrite IH.
Qed.

Lemma obj_has_keys o k : k ∈ keys o → obj_has o k = true.
Proof.
  intros Hin. unfold obj_has.
  destruct (obj_lookup o k) eqn:E; [done|].
  by apply obj_lookup_None in E.
Qed.

Lemma obj_has_set o k k' v : obj_has o k' = true → obj_has (obj_set o k v) k' = true.
Proof.
  unfold obj_has. destruct (decide (k = k')) as [->|Hne].
  - by rewrite obj_lookup_set_eq.
  - by rewrite obj_lookup_set_ne.
Qed.

Lemma obj_set_overwrite o k v w : obj_set (obj_set o k v) k w = obj_set o k w.
Proof.
  induction o as [|[k0 v0] o IH]; simpl.
  - by rewrite String.eqb_refl.
  - destruct (String.eqb k0 k) eqn:E; simpl.
    + by rewrite String.eqb_refl.
    + by rewrite E, IH.
Qed.

End ObjFacts.

Lemma obj_set_get_id (o : obj) (k : string) :
  obj_has o k = true → obj_set o k (obj_get o k) = o.
Proof.
  unfold obj_has, obj_get. destruct (obj_lookup o k) as [v|] eqn:E; [|done].
  intros _. by apply obj_set_lookup_id.
Qed.

(** ** Heights, and the fuel [_rename] needs *)

Lemma height_arr_le (H : nat) (items : list value) :
  (height (VArr items) ≤ S H)%nat ↔ Forall (fun x => (height x ≤ H)%nat) items.
Proof.
  simpl. induction items as [|x l IH]; simpl.
  - split; [constructor | lia].
  - rewrite Forall_cons, <- IH. lia.
Qed.

Lemma height_arr_mono (l l' : list value) :
  Forall2 (fun x y => (height y ≤ height x)%nat) l l' →
  (height (VArr l') ≤ height (VArr l))%nat.
Proof. induction 1; simpl in *; lia. Qed.

Lemma height_obj_le (H : nat) (o : obj) :
  (height (VObj o) ≤ S H)%nat ↔ vals_le H o.
Proof.
  unfold vals_le. simpl. induction o as [|x l IH]; simpl.
  - split; [constructor | lia].
  - rewrite Forall_cons, <- IH. lia.
Qed.

Lemma vals_le_get H o k : vals_le H o → (height (obj_get o k) ≤ H)%nat.
Proof.
  unfold obj_get. intros Hle.
  destruct (obj_lookup o k) as [v|] eqn:E; simpl; [|lia].
  apply obj_lookup_In in E.
  eapply (proj1 (Forall_forall _ _)) in Hle; [|exact E]. done.
Qed.

Lemma vals_le_set H o k v :
  vals_le H o → (height v ≤ H)%nat → vals_le H (obj_set o k v).
Proof.
  unfold vals_le. intros Ho Hv.
  induction o as [|[k0 v0] o IH]; simpl.
  - by repeat constructor.
  - apply Forall_cons in Ho as [H0 Ho].
    destruct (String.eqb k0 k); constructor; auto.
Qed.

Lemma vals_le_delete H o k : vals_le H o → vals_le H (obj_delete o k).
Proof.
  unfold vals_le. intros Ho.
  induction o as [|[k0 v0] o IH]; simpl; [done|].
  apply Forall_cons in Ho as [H0 Ho].
  destruct (String.eqb k0 k); [|constructor]; auto.
Qed.

Section Fuel.

Variable newKeyOf : string → string.

Lemma for_in_step_height (recur : value → option value) (H : nat) :
  (∀ v, (height v ≤ H)%nat → ∃ v', recur v = Some v' ∧ (height v' ≤ height v)%nat) →
  ∀ o key, vals_le H o →
    ∃ o', for_in_step newKeyOf recur o key = Some o' ∧ vals_le H o'.
Proof.
  intros Hrec o key Ho. unfold for_in_step.
  destruct (obj_has o key); [|by eauto].
  set (o1 := if String.eqb key (newKeyOf key) then o else _).
  assert (vals_le H o1) as Ho1.
  { subst o1. destruct (String.eqb key (newKeyOf key)); [done|].
    apply vals_le_delete, vals_le_set; [done|]. by apply vals_le_get. }
  destruct (typeof_object (obj_get o1 (newKeyOf key))); [|by eauto].
  pose proof (vals_le_get H o1 (newKeyOf key) Ho1) as Hg.
  destruct (Hrec _ Hg) as (v' & -> & Hv'). simpl.
  eexists; split; [done|]. apply vals_le_set; [done|lia].
Qed.

Lemma for_in_height (recur : value → option value) (H : nat) :
  (∀ v, (height v ≤ H)%nat → ∃ v', recur v = Some v' ∧ (height v' ≤ height v)%nat) →
  ∀ ks o, vals_le H o →
    ∃ o', for_in newKeyOf recur ks o = Some o' ∧ vals_le H o'.
Proof.
  intros Hrec ks. induction ks as [|key ks IH]; intros o Ho; simpl.
  - eauto.
  - destruct (for_in_step_height recur H Hrec o key Ho) as (o1 & -> & Ho1).
    simpl. by apply IH.
Qed.

(** [_rename] returns as soon as the fuel exceeds the height of the
    target, and the state it leaves is no higher than the target. *)
Lemma _rename_total (fuel : nat) :
  ∀ target depth, (height target < fuel)%nat →
    ∃ result target', _rename newKeyOf fuel target depth = Some (result, target')
      ∧ (height target' ≤ height target)%nat
      ∧ result = (if depth - 1 <? 0 then VUndef else target').
Proof.
  induction fuel as [|fuel IH]; intros target depth Hfuel; [lia|].
  simpl. destruct (depth - 1 <? 0) eqn:Hd; [by eauto|].
  destruct target as [| | | | |items|props]; try by eauto.
  - assert (∃ items', mapM (fun item => snd <$> _rename newKeyOf fuel item default_depth) items
                      = Some items'
                      ∧ Forall2 (fun x y => (height y ≤ height x)%nat) items items')
      as (items' & -> & Hh).
    { assert (Forall (fun x => (height x < fuel)%nat) items) as Hall.
      { destruct fuel as [|n]; [simpl in Hfuel; lia|].
        assert (height (VArr items) ≤ S n)%nat as Hle by lia.
        apply height_arr_le in Hle.
        eapply Forall_impl; [exact Hle|]. intros x Hx. simpl in Hx. lia. }
      clear Hfuel. induction Hall as [|x l Hx Hl IHl]; simpl.
      - eexists; split; [done|constructor].
      - destruct (IH x default_depth Hx) as (r & x' & -> & Hx' & _). simpl.
        destruct IHl as (l' & -> & Hl'). simpl.
        eexists; split; [done|]. by constructor. }
    simpl. do 2 eexists; split; [done|]. split; [|done].
    by apply height_arr_mono.
  - destruct fuel as [|n]; [simpl in Hfuel; lia|].
    set (H := pred (height (VObj props))).
    assert (vals_le H props) as Hle.
    { apply height_obj_le. subst H. simpl. lia. }
    assert (H ≤ n)%nat as HHn by (subst H; simpl in *; lia).
    destruct (for_in_height (fun v => snd <$> _rename newKeyOf (S n) v (depth - 1)) H)
      with (ks := keys props) (o := props) as (o' & -> & Ho'); [|done|].
    { intros v Hv. destruct (IH v (depth - 1)) as (r & v' & -> & Hv' & _); [lia|].
      simpl. eauto. }
    simpl. do 2 eexists; split; [done|]. split; [|done].
    apply height_obj_le in Ho'. subst H. simpl in *. lia.
Qed.

Lemma for_in_mono (recur recur' : value → option value) :
  (∀ v v', recur v = Some v' → recur' v = Some v') →
  ∀ ks o o', for_in newKeyOf recur ks o = Some o' →
    for_in newKeyOf recur' ks o = Some o'.
Proof.
  intros Hsub ks. induction ks as [|key ks IH]; intros o o'; simpl; [done|].
  destruct (for_in_step newKeyOf recur o key) as [o1|] eqn:E1; simpl; [|done].
  intros Hrest.
  assert (for_in_step newKeyOf recur' o key = Some o1) as ->; [|simpl; by apply IH].
  revert E1. unfold for_in_step.
  destruct (obj_has o key); [|done].
  destruct (typeof_object _); [|done].
  destruct (recur _) as [v'|] eqn:Er; simpl; [|done].
  by rewrite (Hsub _ _ Er).
Qed.

Lemma _rename_mono (fuel : nat) :
  ∀ fuel' target depth out, (fuel ≤ fuel')%nat →
    _rename newKeyOf fuel target depth = Some out →
    _rename newKeyOf fuel' target depth = Some out.
Proof.
  induction fuel as [|fuel IH]; intros fuel' target depth out Hle; [done|].
  destruct fuel' as [|fuel']; [lia|]. simpl.
  destruct (depth - 1 <? 0); [done|].
  assert (∀ d v v', snd <$> _rename newKeyOf fuel v d = Some v' →
                    snd <$> _rename newKeyOf fuel' v d = Some v') as Hsub.
  { intros d v v'. destruct (_rename newKeyOf fuel v d) as [x|] eqn:E; [|done].
    by rewrite (IH fuel' v d x ltac:(lia) E). }
  destruct target as [| | | | |items|props]; try done.
  - destruct (mapM _ items) as [items'|] eqn:E; simpl; [|done].
    intros [= <-].
    assert (mapM (fun item => snd <$> _rename newKeyOf fuel' item default_depth) items
            = Some items') as ->; [|done].
    apply mapM_Some in E. apply mapM_Some.
    eapply Forall2_impl; [exact E|]. simpl. intros x y. apply Hsub.
  - destruct (for_in _ _ _ props) as [props'|] eqn:E; simpl; [|done].
    intros [= <-].
    by rewrite (for_in_mono _ _ (Hsub (depth - 1)) _ _ _ E).
Qed.

(** More fuel than the height of the target changes nothing. *)
Lemma _rename_fuel (fuel : nat) (target : value) (depth : Z) :
  (height target < fuel)%nat →
  _rename newKeyOf fuel target depth
  = _rename newKeyOf (S (height target)) target depth.
Proof.
  intros Hfuel.
  destruct (_rename_total (S (height target)) target depth) as (r & t' & E & _);
    [lia|].
  rewrite E. eapply _rename_mono; [|exact E]. lia.
Qed.

Lemma rename_eq (fuel : nat) (target : value) (depth : Z) result target' :
  _rename newKeyOf fuel target depth = Some (result, target') →
  rename newKeyOf target depth = result.
Proof.
  intros E. unfold rename.
  destruct (_rename_total (S (height target)) target depth) as (r & t' & E' & _);
    [lia|].
  rewrite E'.
  pose proof (_rename_mono _ (fuel `max` S (height target)) _ _ _ (Nat.le_max_l _ _) E) as E1.
  pose proof (_rename_mono _ (fuel `max` S (height target)) _ _ _ (Nat.le_max_r _ _) E') as E2.
  congruence.
Qed.

End Fuel.

(** ** Induction on values *)

Lemma value_nested_ind (P : value → Prop) :
  P VUndef → P VNull → (∀ b, P (VBool b)) → (∀ n, P (VNum n)) → (∀ s, P (VStr s)) →
  (∀ items, Forall P items → P (VArr items)) →
  (∀ props, Forall (fun kv => P (snd kv)) props → P (VObj props)) →
  ∀ v, P v.
Proof.
  intros Hu Hn Hb Hz Hs Ha Ho.
  assert (∀ n v, (height v < n)%nat → P v) as Hall; [|by eauto].
  induction n as [|n IH]; intros v Hv; [lia|].
  destruct v as [| | | | |items|props]; auto.
  - apply Ha.
    assert (height (VArr items) ≤ S (pred n))%nat as Hle by (simpl in *; lia).
    apply height_arr_le in Hle. simpl in Hv.
    eapply Forall_impl; [exact Hle|]. intros x Hx. apply IH. simpl in Hx. lia.
  - apply Ho.
    assert (height (VObj props) ≤ S (pred n))%nat as Hle by (simpl in *; lia).
    apply height_obj_le in Hle. simpl in Hv.
    eapply Forall_impl; [exact Hle|]. intros x Hx. apply IH. simpl in Hx. lia.
Qed.

Lemma deep_equal_refl (v : value) : deep_equal v v.
Proof.
  induction v as [| | | | |items IH|props IH] using value_nested_ind;
    try by constructor.
  - constructor. induction IH; by constructor.
  - apply DE_obj with (o1' := props) (o2' := props); [done|done|].
    induction IH; by constructor.
Qed.

(** ** Keys that are already in the target convention *)

Section Fixed.

Variable newKeyOf : string → string.

Lemma for_in_fixed (recur : value → option value) (o : obj) :
  (∀ k v, (k, v) ∈ o → recur v = Some v) →
  ∀ ks, Forall (fun k => newKeyOf k = k) ks →
    for_in newKeyOf recur ks o = Some o.
Proof.
  intros Hrec ks Hks. induction Hks as [|key ks Hkey _ IH]; simpl; [done|].
  assert (for_in_step newKeyOf recur o key = Some o) as ->; [|done].
  unfold for_in_step. destruct (obj_has o key) eqn:Hhas; [|done].
  rewrite Hkey, String.eqb_refl.
  assert (∃ v, obj_lookup o key = Some v) as [v Hv].
  { unfold obj_has in Hhas. destruct (obj_lookup o key); [eauto|done]. }
  assert (obj_get o key = v) as Hget by (unfold obj_get; by rewrite Hv).
  destruct (typeof_object _); [|done].
  rewrite Hget, (Hrec key v) by (by apply obj_lookup_In). simpl.
  by rewrite <- Hget, obj_set_get_id.
Qed.

Lemma _rename_fixed (fuel : nat) :
  ∀ target depth, (height target < fuel)%nat →
    in_convention newKeyOf target = true →
    _rename newKeyOf fuel target depth
    = Some (if depth - 1 <? 0 then VUndef else target, target).
Proof.
  unfold in_convention.
  induction fuel as [|fuel IH]; intros target depth Hfuel Hconv; [lia|].
  simpl. destruct (depth - 1 <? 0); [done|].
  destruct target as [| | | | |items|props]; try done.
  - assert (mapM (fun item => snd <$> _rename newKeyOf fuel item default_depth) items
            = Some items) as ->; [|done].
    apply mapM_Some. simpl in Hconv.
    assert (Forall (fun x => (height x < fuel)%nat) items) as Hh.
    { destruct fuel as [|n]; [simpl in Hfuel; lia|].
      assert (height (VArr items) ≤ S n)%nat as Hle by lia.
      apply height_arr_le in Hle.
      eapply Forall_impl; [exact Hle|]. intros x Hx. simpl in Hx. lia. }
    apply Forall_Forall2_diag, Forall_forall. intros x Hx.
    rewrite IH; [done| |].
    + by eapply (proj1 (Forall_forall _ _)) in Hh.
    + eapply forallb_forall in Hconv; [done|]. by apply list_elem_of_In.
  - simpl in Hconv.
    assert (for_in newKeyOf (fun v => snd <$> _rename newKeyOf fuel v (depth - 1))
              (keys props) props = Some props) as ->; [|done].
    assert (vals_le (pred fuel) props) as Hh.
    { apply height_obj_le. simpl in *. lia. }
    apply for_in_fixed.
    + intros k v Hin. rewrite IH; [done| |].
      * eapply (proj1 (Forall_forall _ _)) in Hh; [|exact Hin]. simpl in *. lia.
      * eapply forallb_forall in Hconv; [|apply list_elem_of_In; exact Hin].
        by apply andb_prop in Hconv as [_ ?].
    + unfold keys. apply Forall_fmap, Forall_forall. intros [k v] Hin.
      eapply forallb_forall in Hconv; [|apply list_elem_of_In; exact Hin].
      apply andb_prop in Hconv as [Hk _]. simpl.
      by apply String.eqb_eq in Hk.
Qed.

Lemma rename_fixed (target : value) (depth : Z) :
  0 < depth → in_convention newKeyOf target = true →
  rename newKeyOf target depth = target.
Proof.
  intros Hd Hconv.
  erewrite rename_eq; [|apply _rename_fixed with (fuel := S (height target)); [lia|done]].
  destruct (depth - 1 <? 0) eqn:E; [lia|done].
Qed.

End Fixed.

(** ** Objects up to the order of their properties *)

Section ObjPerm.

Context {V : Type}.
Implicit Types (o s r : properties V) (k : string) (v : V).

Lemma distinct_NoDup (l : list string) : distinct l = true → NoDup l.
Proof.
  induction l as [|k l IH]; simpl; [constructor|].
  intros [Hk Hl]%andb_prop. apply NoDup_cons. split; [|auto].
  intros Hin. apply negb_true_iff in Hk.
  assert (existsb (String.eqb k) l = true) as E; [|congruence].
  apply existsb_exists. exists k. split; [by apply list_elem_of_In|].
  apply String.eqb_refl.
Qed.

Lemma obj_lookup_NoDup o k v :
  NoDup (keys o) → (k, v) ∈ o → obj_lookup o k = Some v.
Proof.
  unfold keys. induction o as [|[k0 v0] o IH]; simpl.
  - intros _ Hin. by apply not_elem_of_nil in Hin.
  - rewrite NoDup_cons. intros [Hk0 Hnd] [Heq|Hin]%elem_of_cons.
    + injection Heq as -> ->. by rewrite String.eqb_refl.
    + destruct (String.eqb k0 k) eqn:E; [|auto].
      apply String.eqb_eq in E as ->. destruct Hk0.
      by apply (list_elem_of_fmap_2 fst) in Hin.
Qed.

Lemma obj_set_fresh o k v : k ∉ keys o → obj_set o k v = o ++ [(k, v)].
Proof.
  unfold keys. induction o as [|[k0 v0] o IH]; simpl; [done|].
  rewrite not_elem_of_cons. intros [Hne Hk].
  apply not_eq_sym, String.eqb_neq in Hne as ->. by rewrite IH.
Qed.

Lemma obj_set_middle (l1 l2 : properties V) k v v' :
  k ∉ keys l1 → obj_set (l1 ++ (k, v) :: l2) k v' = l1 ++ (k, v') :: l2.
Proof.
  unfold keys. induction l1 as [|[k0 v0] l1 IH]; simpl.
  - by rewrite String.eqb_refl.
  - rewrite not_elem_of_cons. intros [Hne Hk].
    apply not_eq_sym, String.eqb_neq in Hne as ->. by rewrite IH.
Qed.

Lemma obj_delete_absent o k : k ∉ keys o → obj_delete o k = o.
Proof.
  unfold keys. induction o as [|[k0 v0] o IH]; simpl; [done|].
  rewrite not_elem_of_cons. intros [Hne Hk].
  apply not_eq_sym, String.eqb_neq in Hne as ->. by rewrite IH.
Qed.

Lemma obj_delete_middle (l1 l2 : properties V) k v :
  k ∉ keys l1 → k ∉ keys l2 → obj_delete (l1 ++ (k, v) :: l2) k = l1 ++ l2.
Proof.
  unfold keys. intros H1 H2. induction l1 as [|[k0 v0] l1 IH]; simpl.
  - rewrite String.eqb_refl. by apply obj_delete_absent.
  - simpl in H1. apply not_elem_of_cons in H1 as [Hne Hk].
    apply not_eq_sym, String.eqb_neq in Hne as ->. by rewrite IH.
Qed.

(** An object with distinct keys that holds [(k, v)] splits around it. *)
Lemma obj_split o k v r :
  NoDup (keys o) → o ≡ₚ (k, v) :: r →
  ∃ l1 l2, o = l1 ++ (k, v) :: l2 ∧ (k ∉ keys l1) ∧ (k ∉ keys l2) ∧ r ≡ₚ l1 ++ l2.
Proof.
  intros Hnd Hp.
  assert ((k, v) ∈ o) as Hin by (rewrite Hp; left).
  apply list_elem_of_split in Hin as (l1 & l2 & ->).
  exists l1, l2. unfold keys in *.
  rewrite fmap_app, fmap_cons in Hnd. simpl in Hnd.
  apply NoDup_app in Hnd as (_ & Hdisj & Hnd2).
  apply NoDup_cons in Hnd2 as [Hk2 _].
  repeat split; [|done|].
  - intros Hin. apply (Hdisj _ Hin). left.
  - rewrite <- Permutation_middle in Hp. by apply (inj (cons (k, v))) in Hp.
Qed.

Lemma obj_set_perm o k v v' r :
  NoDup (keys o) → o ≡ₚ (k, v) :: r → obj_set o k v' ≡ₚ (k, v') :: r.
Proof.
  intros Hnd Hp.
  destruct (obj_split o k v r Hnd Hp) as (l1 & l2 & -> & H1 & H2 & Hr).
  rewrite obj_set_middle by done. by rewrite <- Permutation_middle, Hr.
Qed.

Lemma obj_delete_perm o k v r :
  NoDup (keys o) → o ≡ₚ (k, v) :: r → obj_delete o k ≡ₚ r.
Proof.
  intros Hnd Hp.
  destruct (obj_split o k v r Hnd Hp) as (l1 & l2 & -> & H1 & H2 & Hr).
  by rewrite obj_delete_middle.
Qed.

Lemma keys_perm o s : o ≡ₚ s → keys o ≡ₚ keys s.
Proof. unfold keys. by intros ->. Qed.

End ObjPerm.

Lemma obj_get_NoDup (o : obj) (k : string) (v : value) :
  NoDup (keys o) → (k, v) ∈ o → obj_get o k = v.
Proof. intros. unfold obj_get. by erewrite obj_lookup_NoDup. Qed.

(** ** The loop over the keys when no two keys meet *)

Section ForIn.

Variable newKeyOf : string → string.
Variable recur : value → option value.

Lemma for_in_step_perm (s r : obj) (k : string) (v : value) :
  NoDup (keys s) → s ≡ₚ (k, v) :: r → newKeyOf k ∉ keys r →
  (typeof_object v = true → is_Some (recur v)) →
  ∃ s', for_in_step newKeyOf recur s k = Some s' ∧ s' ≡ₚ renamed newKeyOf recur (k, v) :: r.
Proof.
  intros Hnd Hp Hfresh Hrec. unfold for_in_step, renamed, walked. simpl.
  assert ((k, v) ∈ s) as Hin by (rewrite Hp; left).
  rewrite obj_has_keys by (by apply (list_elem_of_fmap_2 fst) in Hin).
  rewrite (obj_get_NoDup s k v) by done.
  set (s1 := if String.eqb k (newKeyOf k) then s else _).
  assert (NoDup (keys s1) ∧ s1 ≡ₚ (newKeyOf k, v) :: r) as [Hnd1 Hp1].
  { subst s1. destruct (String.eqb k (newKeyOf k)) eqn:E.
    - apply String.eqb_eq in E. by rewrite <- E.
    - apply String.eqb_neq in E.
      assert (newKeyOf k ∉ keys s) as Hfresh'.
      { rewrite (keys_perm _ _ Hp). unfold keys. simpl.
        apply not_elem_of_cons. split; [by apply not_eq_sym|done]. }
      rewrite obj_set_fresh by done.
      assert (NoDup (keys (s ++ [(newKeyOf k, v)]))) as Hnd'.
      { unfold keys in *. rewrite fmap_app. simpl. apply NoDup_app.
        split; [done|]. split; [|apply NoDup_singleton].
        intros x Hx ->%list_elem_of_singleton. done. }
      assert (s ++ [(newKeyOf k, v)] ≡ₚ (k, v) :: (newKeyOf k, v) :: r) as Hp'.
      { rewrite Hp. simpl. constructor. by rewrite <- Permutation_cons_append. }
      pose proof (obj_delete_perm _ _ _ _ Hnd' Hp') as Hd.
      split; [|done].
      rewrite (keys_perm _ _ Hd).
      rewrite (keys_perm _ _ Hp') in Hnd'. unfold keys in *. simpl in *.
      by apply NoDup_cons in Hnd' as [_ ?]. }
  rewrite (obj_get_NoDup s1 (newKeyOf k) v) by (done || rewrite Hp1; left).
  destruct (typeof_object v) eqn:Hty; [|by eauto].
  destruct (Hrec eq_refl) as [v' ->]. simpl.
  eexists; split; [done|]. by eapply obj_set_perm.
Qed.

Lemma for_in_perm_gen (todo : obj) :
  ∀ (done : obj) (s : obj),
    no_clash newKeyOf (done ++ todo) →
    Forall (fun kv => typeof_object (snd kv) = true → is_Some (recur (snd kv))) todo →
    s ≡ₚ (renamed newKeyOf recur <$> done) ++ todo →
    ∃ s', for_in newKeyOf recur (keys todo) s = Some s'
          ∧ s' ≡ₚ renamed newKeyOf recur <$> (done ++ todo).
Proof.
  induction todo as [|[k v] todo IH]; intros done s Hnc Hrec Hs; simpl.
  - exists s. split; [done|]. by rewrite app_nil_r in *.
  - destruct Hnc as (Hnd & Hold & Hinj).
    apply Forall_cons in Hrec as [Hrec1 Hrec].
    unfold keys in Hnd, Hold, Hinj.
    rewrite fmap_app, fmap_cons in Hnd, Hold, Hinj. simpl in *.
    pose proof Hnd as Hnd0.
    apply NoDup_app in Hnd as (Hnd1 & Hdisj & Hnd2).
    apply NoDup_cons in Hnd2 as [Hk Hnd2].
    assert (k ∉ done.*1) as Hk1.
    { intros Hin. apply (Hdisj _ Hin). left. }
    assert (newKeyOf k ∉ keys ((renamed newKeyOf recur <$> done) ++ todo)) as Hfresh.
    { unfold keys. rewrite fmap_app, <- list_fmap_compose.
      apply not_elem_of_app. split.
      - intros ([k1 v1] & E & Hin)%list_elem_of_fmap. simpl in E.
        assert (k1 ∈ done.*1) as Hin1 by (by apply (list_elem_of_fmap_2 fst) in Hin).
        assert (k = k1) as <-; [|done].
        apply Hinj; [| |done]; rewrite elem_of_app, elem_of_cons; auto.
      - intros Hin.
        assert (newKeyOf k = k) as E; [|by rewrite E in Hin].
        apply Hold; rewrite elem_of_app, elem_of_cons; auto. }
    assert (NoDup (keys s)) as Hnds.
    { rewrite (keys_perm _ _ Hs). unfold keys.
      rewrite fmap_app, <- list_fmap_compose, fmap_cons. simpl.
      apply NoDup_app. split; [|split].
      - apply NoDup_fmap_2_strong; [|by apply NoDup_fmap_1 in Hnd1].
        intros [k1 v1] [k2 v2] H1 H2 E. simpl in E.
        apply (list_elem_of_fmap_2 fst) in H1 as H1'.
        apply (list_elem_of_fmap_2 fst) in H2 as H2'. simpl in *.
        assert (k1 = k2) as ->.
        { apply Hinj; [| |done]; rewrite elem_of_app; auto. }
        apply list_elem_of_split in H1 as (l1 & l2 & ->).
        rewrite fmap_app, fmap_cons in Hnd1. simpl in Hnd1.
        apply NoDup_app in Hnd1 as (_ & Hd1 & Hd2).
        apply NoDup_cons in Hd2 as [Hk2 _].
        apply elem_of_app in H2 as [H2|H2].
        + apply (list_elem_of_fmap_2 fst) in H2. simpl in H2.
          destruct (Hd1 _ H2). left.
        + apply elem_of_cons in H2 as [H2|H2]; [done|].
          apply (list_elem_of_fmap_2 fst) in H2. done.
      - intros x ([k1 v1] & -> & Hin)%list_elem_of_fmap Hx. simpl in Hx.
        assert (k1 ∈ done.*1) as Hin1 by (by apply (list_elem_of_fmap_2 fst) in Hin).
        assert (newKeyOf k1 = k1) as E.
        { apply Hold; rewrite elem_of_app; auto. }
        rewrite E in Hx. by apply (Hdisj _ Hin1).
      - by apply NoDup_cons. }
    destruct (for_in_step_perm s ((renamed newKeyOf recur <$> done) ++ todo) k v)
      as (s1 & -> & Hs1); [done| |done|done|].
    { by rewrite Hs, Permutation_middle. }
    simpl.
    destruct (IH (done ++ [(k, v)]) s1) as (s' & Hs' & Hp').
    + rewrite <- app_assoc. simpl. unfold no_clash, keys.
      rewrite fmap_app, fmap_cons. done.
    + done.
    + rewrite Hs1, fmap_app. simpl. rewrite <- app_assoc. simpl.
      by rewrite Permutation_middle.
    + exists s'. split; [done|]. by rewrite <- app_assoc in Hp'.
Qed.

Lemma for_in_perm (o : obj) :
  no_clash newKeyOf o →
  Forall (fun kv => typeof_object (snd kv) = true → is_Some (recur (snd kv))) o →
  ∃ o', for_in newKeyOf recur (keys o) o = Some o' ∧ o' ≡ₚ renamed newKeyOf recur <$> o.
Proof. intros. by apply (for_in_perm_gen o []). Qed.

End ForIn.

(** ** There and back *)

Section RoundTrip.

(** [there] is the renaming of the first pass, [back] that of the second. *)
Variables there back : string → string.

Lemma _rename_kind (newKeyOf : string → string) fuel target depth result target' :
  _rename newKeyOf fuel target depth = Some (result, target') →
  typeof_object target' = typeof_object target.
Proof.
  destruct fuel as [|fuel]; [done|]. simpl.
  destruct (depth - 1 <? 0); [by intros [= _ <-]|].
  destruct target; try by intros [= _ <-].
  - destruct (mapM _ _); simpl; [|done]. by intros [= _ <-].
  - destruct (for_in _ _ _ _); simpl; [|done]. by intros [= _ <-].
Qed.

Lemma _rename_result (newKeyOf : string → string) fuel target depth result target' :
  _rename newKeyOf fuel target depth = Some (result, target') →
  result = if depth - 1 <? 0 then VUndef else target'.
Proof.
  destruct fuel as [|fuel]; [done|]. simpl.
  destruct (depth - 1 <? 0); [by intros [= <- _]|].
  destruct target; try by intros [= <- <-].
  - destruct (mapM _ _); simpl; [|done]. by intros [= <- <-].
  - destruct (for_in _ _ _ _); simpl; [|done]. by intros [= <- <-].
Qed.

Lemma no_clash_there (o : obj) :
  NoDup (keys o) → (keys_round_trip there back) o → no_clash there o.
Proof.
  intros Hnd Hk. split; [done|]. split.
  - intros k Hin Hin'. destruct (Hk _ Hin) as [_ E2].
    destruct (Hk _ Hin') as [E1 _]. congruence.
  - intros k k' Hin Hin' E. destruct (Hk _ Hin) as [_ E1].
    destruct (Hk _ Hin') as [_ E2]. congruence.
Qed.

Lemma no_clash_back (o o1 : obj) :
  NoDup (keys o) → (keys_round_trip there back) o → keys o1 ≡ₚ there <$> keys o →
  no_clash back o1.
Proof.
  intros Hnd Hk Hp.
  assert (∀ k1, k1 ∈ keys o1 ↔ ∃ k, k1 = there k ∧ k ∈ keys o) as Hin1.
  { intros k1. by rewrite Hp, list_elem_of_fmap. }
  split; [|split].
  - rewrite Hp. apply NoDup_fmap_2_strong; [|done].
    intros k k' Hin Hin' E. destruct (Hk _ Hin) as [_ E1].
    destruct (Hk _ Hin') as [_ E2]. congruence.
  - intros k1 (k & -> & Hin)%Hin1 (k2 & E & Hin2)%Hin1.
    destruct (Hk _ Hin) as [Hb Hl]. destruct (Hk _ Hin2) as [Hb2 Hl2].
    rewrite Hl in E. rewrite Hl. congruence.
  - intros k1 k1' (k & -> & Hin)%Hin1 (k' & -> & Hin')%Hin1 E.
    destruct (Hk _ Hin) as [_ E1]. destruct (Hk _ Hin') as [_ E2]. congruence.
Qed.

Lemma round_trip_ready_arr items :
  (round_trip_ready there back) (VArr items) → Forall (round_trip_ready there back) items.
Proof.
  unfold round_trip_ready, in_convention, lossless. simpl.
  intros (Hw & Hc & Hl). apply Forall_forall. intros x Hx%list_elem_of_In.
  rewrite forallb_forall in Hw, Hc, Hl. auto.
Qed.

Lemma round_trip_ready_obj props :
  (round_trip_ready there back) (VObj props) →
  NoDup (keys props) ∧ (keys_round_trip there back) props
  ∧ Forall (fun kv => (round_trip_ready there back) (snd kv)) props.
Proof.
  unfold round_trip_ready, in_convention, lossless. simpl.
  intros ([Hd Hw]%andb_prop & Hc & Hl).
  rewrite forallb_forall in Hw, Hc, Hl.
  split; [by apply distinct_NoDup|]. split.
  - intros k ([k' v] & -> & Hin%list_elem_of_In)%list_elem_of_fmap. simpl.
    apply Hc in Hin as Hc'. apply Hl in Hin as Hl'.
    apply andb_prop in Hc' as [Hc' _]. apply andb_prop in Hl' as [Hl' _].
    unfold key_in_convention, key_lossless in *. simpl in *.
    by apply String.eqb_eq in Hc', Hl'.
  - apply Forall_forall. intros [k v] Hin%list_elem_of_In. simpl.
    apply Hw in Hin as Hw'. apply Hc in Hin as Hc'. apply Hl in Hin as Hl'.
    apply andb_prop in Hc' as [_ Hc']. apply andb_prop in Hl' as [_ Hl'].
    done.
Qed.

Lemma round_trip_fuel (fuel : nat) :
  ∀ x depth, (height x < fuel)%nat → (round_trip_ready there back) x →
    ∃ y z, snd <$> _rename there fuel x depth = Some y
           ∧ snd <$> _rename back fuel y depth = Some z
           ∧ deep_equal z x.
Proof.
  induction fuel as [|fuel IH]; intros x depth Hfuel Hready; [lia|].
  simpl. destruct (depth - 1 <? 0) eqn:Hd.
  { exists x, x. simpl. repeat split. apply deep_equal_refl. }
  destruct x as [| | | | |items|props];
    try (eexists _, _; simpl; repeat split; apply deep_equal_refl).
  - apply round_trip_ready_arr in Hready.
    assert (Forall (fun x => (height x < fuel)%nat) items) as Hh.
    { destruct fuel as [|n]; [simpl in Hfuel; lia|].
      assert (height (VArr items) ≤ S n)%nat as Hle by lia.
      apply height_arr_le in Hle.
      eapply Forall_impl; [exact Hle|]. intros x Hx. simpl in Hx. lia. }
    assert (∃ ys zs,
      mapM (fun item => snd <$> _rename there fuel item default_depth) items = Some ys
      ∧ mapM (fun item => snd <$> _rename back fuel item default_depth) ys = Some zs
      ∧ Forall2 deep_equal zs items) as (ys & zs & -> & Hzs & Hde).
    { clear Hfuel. induction items as [|x items IHl]; simpl.
      - exists [], []. by repeat split.
      - apply Forall_cons in Hready as [Hx Hready].
        apply Forall_cons in Hh as [Hhx Hh].
        destruct (IH x default_depth Hhx Hx) as (y & z & -> & Hz & Hxz).
        destruct (IHl Hready Hh) as (ys & zs & -> & Hzs & Hde). simpl.
        exists (y :: ys), (z :: zs). simpl. rewrite Hz, Hzs. simpl.
        repeat split. by constructor. }
    simpl. exists (VArr ys), (VArr zs). rewrite Hzs. simpl.
    repeat split. by constructor.
  - apply round_trip_ready_obj in Hready as (Hnd & Hkeys & Hready).
    assert (vals_le (pred fuel) props) as Hh.
    { apply height_obj_le. simpl in *. lia. }
    set (rec1 := fun v => snd <$> _rename there fuel v (depth - 1)).
    set (rec2 := fun v => snd <$> _rename back fuel v (depth - 1)).
    assert (∀ k v, (k, v) ∈ props →
              ∃ y z, rec1 v = Some y ∧ rec2 y = Some z ∧ deep_equal z v) as Hchild.
    { intros k v Hin. apply IH.
      - eapply (proj1 (Forall_forall _ _)) in Hh; [|exact Hin]. simpl in *. lia.
      - by eapply (proj1 (Forall_forall _ _)) in Hready; [|exact Hin]. }
    destruct (for_in_perm there rec1 props) as (o1 & -> & Ho1).
    { by apply no_clash_there. }
    { apply Forall_forall. intros [k v] Hin _. simpl.
      destruct (Hchild k v Hin) as (y & _ & -> & _). eauto. }
    simpl.
    assert (∀ k v, (k, v) ∈ props →
              ∃ z, walked rec2 (walked rec1 v) = z ∧ deep_equal z v
                   ∧ (typeof_object (walked rec1 v) = true →
                      is_Some (rec2 (walked rec1 v)))) as Hwalk.
    { intros k v Hin. destruct (Hchild k v Hin) as (y & z & Hy & Hz & Hde).
      unfold walked. destruct (typeof_object v) eqn:Hty.
      - rewrite Hy. simpl.
        assert (typeof_object y = true) as ->.
        { unfold rec1 in Hy.
          destruct (_rename there fuel v (depth - 1)) as [[r y']|] eqn:E; [|done].
          apply _rename_kind in E. simpl in Hy. congruence. }
        rewrite Hz. simpl. eauto.
      - rewrite Hty. eexists; split; [done|]. split; [apply deep_equal_refl|done]. }
    destruct (for_in_perm back rec2 o1) as (o2 & Ho2 & Hp2).
    { eapply no_clash_back; [exact Hnd|exact Hkeys|].
      rewrite (keys_perm _ _ Ho1). unfold keys.
      by rewrite <- !list_fmap_compose. }
    { apply Forall_forall. intros kv Hin. rewrite Ho1 in Hin.
      apply list_elem_of_fmap in Hin as ([k v] & -> & Hin). simpl.
      by destruct (Hwalk k v Hin) as (_ & _ & _ & ?). }
    exists (VObj o1), (VObj o2). fold rec2. rewrite Ho2.
    simpl. repeat split.
    apply DE_obj with (o1' := renamed back rec2 <$> (renamed there rec1 <$> props))
                      (o2' := props); [by rewrite Hp2, Ho1|done|].
    apply Forall2_fmap_l, Forall2_fmap_l, Forall_Forall2_diag, Forall_forall.
    intros [k v] Hin. simpl. split.
    + apply Hkeys. by apply (list_elem_of_fmap_2 fst) in Hin.
    + by destruct (Hwalk k v Hin) as (z & <- & ? & _).
Qed.

End RoundTrip.

(** ** The store: what a call of the transformers can write *)

Section HeapFrame.

Import Heap.

Implicit Types (h : heap) (v : jsval) (l : loc) (c : cell).

Lemma Forall_obj_set {V : Type} (P : string * V → Prop) (o : properties V) k (x : V) :
  Forall P o → P (k, x) → Forall P (obj_set o k x).
Proof.
  intros Ho Hx. induction o as [|[k0 v0] o IH]; simpl.
  - by repeat constructor.
  - apply Forall_cons in Ho as [H0 Ho].
    destruct (String.eqb k0 k); constructor; auto.
Qed.

Lemma Forall_obj_delete {V : Type} (P : string * V → Prop) (o : properties V) k :
  Forall P o → Forall P (obj_delete o k).
Proof.
  intros Ho. induction o as [|[k0 v0] o IH]; simpl; [done|].
  apply Forall_cons in Ho as [H0 Ho].
  destruct (String.eqb k0 k); [|constructor]; auto.
Qed.

Lemma fresh_obj_get (n : nat) (o : properties jsval) k :
  Forall (fun kv => fresh n (snd kv)) o → fresh n (Heap.obj_get o k).
Proof.
  intros Ho. unfold Heap.obj_get.
  destruct (obj_lookup o k) as [v|] eqn:E; simpl; [|done].
  apply obj_lookup_In in E.
  by eapply (proj1 (Forall_forall _ _)) in Ho; [|exact E].
Qed.

Lemma extends_start h : extends (length h) h h.
Proof.
  split; [done|]. intros l c Hl Hc.
  apply lookup_lt_Some in Hc. lia.
Qed.

Lemma extends_insert (n : nat) h0 h l c :
  extends n h0 h → (n ≤ l)%nat → cell_fresh n c → extends n h0 (<[l := c]> h).
Proof.
  intros [Hold Hnew] Hl Hc. split.
  - intros l' Hl'. rewrite list_lookup_insert_ne by lia. auto.
  - intros l' c' Hl'. destruct (decide (l = l')) as [<-|Hne].
    + intros Hc'. assert (l < length h)%nat as Hlt.
      { apply lookup_lt_Some in Hc'. by rewrite length_insert in Hc'. }
      rewrite list_lookup_insert_eq in Hc' by done. by injection Hc' as <-.
    + rewrite list_lookup_insert_ne by done. eauto.
Qed.

Lemma extends_alloc (n : nat) h0 h c :
  extends n h0 h → (n ≤ length h)%nat → cell_fresh n c → extends n h0 (h ++ [c]).
Proof.
  intros [Hold Hnew] Hl Hc. split.
  - intros l' Hl'. rewrite lookup_app_l by lia. auto.
  - intros l' c' Hl' [[? ?]|[? ?]]%lookup_snoc_Some; [eauto|by subst].
Qed.

Lemma extends_assignValue (n : nat) h0 h l key v :
  extends n h0 h → (n ≤ l)%nat → fresh n v → extends n h0 (assignValue h l key v).
Proof.
  intros Hext Hl Hv. unfold assignValue.
  destruct (h !! l) as [[items|props]|] eqn:E; [| |done].
  - destruct key as [i|k]; [|done].
    apply extends_insert; [done|done|]. simpl.
    apply Forall_insert; [|done]. by apply (proj2 Hext l _ Hl E).
  - destruct key as [i|k]; [done|].
    apply extends_insert; [done|done|]. simpl.
    apply Forall_obj_set; [|done]. by apply (proj2 Hext l _ Hl E).
Qed.

Lemma length_assignValue h l key v : length (assignValue h l key v) = length h.
Proof.
  unfold assignValue. destruct (h !! l) as [[?|?]|], key; by rewrite ?length_insert.
Qed.

Lemma stack_get_fresh (n : nat) stack l l' :
  stack_fresh n stack → stack_get stack l = Some l' → (n ≤ l')%nat.
Proof.
  intros Hs. induction Hs as [|[a b] stack Hab _ IH]; simpl; [done|].
  destruct (a =? l)%nat; [by intros [= <-]|done].
Qed.

Lemma clone_each_ok (n : nat) h0 (result : loc)
    (clone : heap → list (loc * loc) → jsval → option (heap * list (loc * loc) * jsval)) :
  (n ≤ result)%nat →
  (∀ h stack v h' stack' v',
     clone_ok n h0 (h, stack) → clone h stack v = Some (h', stack', v') →
     clone_ok n h0 (h', stack') ∧ fresh n v') →
  ∀ (entries : list ((nat + string) * jsval)) st st',
    clone_ok n h0 st →
    foldl (fun (acc : option (heap * list (loc * loc))) (entry : (nat + string) * jsval) =>
             '(h, stack) ← acc;
             '(h, stack, v') ← clone h stack (snd entry);
             Some (assignValue h result (fst entry) v', stack))
          (Some st) entries = Some st' →
    clone_ok n h0 st'.
Proof.
  intros Hres Hclone entries.
  induction entries as [|entry entries IH]; intros [h stack] st' Hok; simpl.
  - by intros [= <-].
  - destruct (clone h stack (snd entry)) as [[[h1 stack1] v1]|] eqn:E; simpl.
    + apply Hclone in E as [(Hext & Hst & Hlen) Hv]; [|done].
      apply IH. simpl in *. split; [|split]; simpl; [|done|].
      * by apply extends_assignValue.
      * by rewrite length_assignValue.
    + intros Hnone. exfalso. clear -Hnone.
      induction entries as [|e es IHes]; simpl in *; [done|auto].
Qed.

Lemma baseClone_ok (n : nat) h0 (fuel : nat) :
  ∀ h stack v h' stack' v',
    clone_ok n h0 (h, stack) → baseClone fuel h stack v = Some (h', stack', v') →
    clone_ok n h0 (h', stack') ∧ fresh n v'.
Proof.
  induction fuel as [|fuel IH]; intros h stack v h' stack' v' Hok; [done|].
  simpl. destruct v as [| | | | |l]; try by intros [= <- <- <-].
  destruct (stack_get stack l) as [l'|] eqn:Eget.
  { intros [= <- <- <-]. split; [done|]. simpl.
    destruct Hok as (_ & Hst & _). by eapply stack_get_fresh. }
  destruct Hok as (Hext & Hst & Hlen). simpl in *.
  destruct (h !! l) as [[items|props]|] eqn:El; [| |done].
  - match goal with |- context [foldl ?f ?a ?es] =>
      destruct (foldl f a es) as [[h1 stack1]|] eqn:E end; simpl; [|done].
    intros [= <- <- <-].
    eapply (clone_each_ok n h0 (length h)) in E; [|done|exact IH|].
    + split; [done|]. simpl. done.
    + split; [|split]; simpl.
      * apply extends_alloc; [done|done|]. simpl. by apply Forall_replicate.
      * by constructor.
      * rewrite length_app. lia.
  - match goal with |- context [foldl ?f ?a ?es] =>
      destruct (foldl f a es) as [[h1 stack1]|] eqn:E end; simpl; [|done].
    intros [= <- <- <-].
    eapply (clone_each_ok n h0 (length h)) in E; [|done|exact IH|].
    + split; [done|]. simpl. done.
    + split; [|split]; simpl.
      * apply extends_alloc; [done|done|]. simpl. constructor.
      * by constructor.
      * rewrite length_app. lia.
Qed.

Lemma cloneDeep_extends (fuel : nat) h v h' v' :
  Heap.cloneDeep fuel h v = Some (h', v') →
  extends (length h) h h' ∧ fresh (length h) v'.
Proof.
  unfold Heap.cloneDeep.
  destruct (baseClone fuel h [] v) as [[[h1 stack1] v1]|] eqn:E; simpl; [|done].
  intros [= <- <-].
  apply (baseClone_ok (length h) h) in E as [(Hext & _ & _) Hv]; [done|].
  split; [|split]; simpl; [apply extends_start|constructor|done].
Qed.

Section Rename.

Variable newKeyOf : string → string.

Lemma foldl_option_inv {A B : Type} (P : A → Prop) (Q : B → Prop)
    (step : A → B → option A) :
  (∀ a b a', P a → Q b → step a b = Some a' → P a') →
  ∀ (bs : list B) a a',
    Forall Q bs → P a →
    foldl (fun acc b => a ← acc; step a b) (Some a) bs = Some a' → P a'.
Proof.
  intros Hstep bs. induction bs as [|b bs IH]; intros a a' HQ Ha; simpl.
  - by intros [= <-].
  - apply Forall_cons in HQ as [Hb HQ].
    destruct (step a b) as [a1|] eqn:E; simpl.
    + apply IH; eauto.
    + intros Hnone. exfalso. clear -Hnone.
      induction bs as [|e es IHes]; simpl in *; [done|auto].
Qed.

Lemma for_in_step_extends (n : nat) h0 (recur : heap → jsval → option heap) l :
  (n ≤ l)%nat →
  (∀ h v h', extends n h0 h → fresh n v → recur h v = Some h' → extends n h0 h') →
  ∀ h key h', extends n h0 h →
    Heap.for_in_step newKeyOf recur l h key = Some h' → extends n h0 h'.
Proof.
  intros Hl Hrec h key h' Hext. unfold Heap.for_in_step.
  destruct (h !! l) as [[items|target]|] eqn:El; [done| |done].
  destruct (obj_has target key); [|by intros [= <-]].
  set (target' := if String.eqb key (newKeyOf key) then target else _).
  assert (Forall (fun kv => fresh n (snd kv)) target) as Hfresh.
  { by apply (proj2 Hext l _ Hl El). }
  assert (Forall (fun kv => fresh n (snd kv)) target') as Hfresh'.
  { subst target'. destruct (String.eqb key (newKeyOf key)); [done|].
    apply Forall_obj_delete, Forall_obj_set; [done|]. by apply fresh_obj_get. }
  assert (extends n h0 (<[l := CObj target']> h)) as Hext'.
  { by apply extends_insert. }
  destruct (typeof_object _); [|by intros [= <-]].
  apply Hrec; [done|]. by apply fresh_obj_get.
Qed.

Lemma _rename_extends (n : nat) h0 (fuel : nat) :
  ∀ h target depth h' result,
    extends n h0 h → fresh n target →
    Heap._rename newKeyOf fuel h target depth = Some (h', result) →
    extends n h0 h'.
Proof.
  induction fuel as [|fuel IH]; intros h target depth h' result Hext Hfresh; [done|].
  simpl. destruct (depth - 1 <? 0); [by intros [= <- _]|].
  assert (∀ d h v h', extends n h0 h → fresh n v →
            fst <$> Heap._rename newKeyOf fuel h v d = Some h' → extends n h0 h')
    as Hrec.
  { intros d h1 v h1' Hext1 Hv.
    destruct (Heap._rename newKeyOf fuel h1 v d) as [[h2 r]|] eqn:E; [|done].
    intros [= <-]. by eapply IH. }
  destruct target as [| | | | |l]; try by intros [= <- _].
  simpl in Hfresh.
  destruct (h !! l) as [[items|props]|] eqn:El; [| |done].
  - destruct (Heap.forEach _ items h) as [h1|] eqn:E; simpl; [|done].
    intros [= <- _]. unfold Heap.forEach in E.
    assert (Forall (fresh n) items) as Hitems by (by apply (proj2 Hext l _ Hfresh El)).
    eapply (foldl_option_inv (extends n h0) (fresh n)) in E; [done| |done|done].
    intros a item a' Ha Hitem. by apply Hrec.
  - destruct (Heap.for_in _ _ l _ h) as [h1|] eqn:E; simpl; [|done].
    intros [= <- _]. unfold Heap.for_in in E.
    eapply (foldl_option_inv (extends n h0) (fun _ => True)) in E; [done| | |done].
    + intros a key a' Ha _. apply for_in_step_extends; [done| |done].
      apply Hrec.
    + by apply Forall_forall.
Qed.

Lemma transform_frame (fuel : nat) h target depth h' result :
  Heap.transform newKeyOf fuel h target depth = Some (h', result) →
  ∀ l c, h !! l = Some c → h' !! l = Some c.
Proof.
  unfold Heap.transform.
  destruct (Heap.cloneDeep fuel h target) as [[h1 temp]|] eqn:Ec; simpl; [|done].
  intros Hr l c Hl.
  apply cloneDeep_extends in Ec as [Hext Htemp].
  eapply _rename_extends in Hr as [Hold _]; [|done|done].
  rewrite Hold; [done|]. by apply lookup_lt_Some in Hl.
Qed.

End Rename.

(** A snapshot reads only cells; where these are kept, it reads the
    same. *)
Lemma read_preserved (fuel : nat) :
  ∀ h h' v t,
    (∀ l c, h !! l = Some c → h' !! l = Some c) →
    Heap.read fuel h v = Some t → Heap.read fuel h' v = Some t.
Proof.
  induction fuel as [|fuel IH]; intros h h' v t Hkeep; [done|].
  simpl. destruct v as [| | | | |l]; try done.
  destruct (h !! l) as [c|] eqn:El; [|done].
  rewrite (Hkeep _ _ El). destruct c as [items|props].
  - destruct (mapM (Heap.read fuel h) items) as [ts|] eqn:E; [|done].
    intros [= <-].
    assert (mapM (Heap.read fuel h') items = Some ts) as ->; [|done].
    apply mapM_Some in E. apply mapM_Some.
    eapply Forall2_impl; [exact E|]. intros x y. by apply IH.
  - destruct (mapM _ props) as [ps|] eqn:E; [|done].
    intros [= <-].
    assert (mapM (fun kv => pair (fst kv) <$> Heap.read fuel h' (snd kv)) props
            = Some ps) as ->; [|done].
    apply mapM_Some in E. apply mapM_Some.
    eapply Forall2_impl; [exact E|]. intros [k x] y. simpl.
    destruct (Heap.read fuel h x) as [tx|] eqn:Ex; [|done].
    by rewrite (IH _ _ _ _ Hkeep Ex).
Qed.

End HeapFrame.

(** ** The functions on the store and the functions on values *)

Section StoreAgrees.

Import Heap.

Lemma kept_refl fp h : kept fp h h.
Proof. by split. Qed.

Lemma kept_trans fp h1 h2 h3 : kept fp h1 h2 → kept fp h2 h3 → kept fp h1 h3.
Proof.
  intros [L1 K1] [L2 K2]. split; [congruence|].
  intros l Hl. by rewrite K2, K1.
Qed.

Lemma kept_mono fp fp' h h' : (∀ l, l ∈ fp → l ∈ fp') → kept fp h h' → kept fp' h h'.
Proof. intros Hsub [L K]. split; [done|]. intros l Hl. apply K. auto. Qed.

Lemma lays_typeof h v t fp :
  lays h v t fp → Heap.typeof_object v = Js.typeof_object t.
Proof. by destruct 1. Qed.

Lemma lays_NoDup h v t fp : lays h v t fp → NoDup fp.
Proof. destruct 1; first [done | by constructor]. Qed.

Lemma elem_of_concat_lookup {A} (ls : list (list A)) i (f : list A) x :
  ls !! i = Some f → x ∈ f → x ∈ concat ls.
Proof.
  intros Hi Hx. apply list_elem_of_lookup_2 in Hi.
  induction ls as [|g ls IH]; [by apply not_elem_of_nil in Hi|].
  simpl. apply elem_of_app. apply elem_of_cons in Hi as [->|Hi]; auto.
Qed.

(** What lies in cells that are kept lies there still. *)
Lemma lays_kept (n : nat) :
  ∀ h h' v t fp,
    (height t < n)%nat →
    (∀ l, l ∈ fp → h' !! l = h !! l) →
    lays h v t fp → lays h' v t fp.
Proof.
  induction n as [|n IH]; intros h h' v t fp Hn Hk Hl; [lia|].
  destruct Hl as [| | | | |l items ts fps Hcell Hall Hnd|l props ps kf Hcell Hall Hnd];
    try by constructor.
  - apply lays_arr with (items := items); [by rewrite Hk by left| |done].
    assert (∀ x, x ∈ concat fps → h' !! x = h !! x) as Hk'.
    { intros x Hx. apply Hk. by right. }
    assert (Forall (fun t => (height t < n)%nat) ts) as Hh.
    { destruct n as [|m]; [simpl in Hn; lia|].
      assert (height (VArr ts) ≤ S m)%nat as Hle by lia.
      apply height_arr_le in Hle.
      eapply Forall_impl; [exact Hle|]. intros x Hx. simpl in Hx. lia. }
    clear Hnd Hcell Hk Hn. induction Hall as [|i t f items ts fps Hi Hall IHall];
      [constructor|].
    apply Forall_cons in Hh as [Hht Hh]. simpl in Hk'. constructor.
    + apply (IH h); [done| |done]. intros x Hx. apply Hk'. apply elem_of_app. auto.
    + apply IHall; [|done]. intros x Hx. apply Hk'. apply elem_of_app. auto.
  - apply lays_obj with (props := props); [by rewrite Hk by left| |done].
    assert (∀ x, x ∈ vals kf → h' !! x = h !! x) as Hk'.
    { intros x Hx. apply Hk. by right. }
    assert (vals_le (pred n) ps) as Hh.
    { apply height_obj_le. simpl in *. lia. }
    clear Hnd Hcell Hk. unfold vals in Hk'.
    induction Hall as [|p q g props ps kf (Hpq & Hgq & Hi) Hall IHall];
      [constructor|].
    apply Forall_cons in Hh as [Hht Hh]. simpl in Hk'. constructor.
    + split; [done|]. split; [done|].
      apply (IH h); [simpl in *; lia| |done].
      intros x Hx. apply Hk'. apply elem_of_app. auto.
    + apply IHall; [simpl in *; lia| |done].
      intros x Hx. apply Hk'. apply elem_of_app. auto.
Qed.

Lemma lays_kept' h h' v t fp :
  (∀ l, l ∈ fp → h' !! l = h !! l) → lays h v t fp → lays h' v t fp.
Proof. apply (lays_kept (S (height t))). lia. Qed.

Lemma lays_all_kept h h' items ts fps :
  (∀ x, x ∈ concat fps → h' !! x = h !! x) →
  Forall3 (lays h) items ts fps → Forall3 (lays h') items ts fps.
Proof.
  intros Hk Hall. induction Hall as [|i t f items ts fps Hi Hall IHall];
    [constructor|].
  simpl in Hk. constructor.
  - apply (lays_kept' h); [|done]. intros x Hx. apply Hk, elem_of_app. auto.
  - apply IHall. intros x Hx. apply Hk, elem_of_app. auto.
Qed.

Lemma lays_props_kept h h' props ps kf :
  (∀ x, x ∈ vals kf → h' !! x = h !! x) →
  al3 (lays h) props ps kf → al3 (lays h') props ps kf.
Proof.
  unfold al3, vals. intros Hk Hall.
  induction Hall as [|p q g props ps kf (Hpq & Hgq & Hi) Hall IHall]; [constructor|].
  simpl in Hk. constructor.
  - split; [done|]. split; [done|].
    apply (lays_kept' h); [|done]. intros x Hx. apply Hk, elem_of_app. auto.
  - apply IHall. intros x Hx. apply Hk, elem_of_app. auto.
Qed.

Section Al3.

Context {A B C : Type} (R : A → B → C → Prop).
Implicit Types (a : properties A) (b : properties B) (c : properties C).

Lemma al3_lookup a b c k :
  al3 R a b c →
  (obj_lookup a k = None ∧ obj_lookup b k = None ∧ obj_lookup c k = None)
  ∨ ∃ x y z, obj_lookup a k = Some x ∧ obj_lookup b k = Some y
             ∧ obj_lookup c k = Some z ∧ R x y z.
Proof.
  induction 1 as [|[k1 x] [k2 y] [k3 z] a b c (E1 & E2 & Hr) Hall IH]; simpl in *.
  - by left.
  - subst k1 k3. destruct (String.eqb k2 k); [|done]. right. by exists x, y, z.
Qed.

Lemma al3_has a b c k : al3 R a b c → obj_has a k = obj_has b k.
Proof.
  intros Hall. unfold obj_has.
  destruct (al3_lookup a b c k Hall) as [(-> & -> & _)|(x & y & z & -> & -> & _)]; done.
Qed.

Lemma al3_set a b c k x y z :
  al3 R a b c → R x y z → al3 R (obj_set a k x) (obj_set b k y) (obj_set c k z).
Proof.
  intros Hall Hr.
  induction Hall as [|[k1 x1] [k2 y1] [k3 z1] a b c (E1 & E2 & Hr1) Hall IH]; simpl in *.
  - by repeat constructor.
  - subst k1 k3. destruct (String.eqb k2 k); by constructor.
Qed.

Lemma al3_delete a b c k :
  al3 R a b c → al3 R (obj_delete a k) (obj_delete b k) (obj_delete c k).
Proof.
  induction 1 as [|[k1 x1] [k2 y1] [k3 z1] a b c (E1 & E2 & Hr1) Hall IH]; simpl in *.
  - constructor.
  - subst k1 k3. destruct (String.eqb k2 k); [done|by constructor].
Qed.

End Al3.

(** The footprints of an object under the operations of the loop. *)
Section Footprints.

Implicit Types (kf : properties (list nat)) (g : list nat).

Lemma vals_set kf k g : vals (obj_set kf k g) ⊆+ g ++ vals kf.
Proof.
  unfold vals. induction kf as [|[k0 g0] kf IH]; simpl.
  - by rewrite app_nil_r.
  - destruct (String.eqb k0 k); simpl.
    + apply submseteq_skips_l. apply submseteq_inserts_l. done.
    + etrans; [apply submseteq_skips_l, IH|].
      by rewrite !app_assoc, (Permutation_app_comm g0 g).
Qed.

Lemma vals_delete kf k : vals (obj_delete kf k) ⊆+ vals kf.
Proof.
  unfold vals. induction kf as [|[k0 g0] kf IH]; simpl; [done|].
  destruct (String.eqb k0 k); simpl.
  - by apply submseteq_inserts_l.
  - by apply submseteq_skips_l.
Qed.

Lemma vals_delete_lookup kf k g :
  obj_lookup kf k = Some g → g ++ vals (obj_delete kf k) ⊆+ vals kf.
Proof.
  unfold vals. induction kf as [|[k0 g0] kf IH]; simpl; [done|].
  destruct (String.eqb k0 k); simpl.
  - intros [= ->]. apply submseteq_skips_l. apply vals_delete.
  - intros Hl. etrans; [|apply submseteq_skips_l, (IH Hl)].
    by rewrite !app_assoc, (Permutation_app_comm g0 g).
Qed.

(** Moving the value of [k] under the key [k']. *)
Lemma vals_move kf k k' g :
  k ≠ k' → obj_lookup kf k = Some g →
  vals (obj_delete (obj_set kf k' g) k) ⊆+ vals kf.
Proof.
  intros Hne. unfold vals. induction kf as [|[k0 g0] kf IH]; simpl; [done|].
  destruct (String.eqb k0 k') eqn:E'.
  - apply String.eqb_eq in E' as ->.
    apply not_eq_sym, String.eqb_neq in Hne as Hne'. rewrite Hne'. simpl.
    rewrite Hne'. simpl. intros Hl.
    etrans; [|apply submseteq_inserts_l, (vals_delete_lookup kf k g Hl)].
    done.
  - simpl. destruct (String.eqb k0 k) eqn:E.
    + intros [= ->]. etrans; [apply vals_delete|]. apply vals_set.
    + intros Hl. simpl. apply submseteq_skips_l. auto.
Qed.

(** Replacing the footprint of [k] by a part of it. *)
Lemma vals_shrink kf k g g' :
  obj_lookup kf k = Some g → g' ⊆+ g → vals (obj_set kf k g') ⊆+ vals kf.
Proof.
  unfold vals. induction kf as [|[k0 g0] kf IH]; simpl; [done|].
  destruct (String.eqb k0 k); simpl.
  - intros [= ->] Hsub. by apply submseteq_skips_r.
  - intros Hl Hsub. apply submseteq_skips_l. auto.
Qed.

End Footprints.

Lemma NoDup_submseteq_inv {A} (l1 l2 : list A) : l1 ⊆+ l2 → NoDup l2 → NoDup l1.
Proof.
  intros [k Hk]%submseteq_Permutation. rewrite Hk. by intros (? & _ & _)%NoDup_app.
Qed.

Lemma lookup_vals (kf : properties (list nat)) k g x :
  obj_lookup kf k = Some g → x ∈ g → x ∈ vals kf.
Proof.
  unfold vals. induction kf as [|[k0 g0] kf IH]; simpl; [done|].
  rewrite elem_of_app. destruct (String.eqb k0 k); [intros [= ->]|]; auto.
Qed.

Section Loops.

Variables (rec_t : value → option value)
          (rec_h : list cell → jsval → option (list cell)).
Hypothesis Hrec : agrees rec_t rec_h.

Lemma forEach_agrees items ts fps :
  ∀ h ts',
    Forall3 (lays h) items ts fps → NoDup (concat fps) →
    mapM rec_t ts = Some ts' →
    ∃ h' fps', Heap.forEach rec_h items h = Some h'
               ∧ Forall3 (lays h') items ts' fps'
               ∧ concat fps' ⊆+ concat fps ∧ kept (concat fps) h h'.
Proof.
  unfold Heap.forEach.
  revert ts fps. induction items as [|i items IH]; intros ts fps h ts' Hall Hnd Hm.
  - inversion Hall; subst. simpl in Hm. injection Hm as <-.
    exists h, []. repeat split; try done; constructor.
  - inversion Hall as [|? t f ? ts0 fps0 Hi Hall0]; subst. simpl in Hm, Hnd.
    destruct (rec_t t) as [t1|] eqn:Et; simpl in Hm; [|done].
    destruct (mapM rec_t ts0) as [ts1|] eqn:Em; simpl in Hm; [|done].
    injection Hm as <-.
    apply NoDup_app in Hnd as (Hndf & Hdisj & Hnd0).
    destruct (Hrec h i t f t1 Hi Et) as (h1 & f1 & E1 & Hl1 & Hsub1 & Hk1).
    simpl. rewrite E1.
    destruct (IH ts0 fps0 h1 ts1) as (h' & fps1 & E' & Hall' & Hsub' & Hk'); [|done|done|].
    { apply (lays_all_kept h); [|done]. intros x Hx. apply Hk1.
      intros Hxf. by apply (Hdisj x). }
    exists h', (f1 :: fps1). split; [done|]. split; [|split].
    + constructor; [|done]. apply (lays_kept' h1); [|done].
      intros x Hx. apply Hk'. intros Hx'.
      apply (Hdisj x); [exact (elem_of_submseteq _ _ _ Hx Hsub1)|done].
    + simpl. by apply submseteq_app.
    + simpl. eapply kept_trans.
      * eapply kept_mono; [|exact Hk1]. intros x Hx. apply elem_of_app. auto.
      * eapply kept_mono; [|exact Hk']. intros x Hx. apply elem_of_app. auto.
Qed.

Lemma al3_rewalk h h' props o kf k v t g t' g' :
  al3 (lays h) props o kf → NoDup (vals kf) →
  obj_lookup props k = Some v → obj_lookup o k = Some t → obj_lookup kf k = Some g →
  lays h' v t' g' → kept g h h' →
  al3 (lays h') props (obj_set o k t') (obj_set kf k g').
Proof.
  unfold al3, vals. intros Hall.
  induction Hall as [|[k1 x1] [k2 y1] [k3 z1] props o kf (E1 & E2 & Hr1) Hall IH];
    simpl in *; [done|].
  subst k1 k3. intros Hnd.
  apply NoDup_app in Hnd as (Hndz & Hdisj & Hnd).
  destruct (String.eqb k2 k) eqn:E.
  - intros [= ->] [= ->] [= ->] Hl' Hk. apply String.eqb_eq in E as ->.
    constructor; [done|].
    apply (lays_props_kept h); [|done]. intros x Hx. apply Hk.
    intros Hxg. by apply (Hdisj x).
  - intros Hv Ht Hg Hl' Hk. constructor; [|by apply IH].
    split; [done|]. split; [done|]. simpl.
    apply (lays_kept' h); [|done]. intros x Hx. apply Hk.
    intros Hxg. apply (Hdisj x Hx). by eapply (lookup_vals kf).
Qed.

Variable newKeyOf : string → string.

Lemma for_in_step_agrees l h props (o : obj) kf key o' :
  h !! l = Some (CObj props) → al3 (lays h) props o kf → NoDup (l :: vals kf) →
  HttpHepler.for_in_step newKeyOf rec_t o key = Some o' →
  ∃ h' props' kf',
    Heap.for_in_step newKeyOf rec_h l h key = Some h'
    ∧ h' !! l = Some (CObj props') ∧ al3 (lays h') props' o' kf'
    ∧ NoDup (l :: vals kf') ∧ vals kf' ⊆+ vals kf ∧ kept (l :: vals kf) h h'.
Proof.
  intros Hcell Hall Hnd. unfold HttpHepler.for_in_step, Heap.for_in_step.
  cbv zeta. rewrite Hcell, (al3_has _ props o kf key Hall).
  destruct (obj_has o key) eqn:Hhas.
  2:{ intros [= <-]. exists h, props, kf. by repeat split. }
  apply NoDup_cons in Hnd as [Hl Hnd].
  (* the three values under [key] *)
  destruct (al3_lookup _ props o kf key Hall)
    as [(_ & E & _)|(x & y & z & Ex & Ey & Ez & Hxyz)].
  { unfold obj_has in Hhas. by rewrite E in Hhas. }
  set (nk := newKeyOf key).
  set (props1 := if String.eqb key nk then props
                 else obj_delete (obj_set props nk (Heap.obj_get props key)) key).
  set (o1 := if String.eqb key nk then o
             else obj_delete (obj_set o nk (Js.obj_get o key)) key).
  set (kf1 := if String.eqb key nk then kf
              else obj_delete (obj_set kf nk z) key).
  assert (al3 (lays h) props1 o1 kf1 ∧ vals kf1 ⊆+ vals kf) as [Hall1 Hsub1].
  { subst props1 o1 kf1. destruct (String.eqb key nk) eqn:E; [done|].
    apply String.eqb_neq in E. split.
    - apply al3_delete, al3_set; [done|].
      unfold Heap.obj_get, Js.obj_get. by rewrite Ex, Ey.
    - by apply vals_move. }
  assert (NoDup (vals kf1)) as Hnd1 by (by eapply NoDup_submseteq_inv).
  assert (l ∉ vals kf1) as Hl1.
  { intros Hin. apply Hl. exact (elem_of_submseteq _ _ _ Hin Hsub1). }
  set (h1 := <[l := CObj props1]> h).
  assert (kept [l] h h1) as Hk1.
  { subst h1. split; [apply length_insert|]. intros l' Hl'.
    apply list_lookup_insert_ne. intros ->. apply Hl'. left. }
  assert (h1 !! l = Some (CObj props1)) as Hcell1.
  { subst h1. apply list_lookup_insert_eq. by apply lookup_lt_Some in Hcell. }
  assert (al3 (lays h1) props1 o1 kf1) as Hall1'.
  { apply (lays_props_kept h); [|done]. intros x' Hx'. apply Hk1.
    intros ->%list_elem_of_singleton. done. }
  assert (NoDup (l :: vals kf1)) as Hnd1' by (by apply NoDup_cons).
  assert (kept (l :: vals kf) h h1) as Hk1'.
  { eapply kept_mono; [|exact Hk1]. intros x' ->%list_elem_of_singleton. left. }
  (* the three values under the new key *)
  destruct (al3_lookup _ props1 o1 kf1 nk Hall1')
    as [(Ex1 & Ey1 & Ez1)|(x1 & y1 & z1 & Ex1 & Ey1 & Ez1 & Hxyz1)].
  { unfold Heap.obj_get, Js.obj_get. rewrite Ex1, Ey1. simpl.
    intros [= <-]. by exists h1, props1, kf1. }
  unfold Heap.obj_get, Js.obj_get. rewrite Ex1, Ey1. simpl.
  rewrite (lays_typeof _ _ _ _ Hxyz1).
  destruct (Js.typeof_object y1).
  2:{ intros [= <-]. by exists h1, props1, kf1. }
  destruct (rec_t y1) as [y2|] eqn:Er; simpl; [|done].
  intros [= <-].
  destruct (Hrec h1 x1 y1 z1 y2 Hxyz1 Er) as (h2 & z2 & E2 & Hl2 & Hsub2 & Hk2).
  assert (l ∉ z1) as Hlz1.
  { intros Hin. apply Hl1. by eapply (lookup_vals kf1). }
  exists h2, props1, (obj_set kf1 nk z2). split; [done|]. split; [|split; [|split; [|split]]].
  - rewrite (proj2 Hk2); done.
  - by eapply al3_rewalk.
  - assert (vals (obj_set kf1 nk z2) ⊆+ vals kf1) as Hs by (by eapply vals_shrink).
    apply NoDup_cons. split.
    + intros Hin. apply Hl1. exact (elem_of_submseteq _ _ _ Hin Hs).
    + by eapply NoDup_submseteq_inv.
  - etrans; [|exact Hsub1]. by eapply vals_shrink.
  - eapply kept_trans; [exact Hk1'|].
    eapply kept_mono; [|exact Hk2]. intros x' Hx'. right.
      eapply elem_of_submseteq; [|exact Hsub1]. by eapply (lookup_vals kf1).
Qed.

Lemma for_in_agrees l ks :
  ∀ h props o kf o',
    h !! l = Some (CObj props) → al3 (lays h) props o kf → NoDup (l :: vals kf) →
    HttpHepler.for_in newKeyOf rec_t ks o = Some o' →
    ∃ h' props' kf',
      Heap.for_in newKeyOf rec_h l ks h = Some h'
      ∧ h' !! l = Some (CObj props') ∧ al3 (lays h') props' o' kf'
      ∧ NoDup (l :: vals kf') ∧ vals kf' ⊆+ vals kf ∧ kept (l :: vals kf) h h'.
Proof.
  unfold Heap.for_in.
  induction ks as [|key ks IH]; intros h props o kf o' Hcell Hall Hnd; simpl.
  - intros [= <-]. exists h, props, kf. repeat split; done.
  - destruct (HttpHepler.for_in_step newKeyOf rec_t o key) as [o1|] eqn:E1;
      simpl; [|done].
    intros Hrest.
    destruct (for_in_step_agrees l h props o kf key o1 Hcell Hall Hnd E1)
      as (h1 & props1 & kf1 & -> & Hcell1 & Hall1 & Hnd1 & Hsub1 & Hk1).
    destruct (IH h1 props1 o1 kf1 o' Hcell1 Hall1 Hnd1 Hrest)
      as (h' & props' & kf' & E' & Hcell' & Hall' & Hnd' & Hsub' & Hk').
    exists h', props', kf'. repeat split; try done.
    + by etrans.
    + destruct Hk1, Hk'. congruence.
    + intros x Hx. rewrite (proj2 Hk'), (proj2 Hk1); [done|done|].
      intros [->|Hin]%elem_of_cons; apply Hx; [left|right].
      exact (elem_of_submseteq _ _ _ Hin Hsub1).
Qed.

End Loops.

Section Agreement.

Variable newKeyOf : string → string.

Lemma _rename_agrees (fuel : nat) :
  ∀ depth,
    agrees (fun t => snd <$> HttpHepler._rename newKeyOf fuel t depth)
           (fun h v => fst <$> Heap._rename newKeyOf fuel h v depth).
Proof.
  induction fuel as [|fuel IH]; intros depth h v t g t' Hl; [done|].
  simpl. destruct (depth - 1 <? 0).
  { intros [= <-]. exists h, g. repeat split; try done. }
  destruct Hl as [| | | | |l items ts fps Hcell Hall Hnd|l props ps kf Hcell Hall Hnd].
  1-5: intros [= <-]; eexists _, []; repeat split; try done; constructor.
  - destruct (mapM _ ts) as [ts'|] eqn:Em; simpl; [|done]. intros [= <-].
    apply NoDup_cons in Hnd as [Hl Hnd].
    destruct (forEach_agrees _ _ (IH default_depth) items ts fps h ts' Hall Hnd Em)
      as (h' & fps' & E' & Hall' & Hsub' & Hk').
    rewrite Hcell, E'. simpl.
    exists h', (l :: concat fps'). split; [done|]. split; [|split].
    + apply lays_arr with (items := items); [by rewrite (proj2 Hk')|done|].
      apply NoDup_cons. split.
      * intros Hin. apply Hl. exact (elem_of_submseteq _ _ _ Hin Hsub').
      * by eapply NoDup_submseteq_inv.
    + by apply submseteq_skip.
    + eapply kept_mono; [|exact Hk']. intros x Hx. by right.
  - destruct (HttpHepler.for_in _ _ _ ps) as [ps'|] eqn:Ef; simpl; [|done].
    intros [= <-]. rewrite Hcell.
    assert (keys props = keys ps) as ->.
    { clear -Hall. unfold keys. induction Hall as [|? ? ? ? ? ? (? & _) _ IH];
        simpl; [done|]. by f_equal. }
    destruct (for_in_agrees _ _ (IH (depth - 1)) newKeyOf l (keys ps) h props ps kf ps'
                Hcell Hall Hnd Ef)
      as (h' & props' & kf' & E' & Hcell' & Hall' & Hnd' & Hsub' & Hk').
    rewrite E'. simpl.
    exists h', (l :: vals kf'). split; [done|]. split; [|split].
    + by apply lays_obj with (props := props').
    + by apply submseteq_skip.
    + done.
Qed.

(** The private function on the store does what it does on the value
    the store holds: it returns whenever the function on values does,
    leaves the value that one leaves, in cells of the same tree, and
    writes nowhere else. *)
Theorem store_rename_agrees (fuel : nat) (h : list cell) (v : jsval) (t : value)
    (fp : list nat) (depth : Z) (r t' : value) :
  lays h v t fp →
  HttpHepler._rename newKeyOf fuel t depth = Some (r, t') →
  ∃ h' fp',
    Heap._rename newKeyOf fuel h v depth
    = Some (h', if depth - 1 <? 0 then JUndef else v)
    ∧ lays h' v t' fp' ∧ fp' ⊆+ fp ∧ kept fp h h'.
Proof.
  intros Hl Ht.
  destruct (_rename_agrees fuel depth h v t fp t' Hl) as (h' & fp' & E & ?);
    [by rewrite Ht|].
  exists h', fp'. split; [|done].
  destruct (Heap._rename newKeyOf fuel h v depth) as [[h1 r1]|] eqn:E1; [|done].
  simpl in E. injection E as ->. f_equal. f_equal.
  destruct fuel as [|n]; [done|]. simpl in E1.
  destruct (depth - 1 <? 0); [by injection E1 as _ <-|].
  destruct v; try by injection E1 as _ <-.
  destruct (h !! l) as [[?|?]|]; [| |done].
  - destruct (Heap.forEach _ _ _); simpl in E1; [by injection E1 as _ <-|done].
  - destruct (Heap.for_in _ _ _ _ _); simpl in E1; [by injection E1 as _ <-|done].
Qed.

End Agreement.

(** ** The copy *)

Lemma lays_valid (n : nat) :
  ∀ h v t fp, (height t < n)%nat → lays h v t fp → ∀ l, l ∈ fp → (l < length h)%nat.
Proof.
  induction n as [|n IH]; intros h v t fp Hn Hl; [lia|].
  destruct Hl as [| | | | |l items ts fps Hcell Hall Hnd|l props ps kf Hcell Hall Hnd];
    try (intros l' Hl'; by apply not_elem_of_nil in Hl').
  - intros l' [->|Hin]%elem_of_cons; [by apply lookup_lt_Some in Hcell|].
    assert (Forall (fun t => (height t < n)%nat) ts) as Hh.
    { destruct n as [|m]; [simpl in Hn; lia|].
      assert (height (VArr ts) ≤ S m)%nat as Hle by lia.
      apply height_arr_le in Hle.
      eapply Forall_impl; [exact Hle|]. intros x Hx. simpl in Hx. lia. }
    clear Hnd Hcell Hn. induction Hall as [|i t f items ts fps Hi Hall IHall];
      [by apply not_elem_of_nil in Hin|].
    apply Forall_cons in Hh as [Hht Hh]. simpl in Hin.
    apply elem_of_app in Hin as [Hin|Hin]; [by eapply IH|auto].
  - intros l' [->|Hin]%elem_of_cons; [by apply lookup_lt_Some in Hcell|].
    assert (vals_le (pred n) ps) as Hh.
    { apply height_obj_le. simpl in *. lia. }
    clear Hnd Hcell. unfold vals in Hin.
    induction Hall as [|p q g props ps kf (Hpq & Hgq & Hi) Hall IHall];
      [by apply not_elem_of_nil in Hin|].
    apply Forall_cons in Hh as [Hht Hh]. simpl in Hin.
    apply elem_of_app in Hin as [Hin|Hin].
    + eapply (IH h _ (snd q)); [simpl in *; lia|done|done].
    + apply IHall; [simpl in *; lia|done|done].
Qed.

Lemma lays_valid' h v t fp l : lays h v t fp → l ∈ fp → (l < length h)%nat.
Proof. intros Hl. apply (lays_valid (S (height t)) h v t fp); [lia|done]. Qed.

Lemma clone_each_step clone result h stack key v h1 stack1 v1 :
  clone h stack v = Some (h1, stack1, v1) →
  clone_each clone result (Some (h, stack)) (key, v)
  = Some (assignValue h1 result key v1, stack1).
Proof. intros E. unfold clone_each. simpl. by rewrite E. Qed.

Section CloneLoops.

Variable n : nat.
Variable clone : list cell → list (nat * nat) → jsval
                 → option (list cell * list (nat * nat) * jsval).
Hypothesis Hclone : clones n clone.
Variable result : nat.

Abbreviation each := (clone_each clone result).

Lemma clone_items (todo : list jsval) :
  ∀ ts fps (i0 : nat) h stack (done pad : list jsval),
    Forall3 (lays h) todo ts fps →
    Forall (fun t => wf t = true ∧ (height t < n)%nat) ts →
    NoDup (concat fps) →
    (∀ x, x ∈ concat fps → (x < result)%nat ∧ stack_get stack x = None) →
    h !! result = Some (CArr (done ++ pad)) →
    length done = i0 → (length todo ≤ length pad)%nat →
    ∃ h' stack' vs fps',
      foldl each (Some (h, stack)) (imap (fun i x => (inl (i0 + i)%nat, x)) todo)
      = Some (h', stack')
      ∧ h' !! result = Some (CArr (done ++ vs ++ drop (length todo) pad))
      ∧ Forall3 (lays h') vs ts fps'
      ∧ NoDup (concat fps')
      ∧ (∀ x, x ∈ concat fps' → (length h ≤ x)%nat)
      ∧ (∀ x, (x < length h)%nat → x ≠ result → h' !! x = h !! x)
      ∧ (length h ≤ length h')%nat
      ∧ (∀ x, x ∉ concat fps → stack_get stack' x = stack_get stack x).
Proof.
  induction todo as [|item todo IH];
    intros ts fps i0 h stack done pad Hall Hts Hnd Hsrc Hcell Hdone Hpad.
  - inversion Hall; subst. exists h, stack, [], []. simpl.
    rewrite drop_0. split; [done|]. split; [done|]. split; [constructor|].
    split; [constructor|]. split; [intros x Hx; by apply not_elem_of_nil in Hx|].
    by repeat split.
  - inversion Hall as [|? t f ? ts0 fps0 Hi Hall0]; subst.
    apply Forall_cons in Hts as [[Hwf Hht] Hts].
    simpl in Hnd, Hsrc, Hpad.
    apply NoDup_app in Hnd as (Hndf & Hdisj & Hnd0).
    destruct pad as [|p pad]; [simpl in Hpad; lia|]. simpl in Hpad.
    assert (result < length h)%nat as Hres by (by apply lookup_lt_Some in Hcell).
    destruct (Hclone h stack item t f Hi Hwf Hht)
      as (h1 & stack1 & v1 & f1 & E1 & Hl1 & Hfresh1 & Hold1 & Hlen1 & Hst1).
    { intros x Hx. apply Hsrc, elem_of_app. auto. }
    rewrite imap_cons. cbn [foldl]. rewrite (clone_each_step _ _ _ _ _ _ _ _ _ E1).
    assert (assignValue h1 result (inl (length done + 0)%nat) v1
            = <[result := CArr ((done ++ [v1]) ++ pad)]> h1) as ->.
    { unfold assignValue. rewrite Hold1, Hcell by done. f_equal. f_equal.
      rewrite Nat.add_0_r, insert_app_r_alt by lia.
      rewrite Nat.sub_diag. simpl. by rewrite <- app_assoc. }
    set (h2 := <[result := CArr ((done ++ [v1]) ++ pad)]> h1).
    assert (length h2 = length h1) as Hlen2 by (subst h2; apply length_insert).
    assert (∀ x, x ≠ result → h2 !! x = h1 !! x) as Hh2.
    { intros x Hx. subst h2. by apply list_lookup_insert_ne. }
    destruct (IH ts0 fps0 (S (length done)) h2 stack1 (done ++ [v1]) pad)
      as (h' & stack' & vs & fps' & E' & Hcell' & Hall' & Hnd' & Hfresh' & Hold'
          & Hlen' & Hst'); try done.
    + apply (lays_all_kept h); [|done]. intros x Hx.
      destruct (Hsrc x) as [Hxr _]; [apply elem_of_app; auto|].
      rewrite Hh2 by lia. apply Hold1. lia.
    + intros x Hx. destruct (Hsrc x) as [Hxr Hxs]; [apply elem_of_app; auto|].
      split; [done|]. rewrite Hst1; [done|]. intros Hxf. by apply (Hdisj x).
    + subst h2. apply list_lookup_insert_eq. lia.
    + rewrite length_app. simpl. lia.
    + lia.
    + exists h', stack', (v1 :: vs), (f1 :: fps').
      assert (∀ x, x ∈ f1 → (length h ≤ x)%nat ∧ (x < length h1)%nat) as Hf1.
      { intros x Hx. split; [auto|]. by eapply lays_valid'. }
      split; [|split; [|split; [|split; [|split; [|split; [|split]]]]]].
      * rewrite <- E'. f_equal. apply imap_ext. intros i x _. simpl.
        do 2 f_equal. lia.
      * rewrite Hcell'. by rewrite <- !app_assoc.
      * constructor; [|done]. apply (lays_kept' h1); [|done].
        intros x Hx. destruct (Hf1 x Hx). rewrite Hold' by lia.
        apply Hh2. lia.
      * simpl. apply NoDup_app. split; [by eapply lays_NoDup|]. split; [|done].
        intros x Hx Hx'. destruct (Hf1 x Hx). apply Hfresh' in Hx'. lia.
      * simpl. intros x [Hx|Hx]%elem_of_app.
        -- by destruct (Hf1 x Hx).
        -- apply Hfresh' in Hx. lia.
      * intros x Hx Hxr. rewrite Hold' by lia. rewrite Hh2 by done. by apply Hold1.
      * lia.
      * simpl. intros x Hx. apply not_elem_of_app in Hx as [Hx1 Hx2].
        by rewrite Hst', Hst1.
Qed.

Lemma clone_props (todo : properties jsval) :
  ∀ ps kf h stack (cur : properties jsval),
    al3 (lays h) todo ps kf →
    Forall (fun q => wf (snd q) = true ∧ (height (snd q) < n)%nat) ps →
    NoDup (vals kf) →
    (∀ x, x ∈ vals kf → (x < result)%nat ∧ stack_get stack x = None) →
    h !! result = Some (CObj cur) →
    NoDup (keys todo) → (∀ k, k ∈ keys todo → k ∉ keys cur) →
    ∃ h' stack' new kf',
      foldl each (Some (h, stack)) (prod_map inr id <$> todo) = Some (h', stack')
      ∧ h' !! result = Some (CObj (cur ++ new))
      ∧ al3 (lays h') new ps kf'
      ∧ NoDup (vals kf')
      ∧ (∀ x, x ∈ vals kf' → (length h ≤ x)%nat)
      ∧ (∀ x, (x < length h)%nat → x ≠ result → h' !! x = h !! x)
      ∧ (length h ≤ length h')%nat
      ∧ (∀ x, x ∉ vals kf → stack_get stack' x = stack_get stack x).
Proof.
  unfold al3, vals, keys.
  induction todo as [|[k item] todo IH];
    intros ps kf h stack cur Hall Hts Hnd Hsrc Hcell Hkeys Hcur.
  - inversion Hall; subst. exists h, stack, [], []. simpl.
    rewrite app_nil_r. split; [done|]. split; [done|]. split; [constructor|].
    split; [constructor|]. split; [intros x Hx; by apply not_elem_of_nil in Hx|].
    by repeat split.
  - inversion Hall as [|? [k2 t] [k3 f] ? ps0 kf0 (Ek2 & Ek3 & Hi) Hall0]; subst.
    simpl in Ek2, Ek3, Hi. subst k2 k3.
    apply Forall_cons in Hts as [[Hwf Hht] Hts].
    simpl in Hnd, Hsrc, Hkeys, Hcur, Hwf, Hht.
    apply NoDup_app in Hnd as (Hndf & Hdisj & Hnd0).
    apply NoDup_cons in Hkeys as [Hk Hkeys].
    assert (result < length h)%nat as Hres by (by apply lookup_lt_Some in Hcell).
    destruct (Hclone h stack item t f Hi Hwf Hht)
      as (h1 & stack1 & v1 & f1 & E1 & Hl1 & Hfresh1 & Hold1 & Hlen1 & Hst1).
    { intros x Hx. apply Hsrc, elem_of_app. auto. }
    rewrite fmap_cons. cbn [foldl prod_map fst snd id].
    rewrite (clone_each_step _ _ _ _ _ _ _ _ _ E1).
    assert (assignValue h1 result (inr k) v1
            = <[result := CObj (cur ++ [(k, v1)])]> h1) as ->.
    { unfold assignValue. rewrite Hold1, Hcell by done. f_equal. f_equal.
      apply obj_set_fresh. apply Hcur. left. }
    set (h2 := <[result := CObj (cur ++ [(k, v1)])]> h1).
    assert (length h2 = length h1) as Hlen2 by (subst h2; apply length_insert).
    assert (∀ x, x ≠ result → h2 !! x = h1 !! x) as Hh2.
    { intros x Hx. subst h2. by apply list_lookup_insert_ne. }
    destruct (IH ps0 kf0 h2 stack1 (cur ++ [(k, v1)]))
      as (h' & stack' & new & kf' & E' & Hcell' & Hall' & Hnd' & Hfresh' & Hold'
          & Hlen' & Hst'); try done.
    + apply (lays_props_kept h); [|done]. intros x Hx.
      destruct (Hsrc x) as [Hxr _]; [apply elem_of_app; auto|].
      rewrite Hh2 by lia. apply Hold1. lia.
    + intros x Hx. destruct (Hsrc x) as [Hxr Hxs]; [apply elem_of_app; auto|].
      split; [done|]. rewrite Hst1; [done|]. intros Hxf. by apply (Hdisj x).
    + subst h2. apply list_lookup_insert_eq. lia.
    + intros k' Hk'. rewrite fmap_app. simpl. apply not_elem_of_app. split.
      * apply Hcur. by right.
      * intros ->%list_elem_of_singleton. done.
    + exists h', stack', ((k, v1) :: new), ((k, f1) :: kf').
      assert (∀ x, x ∈ f1 → (length h ≤ x)%nat ∧ (x < length h1)%nat) as Hf1.
      { intros x Hx. split; [auto|]. by eapply lays_valid'. }
      split; [done|]. split; [|split; [|split; [|split; [|split; [|split]]]]].
      * rewrite Hcell'. by rewrite <- !app_assoc.
      * constructor; [|done]. split; [done|]. split; [done|]. simpl.
        apply (lays_kept' h1); [|done].
        intros x Hx. destruct (Hf1 x Hx). rewrite Hold' by lia.
        apply Hh2. lia.
      * simpl. apply NoDup_app. split; [by eapply lays_NoDup|]. split; [|done].
        intros x Hx Hx'. destruct (Hf1 x Hx). apply Hfresh' in Hx'. lia.
      * simpl. intros x [Hx|Hx]%elem_of_app.
        -- by destruct (Hf1 x Hx).
        -- apply Hfresh' in Hx. lia.
      * intros x Hx Hxr. rewrite Hold' by lia. rewrite Hh2 by done. by apply Hold1.
      * lia.
      * simpl. intros x Hx. apply not_elem_of_app in Hx as [Hx1 Hx2].
        by rewrite Hst', Hst1.
Qed.

End CloneLoops.

Lemma wf_arr items : wf (VArr items) = true → Forall (fun t => wf t = true) items.
Proof.
  simpl. intros Hw. apply Forall_forall. intros x Hx%list_elem_of_In.
  rewrite forallb_forall in Hw. auto.
Qed.

Lemma wf_obj props :
  wf (VObj props) = true →
  NoDup (keys props) ∧ Forall (fun kv => wf (snd kv) = true) props.
Proof.
  simpl. intros [Hd Hw]%andb_prop. split; [by apply distinct_NoDup|].
  apply Forall_forall. intros x Hx%list_elem_of_In.
  rewrite forallb_forall in Hw. auto.
Qed.

Lemma baseClone_clones (fuel : nat) : clones fuel (baseClone fuel).
Proof.
  induction fuel as [|fuel IH]; intros h stack v t fp Hl Hwf Hh Hst; [lia|].
  destruct Hl as [| | | | |l items ts fps Hcell Hall Hnd|l props ps kf Hcell Hall Hnd].
  1-5: (eexists h, stack, _, []; simpl; split; [done|]; split; [constructor|];
        split; [intros x Hx; by apply not_elem_of_nil in Hx|]; by repeat split).
  - simpl. rewrite (Hst l) by left. rewrite Hcell.
    apply NoDup_cons in Hnd as [Hlf Hnd].
    set (h0 := h ++ [CArr (replicate (length items) JUndef)]).
    assert (length h0 = S (length h)) as Hlen0.
    { subst h0. rewrite length_app. simpl. lia. }
    destruct (clone_items fuel (baseClone fuel) IH (length h) items ts fps 0%nat
                h0 ((l, length h) :: stack) [] (replicate (length items) JUndef))
      as (h' & stack' & vs & fps' & E' & Hcell' & Hall' & Hnd' & Hfresh' & Hold'
          & Hlen' & Hst'); try done.
    + apply (lays_all_kept h); [|done]. intros x Hx. subst h0.
      apply lookup_app_l.
      assert (Forall3 (lays h) items ts fps) as Hall2 by done.
      clear -Hall2 Hx. induction Hall2 as [|i t f items ts fps Hi _ IHa];
        [by apply not_elem_of_nil in Hx|].
      simpl in Hx. apply elem_of_app in Hx as [Hx|Hx]; [by eapply lays_valid'|auto].
    + apply wf_arr in Hwf. destruct fuel as [|m]; [simpl in Hh; lia|].
      assert (height (VArr ts) ≤ S m)%nat as Hle by lia.
      apply height_arr_le in Hle.
      apply Forall_forall. intros x Hx.
      rewrite Forall_forall in Hwf, Hle. split; [auto|].
      specialize (Hle x Hx). simpl in Hle. lia.
    + intros x Hx. split.
      * assert (Forall3 (lays h) items ts fps) as Hall2 by done.
        clear -Hall2 Hx. induction Hall2 as [|i t f items ts fps Hi _ IHa];
          [by apply not_elem_of_nil in Hx|].
        simpl in Hx. apply elem_of_app in Hx as [Hx|Hx]; [by eapply lays_valid'|auto].
      * simpl. destruct (l =? x)%nat eqn:E.
        -- apply Nat.eqb_eq in E as ->. done.
        -- apply Hst. by right.
    + subst h0. simpl. rewrite lookup_app_r by lia. by rewrite Nat.sub_diag.
    + by rewrite length_replicate.
    + assert (imap (fun (i : nat) (x : jsval) => (inl (0 + i)%nat, x)) items
              = imap (fun (i : nat) (x : jsval) => (@inl nat string i, x)) items) as Ei.
      { by apply imap_ext. }
      rewrite Ei in E'. unfold clone_each in E'. fold h0.
      match goal with |- context [foldl ?f ?a ?es] =>
        change (foldl f a es) with
          (foldl (clone_each (baseClone fuel) (length h))
                 (Some (h0, (l, length h) :: stack))
                 (imap (fun (i : nat) (x : jsval) => (@inl nat string i, x)) items)) end.
      unfold clone_each. rewrite E'. simpl.
      rewrite drop_ge, app_nil_r in Hcell' by (by rewrite length_replicate).
      simpl in Hcell'.
      exists h', stack', (JRef (length h)), (length h :: concat fps').
      split; [done|]. split; [|split; [|split; [|split]]].
      * apply lays_arr with (items := vs); [done|done|].
        apply NoDup_cons. split; [|done].
        intros Hin. apply Hfresh' in Hin. lia.
      * intros x [->|Hx]%elem_of_cons; [done|]. apply Hfresh' in Hx. lia.
      * intros x Hx. rewrite Hold' by lia. subst h0. by apply lookup_app_l.
      * lia.
      * intros x Hx. apply not_elem_of_cons in Hx as [Hxl Hx].
        rewrite Hst' by done. simpl.
        destruct (l =? x)%nat eqn:E; [|done].
        apply Nat.eqb_eq in E. by subst.
  - simpl. rewrite (Hst l) by left. rewrite Hcell.
    apply NoDup_cons in Hnd as [Hlf Hnd].
    apply wf_obj in Hwf as [Hkeys Hwf].
    assert (keys props = keys ps) as Hk.
    { clear -Hall. unfold keys. induction Hall as [|? ? ? ? ? ? (? & _) _ IH];
        simpl; [done|]. by f_equal. }
    set (h0 := h ++ [CObj []]).
    assert (length h0 = S (length h)) as Hlen0.
    { subst h0. rewrite length_app. simpl. lia. }
    assert (∀ x, x ∈ vals kf → (x < length h)%nat) as Hvalid.
    { intros x Hx.
      eapply (lays_valid' h (JRef l) (VObj ps) (l :: vals kf)); [|by right].
      by apply lays_obj with (props := props); [| |apply NoDup_cons]. }
    destruct (clone_props fuel (baseClone fuel) IH (length h) props ps kf
                h0 ((l, length h) :: stack) [])
      as (h' & stack' & new & kf' & E' & Hcell' & Hall' & Hnd' & Hfresh' & Hold'
          & Hlen' & Hst'); try done.
    + apply (lays_props_kept h); [|done]. intros x Hx. subst h0.
      apply lookup_app_l. auto.
    + destruct fuel as [|m]; [simpl in Hh; lia|].
      assert (height (VObj ps) ≤ S m)%nat as Hle by lia.
      apply height_obj_le in Hle. unfold vals_le in Hle.
      apply Forall_forall. intros x Hx.
      rewrite Forall_forall in Hwf, Hle. split; [auto|].
      specialize (Hle x Hx). simpl in Hle. lia.
    + intros x Hx. split; [auto|]. simpl. destruct (l =? x)%nat eqn:E.
      * apply Nat.eqb_eq in E as ->. done.
      * apply Hst. by right.
    + subst h0. rewrite lookup_app_r by lia. by rewrite Nat.sub_diag.
    + by rewrite Hk.
    + intros k _. apply not_elem_of_nil.
    + fold h0.
      match goal with |- context [foldl ?f ?a ?es] =>
        change (foldl f a es) with
          (foldl (clone_each (baseClone fuel) (length h))
                 (Some (h0, (l, length h) :: stack))
                 (prod_map inr id <$> props)) end.
      rewrite E'. simpl. simpl in Hcell'.
      exists h', stack', (JRef (length h)), (length h :: vals kf').
      split; [done|]. split; [|split; [|split; [|split]]].
      * apply lays_obj with (props := new); [done|done|].
        apply NoDup_cons. split; [|done].
        intros Hin. apply Hfresh' in Hin. lia.
      * intros x [->|Hx]%elem_of_cons; [done|]. apply Hfresh' in Hx. lia.
      * intros x Hx. rewrite Hold' by lia. subst h0. by apply lookup_app_l.
      * lia.
      * intros x Hx. apply not_elem_of_cons in Hx as [Hxl Hx].
        rewrite Hst' by done. simpl.
        destruct (l =? x)%nat eqn:E; [|done].
        apply Nat.eqb_eq in E. by subst.
Qed.

(** A snapshot of a laid-out value reads that value. *)
Lemma lays_read (n : nat) :
  ∀ h v t fp, lays h v t fp → (height t < n)%nat → Heap.read n h v = Some t.
Proof.
  induction n as [|n IH]; intros h v t fp Hl Hn; [lia|].
  destruct Hl as [| | | | |l items ts fps Hcell Hall Hnd|l props ps kf Hcell Hall Hnd];
    try done.
  - simpl. rewrite Hcell.
    assert (mapM (Heap.read n h) items = Some ts) as ->; [|done].
    apply mapM_Some.
    assert (Forall (fun t => (height t < n)%nat) ts) as Hh.
    { destruct n as [|m]; [simpl in Hn; lia|].
      assert (height (VArr ts) ≤ S m)%nat as Hle by lia.
      apply height_arr_le in Hle.
      eapply Forall_impl; [exact Hle|]. intros x Hx. simpl in Hx. lia. }
    clear -Hall Hh IH. induction Hall as [|i t f items ts fps Hi _ IHa]; [constructor|].
    apply Forall_cons in Hh as [Hht Hh]. constructor; eauto.
  - simpl. rewrite Hcell.
    assert (mapM (fun kv => pair (fst kv) <$> Heap.read n h (snd kv)) props = Some ps)
      as ->; [|done].
    apply mapM_Some.
    assert (vals_le (pred n) ps) as Hh.
    { apply height_obj_le. simpl in *. lia. }
    assert (n ≠ 0)%nat as Hn0 by (simpl in Hn; lia).
    clear -Hall Hh IH Hn0.
    induction Hall as [|[k1 i] [k2 t] [k3 f] props ps kf (E1 & E2 & Hi) _ IHa];
      [constructor|].
    apply Forall_cons in Hh as [Hht Hh]. simpl in *. subst k1 k3.
    constructor; [|auto]. simpl.
    rewrite (IH h i t f Hi) by lia. done.
Qed.

Section Public.

Variable newKeyOf : string → string.

(** The public function on the store does what it does on the value the
    store holds: for a well-formed value laid out as a tree the call
    returns once the fuel exceeds the height of the value, and what it
    returns is the result of the function on values, laid out in new
    cells. *)
Theorem store_transform_agrees (fuel : nat) (h : list cell) (v : jsval) (t : value)
    (fp : list nat) (depth : Z) :
  lays h v t fp → wf t = true → (height t < fuel)%nat →
  ∃ h' r fp',
    Heap.transform newKeyOf fuel h v depth = Some (h', r)
    ∧ lays h' r (HttpHepler.rename newKeyOf (HttpHepler.cloneDeep t) depth) fp'
    ∧ (∀ l, l ∈ fp' → (length h ≤ l)%nat)
    ∧ Heap.read fuel h' r = Some (HttpHepler.rename newKeyOf (HttpHepler.cloneDeep t) depth).
Proof.
  intros Hl Hwf Hh. unfold Heap.transform, Heap.cloneDeep, HttpHepler.cloneDeep.
  destruct (baseClone_clones fuel h [] v t fp Hl Hwf Hh)
    as (h1 & stack1 & temp & fp1 & -> & Hl1 & Hfresh1 & Hold1 & Hlen1 & _); [done|].
  simpl.
  destruct (_rename_total newKeyOf fuel t depth Hh) as (r & t' & Et & Hht & Hr).
  destruct (store_rename_agrees newKeyOf fuel h1 temp t fp1 depth r t' Hl1 Et)
    as (h' & fp' & -> & Hl' & Hsub & Hk).
  rewrite (rename_eq _ _ _ _ _ _ Et). subst r.
  destruct (depth - 1 <? 0).
  - exists h', JUndef, []. split; [done|]. split; [constructor|].
    split; [intros l Hin; by apply not_elem_of_nil in Hin|].
    destruct fuel; [lia|done].
  - exists h', temp, fp'. split; [done|]. split; [done|]. split.
    + intros l Hin. apply Hfresh1. exact (elem_of_submseteq _ _ _ Hin Hsub).
    + apply (lays_read fuel h' temp t' fp' Hl'). lia.
Qed.

End Public.

(** [snakeToHump] and [humpToSnake] on the store and on values. *)
Corollary store_agrees (fuel : nat) (h : list cell) (v : jsval) (t : value)
    (fp : list nat) (depth : Z) :
  lays h v t fp → wf t = true → (height t < fuel)%nat →
  (∃ h' r, Heap.snakeToHump fuel h v depth = Some (h', r)
           ∧ Heap.read fuel h' r = Some (HttpHepler.snakeToHump t depth))
  ∧ (∃ h' r, Heap.humpToSnake fuel h v depth = Some (h', r)
             ∧ Heap.read fuel h' r = Some (HttpHepler.humpToSnake t depth)).
Proof.
  intros Hl Hwf Hh. split.
  - destruct (store_transform_agrees Lodash.camelCase fuel h v t fp depth Hl Hwf Hh)
      as (h' & r & fp' & E & _ & _ & Hr). by exists h', r.
  - destruct (store_transform_agrees Lodash.snakeCase fuel h v t fp depth Hl Hwf Hh)
      as (h' & r & fp' & E & _ & _ & Hr). by exists h', r.
Qed.

End StoreAgrees.

(** ** Round trips *)

Lemma round_trip (there back : string → string) (x : value) (depth : Z) :
  0 < depth → round_trip_ready there back x →
  deep_equal (rename back (rename there x depth) depth) x.
Proof.
  intros Hd Hready.
  destruct (round_trip_fuel there back (S (height x)) x depth) as (y & z & Hy & Hz & Hde);
    [lia|done|].
  destruct (_rename there (S (height x)) x depth) as [[r1 y1]|] eqn:E1; [|done].
  destruct (_rename back (S (height x)) y depth) as [[r2 z2]|] eqn:E2; [|done].
  simpl in Hy, Hz. injection Hy as ->. injection Hz as ->.
  pose proof (_rename_result _ _ _ _ _ _ E1) as R1.
  pose proof (_rename_result _ _ _ _ _ _ E2) as R2.
  destruct (depth - 1 <? 0) eqn:Hlt; [lia|]. subst r1 r2.
  rewrite (rename_eq _ _ _ _ _ _ E1), (rename_eq _ _ _ _ _ _ E2). done.
Qed.



Lemma deep_equal_singleton_key (k1 k2 : string) (v1 v2 : value) :
  deep_equal (VObj [(k1, v1)]) (VObj [(k2, v2)]) → k1 = k2.
Proof.
  inversion 1 as [| | | | | |o1 o2 o1' o2' Hp1 Hp2 Hall]; subst.
  apply Permutation_singleton_l in Hp1 as <-.
  apply Permutation_singleton_l in Hp2 as <-.
  apply Forall2_cons_1 in Hall as [[Hk _] _]. done.
Qed.


(** ** The key functions on keys in plain camelCase and snake_case *)

Section Characters.

Import Lodash.

Lemma lower_facts (c : ascii) :
  is_lower c = true →
  is_upper c = false ∧ is_digit c = false ∧ is_alnum c = true ∧ is_apos c = false
  ∧ is_space c = false ∧ toLower c = c.
Proof.
  destruct c as [b0 b1 b2 b3 b4 b5 b6 b7].
  destruct b0, b1, b2, b3, b4, b5, b6, b7; vm_compute; intros H;
    first [discriminate H | repeat split].
Qed.

Lemma upper_facts (c : ascii) :
  is_upper c = true →
  is_lower c = false ∧ is_alnum c = true ∧ is_apos c = false ∧ is_space c = false
  ∧ toUpper (toLower (toLower c)) = c.
Proof.
  destruct c as [b0 b1 b2 b3 b4 b5 b6 b7].
  destruct b0, b1, b2, b3, b4, b5, b6, b7; vm_compute; intros H;
    first [discriminate H | repeat split].
Qed.

Lemma underscore_eq (c : ascii) : is_underscore c = true → c = "_"%char.
Proof.
  destruct c as [b0 b1 b2 b3 b4 b5 b6 b7].
  destruct b0, b1, b2, b3, b4, b5, b6, b7; vm_compute; intros H;
    first [discriminate H | reflexivity].
Qed.

End Characters.

Section Words.

Import Lodash.

Implicit Types (s ls rest h : list ascii) (hs : list (list ascii)).

#[local] Arguments is_lower : simpl never.
#[local] Arguments is_upper : simpl never.
#[local] Arguments is_alnum : simpl never.
#[local] Arguments is_apos : simpl never.
#[local] Arguments is_break : simpl never.
#[local] Arguments is_underscore : simpl never.
#[local] Arguments toLower : simpl never.
#[local] Arguments toUpper : simpl never.

(** A key of the form [plain sep] is a lower-case word followed by
    segments. *)
Lemma plain_tail_parse (sep : ascii → bool) s :
  (plain_tail sep false s = true →
   ∃ ls hs, s = ls ++ concat hs ∧ forallb is_lower ls = true
            ∧ forallb (segment sep) hs = true)
  ∧ (plain_tail sep true s = true →
     ∃ c ls hs, s = c :: ls ++ concat hs ∧ is_lower c = true
                ∧ forallb is_lower ls = true ∧ forallb (segment sep) hs = true).
Proof.
  induction s as [|c r [IH1 IH2]]; simpl.
  - split; [|done]. intros _. by exists [], [].
  - destruct (is_lower c) eqn:Hc.
    + split; intros (ls & hs & -> & Hls & Hhs)%IH1.
      * exists (c :: ls), hs. cbn [forallb]. by rewrite Hc, Hls.
      * by exists c, ls, hs.
    + destruct (sep c) eqn:Hs; [|done]. split; [|done]. simpl.
      intros (c' & ls & hs & -> & Hc' & Hls & Hhs)%IH2.
      exists [], ((c :: c' :: ls) :: hs). simpl.
      by rewrite Hs, Hc', Hls.
Qed.

Lemma plain_parse (sep : ascii → bool) (k : string) :
  plain sep k = true →
  ∃ c ls hs, list_ascii_of_string k = (c :: ls) ++ concat hs
             ∧ forallb is_lower (c :: ls) = true ∧ forallb (segment sep) hs = true.
Proof.
  unfold plain. destruct (list_ascii_of_string k) as [|c r]; [done|].
  intros [Hc (ls & hs & -> & Hls & Hhs)%plain_tail_parse]%andb_prop.
  exists c, ls, hs. simpl. by rewrite Hc.
Qed.

Lemma span_lower_app ls rest :
  forallb is_lower ls = true → next_is is_lower rest = false →
  span is_lower (ls ++ rest) = (ls, rest).
Proof.
  intros Hls Hrest. induction ls as [|c ls IH].
  - destruct rest as [|c r]; [done|]. cbn [next_is] in Hrest.
    cbn [app span]. by rewrite Hrest.
  - cbn [forallb] in Hls. apply andb_prop in Hls as [Hc Hls].
    cbn [app span]. by rewrite Hc, IH.
Qed.

Lemma boundary_not_lower rest : boundary rest = true → next_is is_lower rest = false.
Proof.
  destruct rest as [|c r]; [done|]. simpl.
  by intros [->%negb_true_iff _]%andb_prop.
Qed.

Lemma boundary_ends rest :
  boundary rest = true →
  at_end rest || next_is is_break rest || next_is is_upper rest = true.
Proof.
  destruct rest as [|c r]; [done|]. simpl.
  intros [_ [->| ->]%orb_prop]%andb_prop; [apply orb_true_r|done].
Qed.

(** A lower-case word, with or without a capital in front, is matched by
    the first alternative when a boundary follows. *)
Lemma match_word_lower c ls rest :
  forallb is_lower (c :: ls) = true → boundary rest = true →
  match_word ((c :: ls) ++ rest) = length (c :: ls).
Proof.
  intros Hls Hb. unfold match_word, first_match. cbn [foldr].
  assert (alt_word_then_boundary ((c :: ls) ++ rest) = length (c :: ls)) as ->; [|done].
  unfold alt_word_then_boundary.
  pose proof Hls as Hls'. cbn [forallb] in Hls'.
  apply andb_prop in Hls' as [Hc _].
  destruct (lower_facts c Hc) as (Hu & _). cbn [app]. rewrite Hu.
  change (c :: ls ++ rest) with ((c :: ls) ++ rest).
  rewrite span_lower_app by (done || by apply boundary_not_lower).
  by rewrite boundary_ends.
Qed.

Lemma match_word_hump u c ls rest :
  is_upper u = true → forallb is_lower (c :: ls) = true → boundary rest = true →
  match_word (u :: (c :: ls) ++ rest) = S (length (c :: ls)).
Proof.
  intros Hu Hls Hb. unfold match_word, first_match. cbn [foldr].
  assert (alt_word_then_boundary (u :: (c :: ls) ++ rest) = S (length (c :: ls))) as ->;
    [|done].
  unfold alt_word_then_boundary. rewrite Hu.
  rewrite span_lower_app by (done || by apply boundary_not_lower).
  by rewrite boundary_ends.
Qed.

Lemma match_word_underscore rest : match_word ("_"%char :: rest) = 0%nat.
Proof. reflexivity. Qed.

Lemma scan_step (fuel : nat) (w : list ascii) rest :
  w ≠ [] → match_word (w ++ rest) = length w →
  scan (S fuel) (w ++ rest) = w :: scan fuel rest.
Proof.
  intros Hw Hm. destruct w as [|c w]; [done|].
  cbn [scan app]. change (c :: w ++ rest) with ((c :: w) ++ rest).
  rewrite Hm. cbn [length Nat.eqb].
  change (S (length w)) with (length (c :: w)).
  by rewrite take_app_length, drop_app_length.
Qed.

Lemma scan_nil (fuel : nat) : scan fuel [] = [].
Proof. by destruct fuel. Qed.

Lemma boundary_segments (sep : ascii → bool) hs :
  (∀ c, sep c = true → negb (is_lower c) && (is_upper c || is_break c) = true) →
  forallb (segment sep) hs = true → boundary (concat hs) = true.
Proof.
  intros Hsep. destruct hs as [|[|c [|c' ls]] hs]; try done. simpl.
  intros [[[Hc _]%andb_prop _]%andb_prop _]%andb_prop. by apply Hsep.
Qed.

Lemma upper_boundary c : is_upper c = true →
  negb (is_lower c) && (is_upper c || is_break c) = true.
Proof. intros Hc. destruct (upper_facts c Hc) as (-> & _). by rewrite Hc. Qed.

Lemma underscore_boundary c : is_underscore c = true →
  negb (is_lower c) && (is_upper c || is_break c) = true.
Proof. by intros ->%underscore_eq. Qed.

(** The words of the humps of a camelCase key are the humps. *)
Lemma scan_humps hs :
  ∀ fuel, forallb (segment is_upper) hs = true → (length hs ≤ fuel)%nat →
    scan fuel (concat hs) = hs.
Proof.
  induction hs as [|h hs IH]; intros fuel Hhs Hfuel; [apply scan_nil|].
  cbn [forallb] in Hhs. apply andb_prop in Hhs as [Hh Hhs].
  destruct fuel as [|fuel]; [simpl in Hfuel; lia|].
  destruct h as [|u [|c ls]]; try done. simpl in Hh.
  apply andb_prop in Hh as [[Hu Hc]%andb_prop Hls].
  cbn [concat]. rewrite scan_step; [|done|].
  - rewrite IH; [done|done|simpl in Hfuel; lia].
  - cbn [app]. change (c :: ls ++ concat hs) with ((c :: ls) ++ concat hs).
    rewrite match_word_hump; [done|done| |].
    + simpl. by rewrite Hc.
    + eapply boundary_segments; [|done]. apply upper_boundary.
Qed.

(** The words of the segments of a snake_case key are the segments
    without their underscores. *)
Lemma scan_segments hs :
  ∀ fuel, forallb (segment is_underscore) hs = true → (2 * length hs ≤ fuel)%nat →
    scan fuel (concat hs) = tail <$> hs.
Proof.
  induction hs as [|h hs IH]; intros fuel Hhs Hfuel; [apply scan_nil|].
  cbn [forallb] in Hhs. apply andb_prop in Hhs as [Hh Hhs].
  destruct fuel as [|[|fuel]]; [simpl in Hfuel; lia..|].
  destruct h as [|u [|c ls]]; try done. simpl in Hh.
  apply andb_prop in Hh as [[->%underscore_eq Hc]%andb_prop Hls].
  cbn [concat app fmap list_fmap tail].
  change (scan (S (S fuel)) ("_"%char :: c :: ls ++ concat hs))
    with (scan (S fuel) ((c :: ls) ++ concat hs)).
  rewrite scan_step; [|done|].
  - rewrite IH; [done|done|simpl in Hfuel; lia].
  - apply match_word_lower; [simpl; by rewrite Hc|].
    eapply boundary_segments; [|done]. apply underscore_boundary.
Qed.

Lemma length_concat_segments (sep : ascii → bool) hs :
  forallb (segment sep) hs = true → (2 * length hs ≤ length (concat hs))%nat.
Proof.
  induction hs as [|h hs IH]; [done|]. cbn [forallb]. intros [Hh Hhs]%andb_prop.
  specialize (IH Hhs). destruct h as [|u [|c ls]]; try done.
  cbn [concat]. rewrite length_app. simpl in *. lia.
Qed.

(** [hasUnicodeWord] on the keys of the two forms. *)
Lemma hasUnicodeWord_lower ls : forallb is_lower ls = true → hasUnicodeWord ls = false.
Proof.
  induction ls as [|a r IH]; [done|]. cbn [forallb]. intros [Ha Hr]%andb_prop.
  cbn [hasUnicodeWord]. rewrite (IH Hr), orb_false_r.
  destruct (lower_facts a Ha) as (Hu & Hd & Hal & _). rewrite Hal. cbn [orb negb].
  destruct r as [|b r']; [done|]. cbn [forallb] in Hr. apply andb_prop in Hr as [Hb _].
  destruct (lower_facts b Hb) as (Hub & Hdb & _).
  unfold is_letter. by rewrite Hu, Hd, Hub, Hdb, Ha, !andb_false_r.
Qed.

Lemma hasUnicodeWord_pair l a b r :
  is_lower a && is_upper b = true → hasUnicodeWord (l ++ a :: b :: r) = true.
Proof.
  intros Hab. induction l as [|x l IH].
  - cbn [app hasUnicodeWord]. rewrite Hab. by rewrite !orb_true_r.
  - cbn [app hasUnicodeWord]. change (l ++ a :: b :: r) with (l ++ a :: b :: r).
    rewrite IH. apply orb_true_r.
Qed.

Lemma hasUnicodeWord_break l c r :
  is_alnum c || is_space c = false → hasUnicodeWord (l ++ c :: r) = true.
Proof.
  intros Hc. induction l as [|x l IH].
  - cbn [app hasUnicodeWord]. by rewrite Hc.
  - cbn [app hasUnicodeWord]. rewrite IH. apply orb_true_r.
Qed.

Lemma runs_alnum s : ∀ cur,
  forallb is_alnum s = true → cur ++ s ≠ [] → runs is_alnum s cur = [rev cur ++ s].
Proof.
  induction s as [|c s IH]; intros cur Hs Hne.
  - cbn [runs]. rewrite app_nil_r in *. by destruct cur.
  - cbn [forallb] in Hs. apply andb_prop in Hs as [Hc Hs]. cbn [runs]. rewrite Hc.
    rewrite IH by done. simpl. by rewrite <- app_assoc.
Qed.

Lemma filter_no_apostrophe s :
  forallb (fun c => negb (is_apos c)) s = true →
  List.filter (fun c => negb (is_apos c)) s = s.
Proof.
  induction s as [|c s IH]; [done|]. cbn [forallb List.filter].
  intros [-> Hs]%andb_prop. by rewrite IH.
Qed.

Lemma lower_no_apostrophe ls :
  forallb is_lower ls = true → forallb (fun c => negb (is_apos c)) ls = true.
Proof.
  induction ls as [|c ls IH]; [done|]. cbn [forallb]. intros [Hc Hls]%andb_prop.
  destruct (lower_facts c Hc) as (_ & _ & _ & -> & _). by rewrite IH.
Qed.

Lemma segments_no_apostrophe (sep : ascii → bool) hs :
  (∀ c, sep c = true → is_apos c = false) →
  forallb (segment sep) hs = true →
  forallb (fun c => negb (is_apos c)) (concat hs) = true.
Proof.
  intros Hsep. induction hs as [|h hs IH]; [done|]. cbn [forallb concat].
  intros [Hh Hhs]%andb_prop. rewrite forallb_app, (IH Hhs), andb_true_r.
  destruct h as [|u [|c ls]]; try done. simpl in Hh.
  apply andb_prop in Hh as [[Hu Hc]%andb_prop Hls].
  cbn [forallb]. rewrite (Hsep u Hu).
  destruct (lower_facts c Hc) as (_ & _ & _ & -> & _).
  by rewrite lower_no_apostrophe.
Qed.

Lemma toLowerCase_lower ls : forallb is_lower ls = true → toLowerCase ls = ls.
Proof.
  induction ls as [|c ls IH]; [done|]. cbn [forallb]. intros [Hc Hls]%andb_prop.
  unfold toLowerCase in *. simpl.
  destruct (lower_facts c Hc) as (_ & _ & _ & _ & _ & ->). by rewrite IH.
Qed.

Lemma lower_alnum ls : forallb is_lower ls = true → forallb is_alnum ls = true.
Proof.
  induction ls as [|c ls IH]; [done|]. cbn [forallb]. intros [Hc Hls]%andb_prop.
  destruct (lower_facts c Hc) as (_ & _ & -> & _). by rewrite IH.
Qed.

(** The words of a key in plain camelCase: its first word and its
    humps. *)
Lemma words_plain_camelCase (k : string) c ls hs :
  list_ascii_of_string k = (c :: ls) ++ concat hs →
  forallb is_lower (c :: ls) = true → forallb (segment is_upper) hs = true →
  words k = (c :: ls) :: hs.
Proof.
  intros Hk Hls Hhs. unfold words. rewrite Hk.
  rewrite filter_no_apostrophe.
  2:{ rewrite forallb_app, lower_no_apostrophe by done.
      apply (segments_no_apostrophe is_upper); [|done].
      intros u Hu. by destruct (upper_facts u Hu) as (_ & _ & -> & _). }
  destruct hs as [|h hs].
  - cbn [concat]. rewrite app_nil_r, hasUnicodeWord_lower by done.
    unfold asciiWords. rewrite runs_alnum; [done|by apply lower_alnum|done].
  - assert (hasUnicodeWord ((c :: ls) ++ concat (h :: hs)) = true) as ->.
    { destruct h as [|u [|c' ls']]; try done. pose proof Hhs as Hh. simpl in Hh.
      apply andb_prop in Hh as [[[Hu _]%andb_prop _]%andb_prop _].
      destruct (exists_last (l := c :: ls)) as (l0 & a & Hl0); [done|].
      rewrite Hl0 in Hls |- *. rewrite forallb_app in Hls.
      apply andb_prop in Hls as [_ Ha]. simpl in Ha. rewrite andb_true_r in Ha.
      cbn [concat]. rewrite <- !app_assoc. cbn [app].
      apply hasUnicodeWord_pair. by rewrite Ha, Hu. }
    unfold unicodeWords.
    destruct (length ((c :: ls) ++ concat (h :: hs))) as [|fuel] eqn:Hlen; [done|].
    rewrite scan_step; [|done|].
    + rewrite scan_humps; [done|done|].
      pose proof (length_concat_segments is_upper (h :: hs) Hhs) as Hle.
      rewrite length_app in Hlen. simpl in *. lia.
    + apply match_word_lower; [done|].
      eapply boundary_segments; [|done]. apply upper_boundary.
Qed.

(** The words of a key in plain snake_case: the words between its
    underscores. *)
Lemma words_plain_snake_case (k : string) c ls hs :
  list_ascii_of_string k = (c :: ls) ++ concat hs →
  forallb is_lower (c :: ls) = true → forallb (segment is_underscore) hs = true →
  words k = (c :: ls) :: (tail <$> hs).
Proof.
  intros Hk Hls Hhs. unfold words. rewrite Hk.
  rewrite filter_no_apostrophe.
  2:{ rewrite forallb_app, lower_no_apostrophe by done.
      apply (segments_no_apostrophe is_underscore); [|done].
      by intros u ->%underscore_eq. }
  destruct hs as [|h hs].
  - cbn [concat]. rewrite app_nil_r, hasUnicodeWord_lower by done.
    unfold asciiWords. rewrite runs_alnum; [done|by apply lower_alnum|done].
  - assert (hasUnicodeWord ((c :: ls) ++ concat (h :: hs)) = true) as ->.
    { destruct h as [|u r]; [done|]. pose proof Hhs as Hh. simpl in Hh.
      destruct r as [|c' ls']; [done|].
      apply andb_prop in Hh as [[[->%underscore_eq _]%andb_prop _]%andb_prop _].
      exact (hasUnicodeWord_break (c :: ls) "_"%char ((c' :: ls') ++ concat hs) eq_refl). }
    unfold unicodeWords.
    destruct (length ((c :: ls) ++ concat (h :: hs))) as [|fuel] eqn:Hlen; [done|].
    rewrite scan_step; [|done|].
    + rewrite scan_segments; [done|done|].
      pose proof (length_concat_segments is_underscore (h :: hs) Hhs) as Hle.
      rewrite length_app in Hlen. simpl in *. lia.
    + apply match_word_lower; [done|].
      eapply boundary_segments; [|done]. apply underscore_boundary.
Qed.

Lemma camelCase_fold hs : ∀ (index : nat) (result : list ascii),
  forallb (segment is_upper) hs = true → index ≠ 0%nat →
  snd (fold_left
         (fun '(index, result) word =>
            let word := toLowerCase word in
            (S index,
             (result ++ (if (index =? 0)%nat then word else capitalize word))%list))
         hs (index, result))
  = result ++ concat hs.
Proof.
  induction hs as [|h hs IH]; intros index result Hhs Hi.
  - simpl. by rewrite app_nil_r.
  - cbn [forallb] in Hhs. apply andb_prop in Hhs as [Hh Hhs].
    cbn [fold_left]. rewrite IH by done.
    apply Nat.eqb_neq in Hi as ->. cbn [concat]. rewrite <- app_assoc. do 2 f_equal.
    destruct h as [|u [|c ls]]; try done. simpl in Hh.
    apply andb_prop in Hh as [[Hu Hc]%andb_prop Hls].
    unfold capitalize, upperFirst, toLowerCase. cbn [map].
    destruct (upper_facts u Hu) as (_ & _ & _ & _ & ->).
    destruct (lower_facts c Hc) as (_ & _ & _ & _ & _ & Hcc). rewrite !Hcc.
    pose proof (toLowerCase_lower ls Hls) as Hl. unfold toLowerCase in Hl.
    by rewrite !Hl.
Qed.

Lemma snakeCase_fold hs : ∀ (index : nat) (result : list ascii),
  forallb (segment is_underscore) hs = true → index ≠ 0%nat →
  snd (fold_left
         (fun '(index, result) word =>
            (S index,
             (result ++ (if (index =? 0)%nat then [] else ["_"%char])
                     ++ toLowerCase word)%list))
         (tail <$> hs) (index, result))
  = result ++ concat hs.
Proof.
  induction hs as [|h hs IH]; intros index result Hhs Hi.
  - simpl. by rewrite app_nil_r.
  - cbn [forallb] in Hhs. apply andb_prop in Hhs as [Hh Hhs].
    cbn [fmap list_fmap fold_left]. rewrite IH by done.
    apply Nat.eqb_neq in Hi as ->. cbn [concat]. rewrite <- app_assoc. do 2 f_equal.
    destruct h as [|u [|c ls]]; try done. simpl in Hh.
    apply andb_prop in Hh as [[->%underscore_eq Hc]%andb_prop Hls].
    cbn [tail app]. f_equal. apply toLowerCase_lower. simpl. by rewrite Hc.
Qed.

(** [_.camelCase] leaves a key in plain camelCase as it is. *)
Lemma camelCase_plain (k : string) :
  plain_camelCase k = true → camelCase k = k.
Proof.
  intros (c & ls & hs & Hk & Hls & Hhs)%plain_parse. unfold camelCase.
  rewrite (words_plain_camelCase k c ls hs Hk Hls Hhs). cbn [fold_left Nat.eqb].
  rewrite camelCase_fold by done. cbn [app].
  rewrite (toLowerCase_lower (c :: ls) Hls), <- Hk.
  apply string_of_list_ascii_of_string.
Qed.

(** [_.snakeCase] leaves a key in plain snake_case as it is. *)
Lemma snakeCase_plain (k : string) :
  plain_snake_case k = true → snakeCase k = k.
Proof.
  intros (c & ls & hs & Hk & Hls & Hhs)%plain_parse. unfold snakeCase.
  rewrite (words_plain_snake_case k c ls hs Hk Hls Hhs). cbn [fold_left Nat.eqb].
  rewrite snakeCase_fold by done. cbn [app].
  rewrite (toLowerCase_lower (c :: ls) Hls), <- Hk.
  apply string_of_list_ascii_of_string.
Qed.

End Words.

Lemma all_keys_impl (p q : string → bool) (v : value) :
  (∀ k, p k = true → q k = true) → all_keys p v = true → all_keys q v = true.
Proof.
  intros Hpq.
  induction v as [| | | | |items IH|props IH] using value_nested_ind; try done.
  - simpl. rewrite !forallb_forall. intros Hall x Hx.
    rewrite Forall_forall in IH. apply IH; [by apply list_elem_of_In|by apply Hall].
  - simpl. rewrite !forallb_forall. intros Hall kv Hkv.
    rewrite Forall_forall in IH.
    destruct (andb_prop _ _ (Hall kv Hkv)) as [Hk Hv].
    rewrite (Hpq _ Hk). apply IH; [by apply list_elem_of_In|done].
Qed.

(** The plain forms are among the keys written in the convention. *)
Lemma plain_is_shaped (k : string) :
  (plain_camelCase k = true → camelCase_shaped k = true)
  ∧ (plain_snake_case k = true → snake_case_shaped k = true).
Proof.
  unfold plain_camelCase, plain_snake_case, plain, camelCase_shaped, snake_case_shaped.
  destruct (list_ascii_of_string k) as [|c r]; [done|].
  split; intros [-> Hr]%andb_prop; cbn [andb].
  - revert Hr. generalize false. induction r as [|a r IH]; intros b; [done|].
    cbn [plain_tail forallb]. destruct (Lodash.is_lower a) eqn:Ha.
    + destruct (lower_facts a Ha) as (_ & _ & -> & _). apply IH.
    + destruct (Lodash.is_upper a) eqn:Hu; [|done].
      destruct (upper_facts a Hu) as (_ & -> & _).
      intros [_ Hr]%andb_prop. by apply IH in Hr.
  - revert Hr. generalize false. induction r as [|a r IH]; intros b; [done|].
    cbn [plain_tail snake_tail]. destruct (Lodash.is_lower a) eqn:Ha.
    + cbn [orb]. apply IH.
    + destruct (is_underscore a) eqn:Hu; [|done].
      apply underscore_eq in Hu as ->.
      change (Lodash.is_digit "_"%char) with false. cbn [orb].
      change (is_underscore "_"%char) with true. cbv iota.
      intros [-> Hr]%andb_prop. by apply IH in Hr.
Qed.

(** C8, as amended.  On a value whose keys are all in plain camelCase (a
    lower-case word followed by humps of one capital and at least one
    lower-case letter) [snakeToHump] changes nothing, and on a value whose
    keys are all in plain snake_case (lower-case words joined by single
    underscores) [humpToSnake] changes nothing: the result is the input,
    for every positive depth, the default one included. *)
Theorem transformer_noop_on_plain_keys (x : value) (depth : Z) :
  0 < depth →
  (all_keys plain_camelCase x = true →
     snakeToHump x depth = x ∧ deep_equal (snakeToHump x depth) x)
  ∧ (all_keys plain_snake_case x = true →
     humpToSnake x depth = x ∧ deep_equal (humpToSnake x depth) x).
Proof.
  intros Hd. unfold snakeToHump, humpToSnake, cloneDeep.
  split; intros Hplain; rewrite rename_fixed;
    try done; try (split; [done | apply deep_equal_refl]).
  - apply (all_keys_impl plain_camelCase); [|done].
    intros k Hk. unfold key_in_convention. rewrite camelCase_plain by done.
    apply String.eqb_refl.
  - apply (all_keys_impl plain_snake_case); [|done].
    intros k Hk. unfold key_in_convention. rewrite snakeCase_plain by done.
    apply String.eqb_refl.
Qed.

Lemma transformer_noop_on_plain_keys_witness :
  snakeToHump camel_nested default_depth = camel_nested
  ∧ humpToSnake snake_nested default_depth = snake_nested.
Proof.
  split.
  - apply (transformer_noop_on_plain_keys camel_nested default_depth);
      [reflexivity | vm_compute; reflexivity].
  - apply (transformer_noop_on_plain_keys snake_nested default_depth);
      [reflexivity | vm_compute; reflexivity].
Defined.

(** C8, as stated, fails: [userID] is written in camelCase and
    [snakeToHump] turns it into [userId]; [field1] is written in
    snake_case and [humpToSnake] turns it into [field_1]; and the rewrite
    is not idempotent, since [snakeToHump] gives [{aBC: 1}] for
    [{a_b_c: 1}] and [{aBc: 1}] for [{aBC: 1}]. *)
Lemma noop_in_target_convention_counterexample :
  (all_keys camelCase_shaped (VObj [("userID", VNum 1)]) = true
   ∧ snakeToHump (VObj [("userID", VNum 1)]) default_depth = VObj [("userId", VNum 1)]
   ∧ ¬ deep_equal (snakeToHump (VObj [("userID", VNum 1)]) default_depth)
                  (VObj [("userID", VNum 1)]))
  ∧ (all_keys snake_case_shaped (VObj [("field1", VNum 1)]) = true
     ∧ humpToSnake (VObj [("field1", VNum 1)]) default_depth = VObj [("field_1", VNum 1)]
     ∧ ¬ deep_equal (humpToSnake (VObj [("field1", VNum 1)]) default_depth)
                    (VObj [("field1", VNum 1)]))
  ∧ (snakeToHump (VObj [("a_b_c", VNum 1)]) default_depth = VObj [("aBC", VNum 1)]
     ∧ snakeToHump (VObj [("aBC", VNum 1)]) default_depth = VObj [("aBc", VNum 1)]
     ∧ ¬ deep_equal (snakeToHump (VObj [("aBC", VNum 1)]) default_depth)
                    (VObj [("aBC", VNum 1)])).
Proof.
  assert (snakeToHump (VObj [("userID", VNum 1)]) default_depth
          = VObj [("userId", VNum 1)]) as E1 by (vm_compute; reflexivity).
  assert (humpToSnake (VObj [("field1", VNum 1)]) default_depth
          = VObj [("field_1", VNum 1)]) as E2 by (vm_compute; reflexivity).
  assert (snakeToHump (VObj [("aBC", VNum 1)]) default_depth
          = VObj [("aBc", VNum 1)]) as E3 by (vm_compute; reflexivity).
  split; [|split]; (split; [vm_compute; reflexivity|]); (split; [done|]).
  - rewrite E1. by intros Hde%deep_equal_singleton_key.
  - rewrite E2. by intros Hde%deep_equal_singleton_key.
  - rewrite E3. by intros Hde%deep_equal_singleton_key.
Qed.

(** ** The depth budget *)

(** C4.  The elements of an array are visited with the default budget of
    10, whatever is left of the caller's: with budget 1 the key inside
    [[{a_b: 1}]] is renamed although it lies at level 2, and a key under
    twelve arrays is renamed under the default budget.  Through objects
    the budget is kept: with budget 1 the key inside [{level: {a_b: 1}}]
    stays as it is. *)
Theorem array_elements_get_a_new_budget :
  snakeToHump (VArr [VObj [("a_b", VNum 1)]]) 1 = VArr [VObj [("aB", VNum 1)]]
  ∧ humpToSnake (VArr [VObj [("aB", VNum 1)]]) 1 = VArr [VObj [("a_b", VNum 1)]]
  ∧ snakeToHump (nest_arr 12 (VObj [("a_b", VNum 1)])) default_depth
    = nest_arr 12 (VObj [("aB", VNum 1)])
  ∧ snakeToHump (nest_obj 1 (VObj [("a_b", VNum 1)])) 1
    = nest_obj 1 (VObj [("a_b", VNum 1)]).
Proof. repeat split; vm_compute; reflexivity. Qed.

(** C5.  Whenever [snakeToHump] or [humpToSnake] returns, every array and
    object that existed before the call holds exactly what it held (the
    calls write to the cells of the copy only), so that a snapshot of the
    input taken before the call is read off the input again after it. *)
Theorem transformers_leave_the_input_unchanged
    (fuel : nat) (h : list Heap.cell) (target : Heap.jsval) (depth : Z)
    (h' : list Heap.cell) (result : Heap.jsval) :
  Heap.snakeToHump fuel h target depth = Some (h', result)
  ∨ Heap.humpToSnake fuel h target depth = Some (h', result) →
  (∀ l c, h !! l = Some c → h' !! l = Some c)
  ∧ (∀ n snapshot,
       Heap.read n h target = Some snapshot → Heap.read n h' target = Some snapshot).
Proof.
  intros E.
  assert (∀ l c, h !! l = Some c → h' !! l = Some c) as Hkeep.
  { destruct E as [E|E]; by eapply transform_frame. }
  split; [done|]. intros n snapshot. by apply read_preserved.
Qed.

Lemma transformers_leave_the_input_unchanged_witness :
  Heap.snakeToHump 20 sample_heap (Heap.JRef 0) default_depth
  = Some (sample_heap_after, Heap.JRef 3)
  ∧ sample_heap_after !! 0%nat = Some (Heap.CObj [("a_b", Heap.JRef 1)])
  ∧ Heap.read 5 sample_heap_after (Heap.JRef 0)
    = Some (VObj [("a_b", VArr [VObj [("c_d", VNull)]; VNum 1; VObj [("c_d", VNull)]])]).
Proof.
  split; [vm_compute; reflexivity|].
  destruct (transformers_leave_the_input_unchanged
              20 sample_heap (Heap.JRef 0) default_depth sample_heap_after (Heap.JRef 3))
    as [Hcells Hread]; [left; vm_compute; reflexivity|].
  split; [apply Hcells | apply Hread]; reflexivity.
Defined.

(** Without the copy the private function does change its argument. *)
Example private_rename_writes_in_place :
  Heap._rename Lodash.camelCase 20 sample_heap (Heap.JRef 0) default_depth
  = Some ([ Heap.CObj [("aB", Heap.JRef 1)];
            Heap.CArr [Heap.JRef 2; Heap.JNum 1; Heap.JRef 2];
            Heap.CObj [("cD", Heap.JNull)] ], Heap.JRef 0).
Proof. vm_compute; reflexivity. Qed.

(** The functions on the store compute what the functions on values do:
    nested objects and arrays, two keys that meet, a budget that runs out
    and a budget of 0. *)
Example store_and_values_agree :
  Heap.on_store Heap.snakeToHump 30 snake_nested default_depth
  = Some (snakeToHump snake_nested default_depth)
  ∧ Heap.on_store Heap.humpToSnake 30 camel_nested default_depth
    = Some (humpToSnake camel_nested default_depth)
  ∧ Heap.on_store Heap.snakeToHump 30
      (VObj [("a_b", VNum 1); ("aB", VObj [("c_d", VNum 2)]); ("a__b", VArr [])]) 3
    = Some (snakeToHump
              (VObj [("a_b", VNum 1); ("aB", VObj [("c_d", VNum 2)]); ("a__b", VArr [])]) 3)
  ∧ Heap.on_store Heap.snakeToHump 30 (nest_obj 3 snake_payload) 2
    = Some (snakeToHump (nest_obj 3 snake_payload) 2)
  ∧ Heap.on_store Heap.snakeToHump 30 (nest_arr 12 snake_payload) 1
    = Some (snakeToHump (nest_arr 12 snake_payload) 1)
  ∧ Heap.on_store Heap.snakeToHump 30 snake_payload 0
    = Some (snakeToHump snake_payload 0).
Proof. repeat split; vm_compute; reflexivity. Qed.

(** ** The request pipeline *)

Section Service.

Import HttpFetchService.

Implicit Types (httpOption : RequestConfig) (transport : obj → TransportOutcome)
  (url : string) (config : option obj).

Lemma indexOf_from_range (search s : string) :
  ∀ pos, 0 ≤ pos → indexOf_from s search pos = -1 ∨ pos ≤ indexOf_from s search pos.
Proof.
  induction s as [|c s IH]; intros pos Hpos; cbn [indexOf_from].
  - destruct (String.prefix search ""); lia.
  - destruct (String.prefix search (String c s)); [lia|].
    destruct (IH (pos + 1)); lia.
Qed.

(** [url.indexOf(protocol) === 0] says that [url] starts with [protocol]. *)
Lemma indexOf_zero (s search : string) :
  (indexOf s search =? 0) = String.prefix search s.
Proof.
  unfold indexOf. destruct s as [|c s]; cbn [indexOf_from].
  - by destruct (String.prefix search "").
  - destruct (String.prefix search (String c s)); [done|].
    destruct (indexOf_from_range search s (0 + 1)); [lia| |]; apply Z.eqb_neq; lia.
Qed.


End Service.


Section Outcomes.

Import HttpFetchService.

Implicit Types (httpOption : RequestConfig) (transport : obj → TransportOutcome)
  (url : string) (config : option obj).

Lemma request_resolved httpOption transport url config resp :
  transport (sent (request httpOption transport url config)) = Resolved resp →
  resp_data resp ≠ VUndef → resp_data resp ≠ VNull →
  result (request httpOption transport url config)
  = Returns (envelope_of httpOption resp).
Proof.
  intros E Hu Hn. unfold request in *. cbn [sent] in E. cbn [result]. rewrite E.
  unfold envelope_of, incoming, get_field.
  destruct (resp_data resp) as [| | | | | |o]; try done;
    simpl; by destruct (parameterStyle httpOption) as [[| |]|].
Qed.

Lemma request_rejected httpOption transport url config err :
  transport (sent (request httpOption transport url config)) = Rejected err →
  result (request httpOption transport url config) = fst (catch err None).
Proof. intros E. unfold request in *. cbn [sent] in E. cbn [result]. by rewrite E. Qed.

End Outcomes.

(** C1.  A rejection whose body is [{code: 404, msg: "not found"}] does
    not come back as an envelope: past the test on [code] and [data] the
    [catch] block reads [status] of [resp], which was never assigned, and
    the call throws a [TypeError]. *)
Theorem soft_error_reads_the_unassigned_response
    (httpOption : HttpFetchService.RequestConfig) (url : string) (config : option obj) :
  HttpFetchService.result
    (HttpFetchService.request httpOption
       (HttpFetchService.rejects_with "Request failed with status code 404" 404
          HttpFetchService.not_found_body)
       url config)
  = HttpFetchService.Throws (HttpFetchService.TypeError "resp.status").
Proof. reflexivity. Qed.

(** C2, as amended.  When the transport rejects with an error that carries
    a response, the call throws [HttpRequestApiException] exactly when the
    [code] and the [data] of the body (the empty object when the body is
    missing or otherwise falsy) are both falsy, and the message is then
    that of the error; a body that is [undefined] or [{}] gives this
    exception. *)
Theorem unstructured_error_is_thrown
    (httpOption : HttpFetchService.RequestConfig)
    (transport : obj → HttpFetchService.TransportOutcome)
    (url : string) (config : option obj)
    (err : HttpFetchService.AxiosError) (response : HttpFetchService.ErrorResponse) :
  transport (HttpFetchService.sent (HttpFetchService.request httpOption transport url config))
  = HttpFetchService.Rejected err →
  HttpFetchService.err_response err = Some response →
  (∀ m,
     HttpFetchService.result (HttpFetchService.request httpOption transport url config)
     = HttpFetchService.Throws (HttpFetchService.HttpRequestApiException m)
     ↔ m = HttpFetchService.err_message err
       ∧ truthy (HttpFetchService.get_field
                   (or_else (HttpFetchService.eresp_data response) (VObj [])) "code") = false
       ∧ truthy (HttpFetchService.get_field
                   (or_else (HttpFetchService.eresp_data response) (VObj [])) "data") = false)
  ∧ (HttpFetchService.eresp_data response = VUndef
     ∨ HttpFetchService.eresp_data response = VObj [] →
     HttpFetchService.result (HttpFetchService.request httpOption transport url config)
     = HttpFetchService.Throws
         (HttpFetchService.HttpRequestApiException (HttpFetchService.err_message err))).
Proof.
  intros E Hresp. rewrite (request_rejected _ _ _ _ _ E).
  unfold HttpFetchService.catch. rewrite Hresp. cbn [fst].
  split.
  - intros m.
    destruct (truthy (HttpFetchService.get_field _ "code")),
             (truthy (HttpFetchService.get_field _ "data")); simpl;
      split; try (intros [= <-]; done); try (by intros (_ & ? & ?)).
    by intros (-> & _ & _).
  - by intros [-> | ->].
Qed.

Lemma unstructured_error_is_thrown_witness :
  HttpFetchService.result
    (HttpFetchService.request (HttpFetchService.options None)
       (HttpFetchService.rejects_with "Network Error" 502 VUndef)
       "service.internal/x" None)
  = HttpFetchService.Throws (HttpFetchService.HttpRequestApiException "Network Error").
Proof.
  apply (unstructured_error_is_thrown (HttpFetchService.options None)
           (HttpFetchService.rejects_with "Network Error" 502 VUndef)
           "service.internal/x" None
           {| HttpFetchService.err_message := "Network Error";
              HttpFetchService.err_response :=
                Some {| HttpFetchService.eresp_status := 502;
                        HttpFetchService.eresp_data := VUndef |} |}
           {| HttpFetchService.eresp_status := 502;
              HttpFetchService.eresp_data := VUndef |});
    [reflexivity | reflexivity | left; reflexivity].
Defined.

(** C2, as stated, fails: the body [{code: 0, msg: "zero"}] has a [code]
    field, and the call throws [HttpRequestApiException] all the same. *)
Lemma code_field_zero_counterexample :
  has_field HttpFetchService.zero_code_body "code" = true
  ∧ HttpFetchService.result
      (HttpFetchService.request (HttpFetchService.options None)
         (HttpFetchService.rejects_with "Request failed" 500
            HttpFetchService.zero_code_body)
         "service.internal/x" None)
    = HttpFetchService.Throws (HttpFetchService.HttpRequestApiException "Request failed").
Proof. split; reflexivity. Qed.

(** C6, as amended.  When the transport resolves with a body that is
    neither [null] nor [undefined], the caller gets the envelope with
    [code: data.code || 0], [msg: data.msg || ""], the status of the
    response and, as [data], the payload [data.data] as it is under
    [NONE], [snakeToHump(data.data || {})] under [CAMEL_TO_SNAKE] and
    [humpToSnake(data.data || {})] under [SNAKE_TO_CAMEL]. *)
Theorem success_envelope
    (httpOption : HttpFetchService.RequestConfig)
    (transport : obj → HttpFetchService.TransportOutcome)
    (url : string) (config : option obj) (resp : HttpFetchService.AxiosResponse) :
  transport (HttpFetchService.sent (HttpFetchService.request httpOption transport url config))
  = HttpFetchService.Resolved resp →
  HttpFetchService.resp_data resp ≠ VUndef →
  HttpFetchService.resp_data resp ≠ VNull →
  HttpFetchService.result (HttpFetchService.request httpOption transport url config)
  = HttpFetchService.Returns (HttpFetchService.envelope_of httpOption resp).
Proof. apply request_resolved. Qed.

(** Scenario B of the specification. *)
Lemma success_envelope_witness :
  HttpFetchService.result
    (HttpFetchService.request
       (HttpFetchService.options (Some HttpFetchService.CAMEL_TO_SNAKE))
       (HttpFetchService.resolves_with 200 HttpFetchService.ok_body)
       "api/x" None)
  = HttpFetchService.Returns
      {| HttpFetchService.code := VNum 0;
         HttpFetchService.msg := VStr "ok";
         HttpFetchService.data := camel_payload;
         HttpFetchService.status := 200 |}.
Proof.
  exact (success_envelope
           (HttpFetchService.options (Some HttpFetchService.CAMEL_TO_SNAKE))
           (HttpFetchService.resolves_with 200 HttpFetchService.ok_body)
           "api/x" None
           {| HttpFetchService.resp_status := 200;
              HttpFetchService.resp_data := HttpFetchService.ok_body;
              HttpFetchService.resp_config :=
                HttpFetchService.sent
                  (HttpFetchService.request
                     (HttpFetchService.options (Some HttpFetchService.CAMEL_TO_SNAKE))
                     (HttpFetchService.resolves_with 200 HttpFetchService.ok_body)
                     "api/x" None) |}
           eq_refl ltac:(discriminate) ltac:(discriminate)).
Defined.

(** C6, as stated, fails: under [CAMEL_TO_SNAKE] a body without [data]
    gives the envelope the payload [{}], where the stated construction
    gives the conversion of [undefined], which is [undefined]. *)
Lemma success_envelope_counterexample :
  HttpFetchService.result
    (HttpFetchService.request
       (HttpFetchService.options (Some HttpFetchService.CAMEL_TO_SNAKE))
       (HttpFetchService.resolves_with 200 HttpFetchService.ok_body_without_data)
       "api/x" None)
  ≠ HttpFetchService.Returns
      (HttpFetchService.envelope_as_specified
         (HttpFetchService.options (Some HttpFetchService.CAMEL_TO_SNAKE))
         {| HttpFetchService.resp_status := 200;
            HttpFetchService.resp_data := HttpFetchService.ok_body_without_data;
            HttpFetchService.resp_config := [] |}).
Proof. vm_compute. discriminate. Qed.

(** C9.  Each verb wrapper is the call of [request] with the same url and
    a configuration that has [method] fixed to its verb and every other
    field as the caller gave it. *)
Theorem verb_wrappers_call_request
    (httpOption : HttpFetchService.RequestConfig)
    (transport : obj → HttpFetchService.TransportOutcome)
    (url : string) (config : option obj) :
  Forall
    (fun '(wrapper, verb) =>
       ∃ config',
         HttpFetchService.method_fixed verb config config'
         ∧ wrapper httpOption transport url config
           = HttpFetchService.request httpOption transport url (Some config'))
    [ (HttpFetchService.get, "get"); (HttpFetchService.post, "post");
      (HttpFetchService.put, "put"); (HttpFetchService.delete, "delete");
      (HttpFetchService.patch, "patch"); (HttpFetchService.head, "head") ].
Proof.
  repeat constructor;
    (eexists (HttpFetchService.with_method _ config); split; [|reflexivity]);
    (split; [apply obj_lookup_set_eq | intros k Hk; by apply obj_lookup_set_ne]).
Qed.

(** C10.  When the transport resolves with an object that has no [data]
    field, the envelope holds [undefined] as [data] under [NONE] (or no
    style at all) and the empty object under [CAMEL_TO_SNAKE] and
    [SNAKE_TO_CAMEL]. *)
Theorem absent_payload_depends_on_style
    (httpOption : HttpFetchService.RequestConfig)
    (transport : obj → HttpFetchService.TransportOutcome)
    (url : string) (config : option obj)
    (resp : HttpFetchService.AxiosResponse) (body : obj) :
  transport (HttpFetchService.sent (HttpFetchService.request httpOption transport url config))
  = HttpFetchService.Resolved resp →
  HttpFetchService.resp_data resp = VObj body →
  obj_has body "data" = false →
  ∃ response,
    HttpFetchService.result (HttpFetchService.request httpOption transport url config)
    = HttpFetchService.Returns response
    ∧ HttpFetchService.data response
      = match HttpFetchService.parameterStyle httpOption with
        | Some HttpFetchService.CAMEL_TO_SNAKE
        | Some HttpFetchService.SNAKE_TO_CAMEL => VObj []
        | _ => VUndef
        end.
Proof.
  intros E Hbody Hdata. eexists. split.
  - apply request_resolved; [done| |]; by rewrite Hbody.
  - unfold HttpFetchService.envelope_of. cbn [HttpFetchService.data].
    rewrite Hbody. unfold HttpFetchService.get_field. simpl.
    unfold obj_has in Hdata. unfold Js.obj_get.
    destruct (obj_lookup body "data"); [done|]. simpl.
    by destruct (HttpFetchService.parameterStyle httpOption) as [[| |]|].
Qed.

Lemma absent_payload_depends_on_style_witness :
  ∃ response,
    HttpFetchService.result
      (HttpFetchService.request
         (HttpFetchService.options (Some HttpFetchService.SNAKE_TO_CAMEL))
         (HttpFetchService.resolves_with 200 HttpFetchService.ok_body_without_data)
         "api/x" None)
    = HttpFetchService.Returns response
    ∧ HttpFetchService.data response = VObj [].
Proof.
  exact (absent_payload_depends_on_style
           (HttpFetchService.options (Some HttpFetchService.SNAKE_TO_CAMEL))
           (HttpFetchService.resolves_with 200 HttpFetchService.ok_body_without_data)
           "api/x" None
           {| HttpFetchService.resp_status := 200;
              HttpFetchService.resp_data := HttpFetchService.ok_body_without_data;
              HttpFetchService.resp_config :=
                HttpFetchService.sent
                  (HttpFetchService.request
                     (HttpFetchService.options (Some HttpFetchService.SNAKE_TO_CAMEL))
                     (HttpFetchService.resolves_with 200
                        HttpFetchService.ok_body_without_data)
                     "api/x" None) |}
           [("code", VNum 0); ("msg", VStr "ok")]
           eq_refl eq_refl eq_refl).
Defined.

(** ** What the transformer does to each kind of value *)

Section Shape.

Variable newKeyOf : string → string.

(** The state in which a call with a budget left leaves its target is the
    value it returns. *)
Lemma _rename_state (fuel : nat) (target : value) (depth : Z) :
  (height target < fuel)%nat → 0 < depth →
  snd <$> _rename newKeyOf fuel target depth = Some (rename newKeyOf target depth).
Proof.
  intros Hfuel Hd.
  destruct (_rename_total newKeyOf fuel target depth Hfuel) as (r & t' & E & _ & Hr).
  rewrite (rename_eq _ _ _ _ _ _ E), E. simpl.
  destruct (depth - 1 <? 0) eqn:Hlt; [lia|]. by subst.
Qed.

Lemma rename_arr (items : list value) (depth : Z) :
  0 < depth →
  rename newKeyOf (VArr items) depth
  = VArr ((fun item => rename newKeyOf item default_depth) <$> items).
Proof.
  intros Hd. eapply (rename_eq _ (S (height (VArr items)))).
  assert (Forall (fun x => (height x < height (VArr items))%nat) items) as Hlt'.
  { assert (height (VArr items) ≤ S (pred (height (VArr items))))%nat as Hle
      by (simpl; lia).
    apply height_arr_le in Hle.
    eapply Forall_impl; [exact Hle|]. intros x Hx. simpl in *. lia. }
  remember (height (VArr items)) as n eqn:En. clear En. simpl.
  destruct (depth - 1 <? 0) eqn:Hlt; [lia|].
  assert (mapM (fun item => snd <$> _rename newKeyOf n item default_depth) items
          = Some ((fun item => rename newKeyOf item default_depth) <$> items)) as ->; [|done].
  apply mapM_Some, Forall2_fmap_r, Forall_Forall2_diag.
  eapply Forall_impl; [exact Hlt'|]. intros x Hx. simpl in Hx.
  by apply _rename_state.
Qed.

End Shape.

(** ** The keys and the size of an object that is written to *)

Section ObjKeys.

Context {V : Type}.
Implicit Types (o : properties V) (k : string) (v : V).

Lemma obj_has_true o k : obj_has o k = true ↔ k ∈ keys o.
Proof.
  split; [|apply obj_has_keys]. unfold obj_has.
  destruct (obj_lookup o k) as [v|] eqn:E; [|done]. intros _.
  apply obj_lookup_In in E. by apply (list_elem_of_fmap_2 fst) in E.
Qed.

Lemma keys_obj_set o k v :
  keys (obj_set o k v) = if obj_has o k then keys o else keys o ++ [k].
Proof.
  unfold obj_has, keys. induction o as [|[k0 v0] o IH]; simpl; [done|].
  destruct (String.eqb k0 k) eqn:E.
  - apply String.eqb_eq in E. by subst.
  - rewrite fmap_cons, IH. simpl. by destruct (obj_lookup o k).
Qed.

Lemma elem_of_keys_obj_set o k k' v :
  k' ∈ keys (obj_set o k v) ↔ k' = k ∨ k' ∈ keys o.
Proof.
  rewrite keys_obj_set. destruct (obj_has o k) eqn:E.
  - apply obj_has_true in E. split; [auto|]. by intros [->|?].
  - rewrite elem_of_app, list_elem_of_singleton. tauto.
Qed.

Lemma elem_of_obj_set o k v (kv : string * V) :
  kv ∈ obj_set o k v → kv = (k, v) ∨ kv ∈ o.
Proof.
  induction o as [|[k0 v0] o IH]; simpl.
  - intros ->%list_elem_of_singleton. by left.
  - destruct (String.eqb k0 k).
    + intros [->|?]%elem_of_cons; [by left|]. right. by right.
    + intros [->|?]%elem_of_cons; [right; by left|].
      destruct IH as [?|?]; [done|by left|]. right. by right.
Qed.

Lemma elem_of_obj_delete o k (kv : string * V) :
  kv ∈ obj_delete o k ↔ kv ∈ o ∧ fst kv ≠ k.
Proof.
  induction o as [|[k0 v0] o IH]; simpl.
  - split; [by intros ?%not_elem_of_nil|by intros [?%not_elem_of_nil _]].
  - destruct (String.eqb k0 k) eqn:E.
    + apply String.eqb_eq in E as ->. rewrite IH, elem_of_cons.
      split; [tauto|]. intros [[->|?] Hne]; [done|tauto].
    + apply String.eqb_neq in E. rewrite !elem_of_cons, IH.
      split; [|tauto]. intros [->|[? ?]]; [|tauto]. split; [by left|done].
Qed.

Lemma elem_of_keys_obj_delete o k k' :
  k' ∈ keys (obj_delete o k) ↔ k' ∈ keys o ∧ k' ≠ k.
Proof.
  unfold keys. rewrite !list_elem_of_fmap. split.
  - intros (kv & -> & [? ?]%elem_of_obj_delete). eauto.
  - intros [(kv & -> & ?) ?]. exists kv. split; [done|].
    by apply elem_of_obj_delete.
Qed.

Lemma length_obj_set o k v :
  length (obj_set o k v) = if obj_has o k then length o else S (length o).
Proof.
  unfold obj_has. induction o as [|[k0 v0] o IH]; simpl; [done|].
  destruct (String.eqb k0 k); simpl; [done|].
  rewrite IH. by destruct (obj_lookup o k).
Qed.

Lemma length_obj_delete o k :
  (length (obj_delete o k) + (if obj_has o k then 1 else 0) ≤ length o)%nat.
Proof.
  unfold obj_has. induction o as [|[k0 v0] o IH]; simpl; [done|].
  destruct (String.eqb k0 k); simpl.
  - destruct (obj_lookup o k); lia.
  - destruct (obj_lookup o k); lia.
Qed.

Lemma NoDup_keys_obj_set o k v : NoDup (keys o) → NoDup (keys (obj_set o k v)).
Proof.
  intros Hnd. rewrite keys_obj_set. destruct (obj_has o k) eqn:E; [done|].
  apply NoDup_app. split; [done|]. split; [|apply NoDup_singleton].
  intros x Hx ->%list_elem_of_singleton.
  apply obj_has_true in Hx. congruence.
Qed.

Lemma NoDup_keys_obj_delete o k : NoDup (keys o) → NoDup (keys (obj_delete o k)).
Proof.
  unfold keys. induction o as [|[k0 v0] o IH]; simpl; [done|].
  rewrite NoDup_cons. intros [Hk Hnd].
  destruct (String.eqb k0 k); simpl; [auto|].
  apply NoDup_cons. split; [|auto].
  intros [? _]%elem_of_keys_obj_delete. done.
Qed.

End ObjKeys.

(** ** Where the keys of the result come from *)

Section KeysOfResult.

Variable newKeyOf : string → string.

(** A turn of the loop adds no property; a key it leaves is the new key
    or a key that was there and is not the one of this turn. *)
Lemma for_in_step_keys (recur : value → option value) (s s' : obj) (key : string) :
  for_in_step newKeyOf recur s key = Some s' →
  (length s' ≤ length s)%nat
  ∧ ∀ k, k ∈ keys s' → k = newKeyOf key ∨ (k ∈ keys s ∧ k ≠ key).
Proof.
  unfold for_in_step. destruct (obj_has s key) eqn:Hhas.
  2:{ intros [= <-]. split; [done|]. intros k Hk. right. split; [done|].
      intros ->. apply obj_has_true in Hk. congruence. }
  set (s1 := if String.eqb key (newKeyOf key) then s else _).
  assert ((length s1 ≤ length s)%nat
          ∧ obj_has s1 (newKeyOf key) = true
          ∧ ∀ k, k ∈ keys s1 → k = newKeyOf key ∨ (k ∈ keys s ∧ k ≠ key))
    as (Hlen & Hnew & Hkeys).
  { subst s1. destruct (String.eqb key (newKeyOf key)) eqn:E.
    - apply String.eqb_eq in E. rewrite <- E. split; [done|]. split; [done|].
      intros k Hk. destruct (decide (k = key)); [by left|by right].
    - apply String.eqb_neq in E. split; [|split].
      + pose proof (length_obj_delete (obj_set s (newKeyOf key) (obj_get s key)) key) as Hd.
        rewrite obj_has_set in Hd by done.
        rewrite length_obj_set in Hd. destruct (obj_has s (newKeyOf key)); lia.
      + unfold obj_has.
        rewrite obj_lookup_delete_ne by done. by rewrite obj_lookup_set_eq.
      + intros k [Hk Hne]%elem_of_keys_obj_delete.
        apply elem_of_keys_obj_set in Hk as [->|Hk]; [by left|by right]. }
  assert (∀ v', (length (obj_set s1 (newKeyOf key) v') ≤ length s)%nat
                ∧ ∀ k, k ∈ keys (obj_set s1 (newKeyOf key) v') →
                       k = newKeyOf key ∨ (k ∈ keys s ∧ k ≠ key)) as Hset.
  { intros v'. rewrite length_obj_set, Hnew. split; [done|].
    intros k [->|Hk]%elem_of_keys_obj_set; [by left|auto]. }
  destruct (typeof_object _); [|by intros [= <-]].
  destruct (recur _) as [v'|]; simpl; [|done]. intros [= <-]. apply Hset.
Qed.

Lemma for_in_keys (recur : value → option value) (orig : list string) :
  ∀ ks s s',
    for_in newKeyOf recur ks s = Some s' →
    (∀ k, k ∈ ks → k ∈ orig) →
    (∀ k, k ∈ keys s → k ∈ ks ∨ ∃ k0, k0 ∈ orig ∧ k = newKeyOf k0) →
    (length s' ≤ length s)%nat
    ∧ ∀ k, k ∈ keys s' → ∃ k0, k0 ∈ orig ∧ k = newKeyOf k0.
Proof.
  induction ks as [|key ks IH]; intros s s'; simpl.
  - intros [= <-] _ Hs. split; [done|]. intros k Hk.
    destruct (Hs k Hk) as [?%not_elem_of_nil|?]; done.
  - destruct (for_in_step newKeyOf recur s key) as [s1|] eqn:E; simpl; [|done].
    intros Hrest Hks Hs.
    apply for_in_step_keys in E as [Hlen Hkeys].
    destruct (IH s1 s' Hrest) as [Hlen' Hkeys'].
    + intros k Hk. apply Hks. by right.
    + intros k Hk. destruct (Hkeys k Hk) as [->|[Hin Hne]].
      * right. exists key. split; [|done]. apply Hks. by left.
      * destruct (Hs k Hin) as [[?|?]%elem_of_cons|?]; [done|by left|by right].
    + split; [lia|done].
Qed.

Lemma rename_obj_keys (props : obj) (depth : Z) :
  0 < depth →
  ∃ props', rename newKeyOf (VObj props) depth = VObj props'
    ∧ (length props' ≤ length props)%nat
    ∧ ∀ k, k ∈ keys props' → ∃ k0, k0 ∈ keys props ∧ k = newKeyOf k0.
Proof.
  intros Hd.
  destruct (_rename_total newKeyOf (S (height (VObj props))) (VObj props) depth)
    as (r & t' & E & _ & Hr); [lia|].
  rewrite (rename_eq _ _ _ _ _ _ E).
  remember (height (VObj props)) as n eqn:En. clear En. simpl in E.
  destruct (depth - 1 <? 0) eqn:Hlt; [lia|].
  destruct (for_in _ _ _ props) as [props'|] eqn:Ef; simpl in E; [|done].
  injection E as <- <-. exists props'. split; [done|].
  eapply for_in_keys; [exact Ef|done|]. intros k Hk. by left.
Qed.

End KeysOfResult.

(** ** An object whose keys do not meet, and the budget *)


Section Budget.

Variable newKeyOf : string → string.

Lemma rename_primitive (target : value) (depth : Z) :
  0 < depth → typeof_object target = false →
  rename newKeyOf target depth = target.
Proof.
  intros Hd Hty. unfold rename.
  destruct target; try done; simpl;
    by destruct (depth - 1 <? 0) eqn:Hlt; [lia|].
Qed.



Lemma for_in_step_ext (recur recur' : value → option value) (H : nat) (o : obj) key :
  (∀ v, (height v ≤ H)%nat → recur v = recur' v) →
  vals_le H o →
  for_in_step newKeyOf recur o key = for_in_step newKeyOf recur' o key.
Proof.
  intros Hext Ho. unfold for_in_step.
  destruct (obj_has o key); [|done].
  set (o1 := if String.eqb key (newKeyOf key) then o else _).
  assert (vals_le H o1) as Ho1.
  { subst o1. destruct (String.eqb key (newKeyOf key)); [done|].
    apply vals_le_delete, vals_le_set; [done|]. by apply vals_le_get. }
  destruct (typeof_object _); [|done].
  by rewrite (Hext _ (vals_le_get H o1 (newKeyOf key) Ho1)).
Qed.

Lemma for_in_ext (recur recur' : value → option value) (H : nat) :
  (∀ v, (height v ≤ H)%nat → recur v = recur' v) →
  (∀ v, (height v ≤ H)%nat → ∃ v', recur v = Some v' ∧ (height v' ≤ height v)%nat) →
  ∀ ks o, vals_le H o →
    for_in newKeyOf recur ks o = for_in newKeyOf recur' ks o.
Proof.
  intros Hext Hrec ks. induction ks as [|key ks IH]; intros o Ho; simpl; [done|].
  rewrite <- (for_in_step_ext recur recur' H o key Hext Ho).
  destruct (for_in_step_height newKeyOf recur H Hrec o key Ho) as (o1 & -> & Ho1).
  simpl. by apply IH.
Qed.

(** A budget that reaches the bottom of the target leaves it in the state
    in which any other such budget leaves it. *)
Lemma _rename_budget (fuel : nat) :
  ∀ target depth depth',
    (height target < fuel)%nat →
    Z.of_nat (height target) ≤ depth → Z.of_nat (height target) ≤ depth' →
    snd <$> _rename newKeyOf fuel target depth
    = snd <$> _rename newKeyOf fuel target depth'.
Proof.
  induction fuel as [|fuel IH]; intros target depth depth' Hfuel Hd Hd'; [lia|].
  destruct target as [| | | | |items|props];
    try (simpl; by destruct (depth - 1 <? 0), (depth' - 1 <? 0)).
  - assert (0 < height (VArr items))%nat as Hpos by (simpl; lia).
    remember (height (VArr items)) as n eqn:En. clear En. simpl.
    destruct (depth - 1 <? 0) eqn:E1; [lia|].
    destruct (depth' - 1 <? 0) eqn:E2; [lia|]. done.
  - destruct fuel as [|m]; [simpl in Hfuel; lia|].
    set (H := pred (height (VObj props))).
    assert (vals_le H props) as Hle.
    { apply height_obj_le. subst H. simpl. lia. }
    assert ((H ≤ m)%nat ∧ Z.of_nat H ≤ depth - 1 ∧ Z.of_nat H ≤ depth' - 1)
      as (HHm & HHd & HHd').
    { subst H. simpl in *. lia. }
    clearbody H. clear Hfuel Hd Hd'.
    cbn [_rename].
    assert ((depth - 1 <? 0) = false) as -> by lia.
    assert ((depth' - 1 <? 0) = false) as -> by lia.
    cbv zeta.
    rewrite (for_in_ext (fun v => snd <$> _rename newKeyOf (S m) v (depth - 1))
                        (fun v => snd <$> _rename newKeyOf (S m) v (depth' - 1)) H);
      [done| | |done].
    + intros v Hv. apply IH; lia.
    + intros v Hv.
      destruct (_rename_total newKeyOf (S m) v (depth - 1)) as (r & v' & -> & Hv' & _);
        [lia|]. simpl. eauto.
Qed.

Lemma rename_budget (target : value) (depth depth' : Z) :
  0 < depth → 0 < depth' →
  Z.of_nat (height target) ≤ depth → Z.of_nat (height target) ≤ depth' →
  rename newKeyOf target depth = rename newKeyOf target depth'.
Proof.
  intros Hd Hd' Hh Hh'.
  pose proof (_rename_budget (S (height target)) target depth depth'
                ltac:(lia) Hh Hh') as E.
  rewrite !_rename_state in E by (done || lia). congruence.
Qed.

End Budget.

(** ** Every key within the budget is converted *)

Lemma NoDup_distinct (l : list string) : NoDup l → distinct l = true.
Proof.
  induction 1 as [|k l Hk Hnd IH]; simpl; [done|].
  rewrite IH, andb_true_r. apply negb_true_iff.
  destruct (existsb (String.eqb k) l) eqn:E; [|done].
  apply existsb_exists in E as (k' & Hin%list_elem_of_In & ->%String.eqb_eq). done.
Qed.

Lemma NoDup_keys_functional {V} (o : properties V) k v v' :
  NoDup (keys o) → (k, v) ∈ o → (k, v') ∈ o → v = v'.
Proof.
  intros Hnd H1 H2.
  apply (obj_lookup_NoDup _ _ _ Hnd) in H1, H2. congruence.
Qed.

Section Converts.

Variable newKeyOf : string → string.
Variable depth : Z.
Variable recur : value → option value.

Let ready (v : value) : Prop := wf v = true ∧ within_budget v (depth - 1) = true.
Let finished (v : value) : Prop := every_key (converted newKeyOf) v.

Hypothesis Hrec : ∀ v v', recur v = Some v' → ready v → ready v' ∧ finished v'.

(** The properties of the object during the loop: those whose turn is
    still to come are as the loop found them, the others have a converted
    key and a converted value. *)
Let inv (s : obj) (todo : list string) : Prop :=
  NoDup (keys s)
  ∧ ∀ k v, (k, v) ∈ s → ready v ∧ (k ∈ todo ∨ (converted newKeyOf k ∧ finished v)).

Lemma for_in_step_converts (s s' : obj) (key : string) (todo : list string) :
  for_in_step newKeyOf recur s key = Some s' → inv s (key :: todo) → inv s' todo.
Proof.
  unfold for_in_step. intros Hstep [Hnd Hs].
  destruct (obj_has s key) eqn:Hhas.
  2:{ injection Hstep as <-. split; [done|]. intros k v Hin.
      destruct (Hs k v Hin) as [Hr [[->|?]%elem_of_cons|?]]; [|by auto..].
      apply (list_elem_of_fmap_2 fst) in Hin. apply obj_has_true in Hin.
      simpl in Hin. congruence. }
  assert (∃ v0, obj_lookup s key = Some v0) as [v0 Hv0].
  { unfold obj_has in Hhas. destruct (obj_lookup s key); [by eexists|done]. }
  assert (obj_get s key = v0) as Hget by (unfold obj_get; by rewrite Hv0).
  rewrite Hget in Hstep.
  destruct (Hs key v0 (obj_lookup_In _ _ _ Hv0)) as [Hready0 _].
  set (s1 := if String.eqb key (newKeyOf key) then s else _) in Hstep.
  assert (NoDup (keys s1) ∧ obj_lookup s1 (newKeyOf key) = Some v0
          ∧ ∀ k v, (k, v) ∈ s1 → (k = newKeyOf key ∧ v = v0) ∨ ((k, v) ∈ s ∧ k ≠ key))
    as (Hnd1 & Hl1 & Hs1).
  { subst s1. destruct (String.eqb key (newKeyOf key)) eqn:E.
    - apply String.eqb_eq in E. rewrite <- E. split; [done|]. split; [done|].
      intros k v Hin. destruct (decide (k = key)) as [->|Hne]; [left|by right].
      split; [done|].
      by apply (NoDup_keys_functional s key v v0 Hnd Hin), obj_lookup_In.
    - apply String.eqb_neq in E. split; [|split].
      + by apply NoDup_keys_obj_delete, NoDup_keys_obj_set.
      + rewrite obj_lookup_delete_ne by done. apply obj_lookup_set_eq.
      + intros k v [Hin Hne]%elem_of_obj_delete. simpl in Hne.
        apply elem_of_obj_set in Hin as [[= -> ->]|Hin]; [by left|by right]. }
  assert (obj_get s1 (newKeyOf key) = v0) as Hget1 by (unfold obj_get; by rewrite Hl1).
  rewrite Hget1 in Hstep.
  assert (∃ v1, ready v1 ∧ finished v1 ∧ NoDup (keys s') ∧ (newKeyOf key, v1) ∈ s'
                ∧ ∀ k v, (k, v) ∈ s' → (k, v) = (newKeyOf key, v1) ∨ (k, v) ∈ s1)
    as (v1 & Hready1 & Hfin1 & Hnd' & Hin1 & Hs').
  { destruct (typeof_object v0) eqn:Hty.
    - destruct (recur v0) as [v'|] eqn:Er; simpl in Hstep; [|done].
      injection Hstep as <-. destruct (Hrec _ _ Er Hready0) as [? ?].
      exists v'. split; [done|]. split; [done|].
      split; [by apply NoDup_keys_obj_set|].
      split; [apply obj_lookup_In, obj_lookup_set_eq|].
      intros k v. apply elem_of_obj_set.
    - injection Hstep as <-. exists v0. split; [done|].
      split; [by apply EK_primitive|]. split; [done|].
      split; [by apply obj_lookup_In|]. auto. }
  split; [done|]. intros k v Hin.
  assert ((k = newKeyOf key ∧ v = v1) ∨ ((k, v) ∈ s ∧ k ≠ key)) as [[-> ->]|[Hin0 Hne]].
  { destruct (Hs' k v Hin) as [[= -> ->]|Hin']; [by left|].
    destruct (Hs1 k v Hin') as [[-> ->]|?]; [left|by right].
    split; [done|]. by apply (NoDup_keys_functional s' (newKeyOf key) v0 v1 Hnd'). }
  - split; [done|]. right. split; [by eexists|done].
  - destruct (Hs k v Hin0) as [Hr [[->|?]%elem_of_cons|?]]; [done|by auto..].
Qed.

Lemma for_in_converts (todo : list string) :
  ∀ s s', for_in newKeyOf recur todo s = Some s' → inv s todo → inv s' [].
Proof.
  induction todo as [|key todo IH]; intros s s'; simpl.
  - by intros [= <-].
  - destruct (for_in_step newKeyOf recur s key) as [s1|] eqn:E; simpl; [|done].
    intros Hrest Hinv. apply (IH s1 s' Hrest).
    by apply (for_in_step_converts s s1 key todo).
Qed.

Lemma for_in_converts_obj (props props' : obj) :
  0 < depth →
  wf (VObj props) = true → within_budget (VObj props) depth = true →
  for_in newKeyOf recur (keys props) props = Some props' →
  wf (VObj props') = true ∧ within_budget (VObj props') depth = true
  ∧ finished (VObj props').
Proof.
  intros Hd [Hnd Hwf]%wf_obj Hb Hf. simpl in Hb.
  apply andb_prop in Hb as [_ Hb]. rewrite forallb_forall in Hb.
  rewrite Forall_forall in Hwf.
  destruct (for_in_converts _ _ _ Hf) as [Hnd' Hall].
  { split; [done|]. intros k v Hin. split.
    - split; [by apply (Hwf (k, v))|]. by apply (Hb (k, v)), list_elem_of_In.
    - left. by apply (list_elem_of_fmap_2 fst) in Hin. }
  assert (∀ kv, kv ∈ props' → ready (snd kv)
                ∧ converted newKeyOf (fst kv) ∧ finished (snd kv)) as Hall'.
  { intros [k v] Hin. destruct (Hall k v Hin) as [? [?%not_elem_of_nil|[? ?]]]; done. }
  split; [|split].
  - simpl. apply andb_true_intro. split; [by apply NoDup_distinct|].
    apply forallb_forall. intros kv Hin%list_elem_of_In. by apply Hall'.
  - simpl. apply andb_true_intro. split; [lia|].
    apply forallb_forall. intros kv Hin%list_elem_of_In. by apply Hall'.
  - apply EK_obj, Forall_forall. intros kv Hin. by apply Hall'.
Qed.

End Converts.

Section ConvertsAll.

Variable newKeyOf : string → string.

Lemma _rename_converts (fuel : nat) :
  ∀ target depth result target',
    _rename newKeyOf fuel target depth = Some (result, target') →
    wf target = true → within_budget target depth = true →
    (wf target' = true ∧ within_budget target' depth = true)
    ∧ every_key (converted newKeyOf) target'.
Proof.
  induction fuel as [|fuel IH]; intros target depth result target'; [done|].
  simpl. destruct (depth - 1 <? 0) eqn:Hd.
  { intros [= _ <-] Hwf Hb. split; [done|].
    destruct target; try (by apply EK_primitive); [apply EK_null| |];
      simpl in Hb; apply andb_prop in Hb as [? _]; lia. }
  destruct target as [| | | | |items|props];
    try (intros [= _ <-] _ _; split; [done|]; by apply EK_primitive).
  - intros [= _ <-] _ _. split; [done|]. apply EK_null.
  - destruct (mapM _ items) as [items'|] eqn:E; simpl; [|done].
    intros [= _ <-] Hwf%wf_arr Hb. simpl in Hb.
    apply andb_prop in Hb as [_ Hb].
    apply mapM_Some in E.
    assert (Forall (fun y => (wf y = true ∧ within_budget y default_depth = true)
                             ∧ every_key (converted newKeyOf) y) items') as Hall.
    { assert (Forall (fun x => within_budget x default_depth = true) items) as Hb'.
      { apply Forall_forall. intros x Hx%list_elem_of_In.
        rewrite forallb_forall in Hb. auto. }
      clear Hb. induction E as [|x y l l' Hxy _ IHl]; [constructor|].
      apply Forall_cons in Hwf as [Hx Hwf]. apply Forall_cons in Hb' as [Hbx Hb'].
      constructor; [|by apply IHl].
      destruct (_rename newKeyOf fuel x default_depth) as [[r x']|] eqn:Ex;
        simpl in Hxy; [|done].
      injection Hxy as <-. by apply (IH _ _ _ _ Ex). }
    rewrite Forall_forall in Hall.
    split; [split|].
    + simpl. apply forallb_forall. intros y Hy%list_elem_of_In. by apply Hall.
    + simpl. apply andb_true_intro. split; [lia|].
      apply forallb_forall. intros y Hy%list_elem_of_In. by apply Hall.
    + apply EK_arr, Forall_forall. intros y Hy. by apply Hall.
  - destruct (for_in _ _ _ props) as [props'|] eqn:E; simpl; [|done].
    intros [= _ <-] Hwf Hb.
    assert (∀ v v', snd <$> _rename newKeyOf fuel v (depth - 1) = Some v' →
                    wf v = true ∧ within_budget v (depth - 1) = true →
                    (wf v' = true ∧ within_budget v' (depth - 1) = true)
                    ∧ every_key (converted newKeyOf) v') as Hrec.
    { intros v v'. destruct (_rename newKeyOf fuel v (depth - 1)) as [[r x']|] eqn:Ev;
        simpl; [|done].
      intros [= <-] [? ?]. by apply (IH _ _ _ _ Ev). }
    destruct (for_in_converts_obj newKeyOf depth _ Hrec props props')
      as (? & ? & ?); [lia|exact Hwf|exact Hb|exact E|done].
Qed.

Lemma rename_converts (target : value) (depth : Z) :
  wf target = true → within_budget target depth = true →
  every_key (converted newKeyOf) (rename newKeyOf target depth).
Proof.
  intros Hwf Hb.
  destruct (_rename_total newKeyOf (S (height target)) target depth)
    as (r & t' & E & _ & Hr); [lia|].
  rewrite (rename_eq _ _ _ _ _ _ E), Hr.
  destruct (depth - 1 <? 0); [by apply EK_primitive|].
  by apply (_rename_converts _ _ _ _ _ E).
Qed.

End ConvertsAll.

(** ** Keys that meet *)

Section Meeting.

Variable newKeyOf : string → string.

Lemma for_in_step_NoDup (recur : value → option value) (s s' : obj) (key : string) :
  NoDup (keys s) → for_in_step newKeyOf recur s key = Some s' → NoDup (keys s').
Proof.
  intros Hnd. unfold for_in_step.
  destruct (obj_has s key); [|by intros [= <-]].
  set (s1 := if String.eqb key (newKeyOf key) then s else _).
  assert (NoDup (keys s1)) as Hnd1.
  { subst s1. destruct (String.eqb key (newKeyOf key)); [done|].
    by apply NoDup_keys_obj_delete, NoDup_keys_obj_set. }
  destruct (typeof_object _); [|by intros [= <-]].
  destruct (recur _); simpl; [|done]. intros [= <-]. by apply NoDup_keys_obj_set.
Qed.

Lemma for_in_NoDup (recur : value → option value) (ks : list string) :
  ∀ s s', NoDup (keys s) → for_in newKeyOf recur ks s = Some s' → NoDup (keys s').
Proof.
  induction ks as [|key ks IH]; intros s s' Hnd; simpl; [by intros [= <-]|].
  destruct (for_in_step newKeyOf recur s key) as [s1|] eqn:E; simpl; [|done].
  apply IH. by eapply for_in_step_NoDup.
Qed.

Lemma rename_obj_NoDup (props props' : obj) (depth : Z) :
  NoDup (keys props) → rename newKeyOf (VObj props) depth = VObj props' →
  NoDup (keys props').
Proof.
  intros Hnd.
  destruct (_rename_total newKeyOf (S (height (VObj props))) (VObj props) depth)
    as (r & t' & E & _ & Hr); [lia|].
  rewrite (rename_eq _ _ _ _ _ _ E).
  remember (height (VObj props)) as n eqn:En. clear En. simpl in E.
  destruct (depth - 1 <? 0); [injection E as <- <-; done|].
  destruct (for_in _ _ _ props) as [o|] eqn:Ef; simpl in E; [|done].
  injection E as <- <-. intros [= <-]. by eapply for_in_NoDup.
Qed.

(** Distinct keys that all come from [l], two of which have the same
    image, are fewer than the keys of [l]. *)
Lemma fewer_images (l l' : list string) (k1 k2 : string) :
  NoDup l' → (∀ k, k ∈ l' → ∃ k0, k0 ∈ l ∧ k = newKeyOf k0) →
  k1 ∈ l → k2 ∈ l → k1 ≠ k2 → newKeyOf k1 = newKeyOf k2 →
  (length l' < length l)%nat.
Proof.
  intros Hnd Himg H1 H2 Hne Heq.
  apply list_elem_of_split in H1 as (l1 & l2 & ->).
  assert (k2 ∈ l1 ++ l2) as H2'.
  { rewrite elem_of_app, elem_of_cons in H2. rewrite elem_of_app.
    destruct H2 as [?|[?|?]]; [by left|congruence|by right]. }
  assert (l' ⊆+ newKeyOf <$> (l1 ++ l2)) as Hsub.
  { apply NoDup_submseteq; [done|]. intros k Hk.
    destruct (Himg k Hk) as (k0 & Hk0 & ->).
    destruct (decide (k0 = k1)) as [->|Hne0].
    - rewrite Heq. by apply list_elem_of_fmap_2.
    - apply list_elem_of_fmap_2.
      rewrite elem_of_app, elem_of_cons in Hk0. rewrite elem_of_app.
      destruct Hk0 as [?|[?|?]]; [by left|congruence|by right]. }
  apply submseteq_length in Hsub.
  rewrite length_fmap in Hsub. rewrite !length_app in *. simpl. lia.
Qed.

Lemma rename_obj_meeting (props : obj) (depth : Z) (k1 k2 : string) :
  0 < depth → NoDup (keys props) →
  k1 ∈ keys props → k2 ∈ keys props → k1 ≠ k2 → newKeyOf k1 = newKeyOf k2 →
  ∃ props', rename newKeyOf (VObj props) depth = VObj props'
            ∧ (length props' < length props)%nat.
Proof.
  intros Hd Hnd H1 H2 Hne Heq.
  destruct (rename_obj_keys newKeyOf props depth Hd) as (props' & E & _ & Himg).
  exists props'. split; [done|].
  pose proof (rename_obj_NoDup props props' depth Hnd E) as Hnd'.
  pose proof (fewer_images (keys props) (keys props') k1 k2 Hnd' Himg H1 H2 Hne Heq) as Hlt.
  unfold keys in Hlt. by rewrite !length_fmap in Hlt.
Qed.

End Meeting.

(** ** The transformer, kind by kind *)


(** X1.  A budget of 0 or less is spent before anything is looked at:
    [snakeToHump] and [humpToSnake] return [undefined] whatever they are
    given; with a budget left, a primitive is returned as it is. *)
Theorem spent_budget_returns_undefined (x : value) (depth : Z) :
  (depth ≤ 0 → snakeToHump x depth = VUndef ∧ humpToSnake x depth = VUndef)
  ∧ (0 < depth → typeof_object x = false →
     snakeToHump x depth = x ∧ humpToSnake x depth = x).
Proof.
  split.
  - intros Hd. unfold snakeToHump, humpToSnake, cloneDeep, rename. simpl.
    destruct (depth - 1 <? 0) eqn:E; [done|lia].
  - intros Hd Hty. unfold snakeToHump, humpToSnake, cloneDeep.
    by rewrite !rename_primitive.
Qed.

Lemma spent_budget_returns_undefined_witness :
  snakeToHump snake_payload 0 = VUndef
  ∧ humpToSnake (VStr "user_id") 3 = VStr "user_id".
Proof.
  split.
  - apply (spent_budget_returns_undefined snake_payload 0). lia.
  - apply (spent_budget_returns_undefined (VStr "user_id") 3); [lia|reflexivity].
Defined.





(** X4.  Two keys that meet lose a property: when two different keys of
    an object with distinct keys are given the same new key, the result
    has fewer properties than the input, and no error is raised. *)
Theorem keys_that_meet_lose_a_property (props : obj) (depth : Z) (k1 k2 : string) :
  0 < depth → distinct (keys props) = true →
  k1 ∈ keys props → k2 ∈ keys props → k1 ≠ k2 →
  (Lodash.camelCase k1 = Lodash.camelCase k2 →
   ∃ props', snakeToHump (VObj props) depth = VObj props'
             ∧ (length props' < length props)%nat)
  ∧ (Lodash.snakeCase k1 = Lodash.snakeCase k2 →
     ∃ props', humpToSnake (VObj props) depth = VObj props'
               ∧ (length props' < length props)%nat).
Proof.
  intros Hd Hnd%distinct_NoDup H1 H2 Hne. unfold snakeToHump, humpToSnake, cloneDeep.
  split; intros Heq; by apply (rename_obj_meeting _ props depth k1 k2).
Qed.

Lemma keys_that_meet_lose_a_property_witness :
  ∃ props',
    snakeToHump (VObj [("a_b", VNum 1); ("aB", VNum 2)]) default_depth = VObj props'
    ∧ (length props' < 2)%nat.
Proof.
  destruct (keys_that_meet_lose_a_property [("a_b", VNum 1); ("aB", VNum 2)]
              default_depth "a_b" "aB") as [Hcamel _];
    [reflexivity | reflexivity | apply list_elem_of_In; simpl; auto
    | apply list_elem_of_In; simpl; auto | discriminate |].
  apply Hcamel. vm_compute. reflexivity.
Defined.



(** X6.  A budget that reaches the bottom of a value gives what any other
    such budget gives: for a value nested no deeper than both budgets the
    two results are the same, so that the default budget of 10 is as good
    as any larger one for a value at most 10 levels deep. *)
Theorem budget_beyond_the_nesting_changes_nothing (x : value) (depth depth' : Z) :
  0 < depth → 0 < depth' →
  Z.of_nat (height x) ≤ depth → Z.of_nat (height x) ≤ depth' →
  snakeToHump x depth = snakeToHump x depth'
  ∧ humpToSnake x depth = humpToSnake x depth'.
Proof.
  intros Hd Hd' Hh Hh'. unfold snakeToHump, humpToSnake, cloneDeep.
  split; by apply rename_budget.
Qed.

Lemma budget_beyond_the_nesting_changes_nothing_witness :
  snakeToHump snake_nested 4 = snakeToHump snake_nested default_depth.
Proof.
  apply (budget_beyond_the_nesting_changes_nothing snake_nested 4 default_depth);
    [lia | reflexivity | simpl; lia | simpl; unfold default_depth; lia].
Defined.

(** X7.  When the budget reaches every object of a well-formed value (one
    level for each object on the way down, and the default budget again
    for the elements of an array), every key of every object of the
    result is a key that the conversion gives: none is left as the input
    had it unless the conversion gives that very key. *)
Theorem keys_within_the_budget_are_all_converted (x : value) (depth : Z) :
  wf x = true → within_budget x depth = true →
  every_key (converted Lodash.camelCase) (snakeToHump x depth)
  ∧ every_key (converted Lodash.snakeCase) (humpToSnake x depth).
Proof.
  intros Hwf Hb. unfold snakeToHump, humpToSnake, cloneDeep.
  split; by apply rename_converts.
Qed.

Lemma keys_within_the_budget_are_all_converted_witness :
  every_key (converted Lodash.camelCase) (snakeToHump snake_nested default_depth).
Proof.
  apply (keys_within_the_budget_are_all_converted snake_nested default_depth);
    vm_compute; reflexivity.
Defined.

(** ** The private functions on any store *)

Section AnyStore.

Variable newKeyOf : string → string.

Lemma arrays_kept_refl h : arrays_kept h h.
Proof. by split. Qed.

Lemma for_in_step_arrays h0 (recur : list Heap.cell → Heap.jsval → option (list Heap.cell)) l :
  (∀ h v h', arrays_kept h0 h → recur h v = Some h' → arrays_kept h0 h') →
  ∀ h key h', arrays_kept h0 h →
    Heap.for_in_step newKeyOf recur l h key = Some h' → arrays_kept h0 h'.
Proof.
  intros Hrec h key h' Hk. unfold Heap.for_in_step.
  destruct (h !! l) as [[items|target]|] eqn:El; [done| |done].
  destruct (obj_has target key); [|by intros [= <-]].
  set (target' := if String.eqb key (newKeyOf key) then target else _).
  assert (arrays_kept h0 (<[l := Heap.CObj target']> h)) as Hk'.
  { destruct Hk as [Hlen Harr]. split; [by rewrite length_insert|].
    intros l' items Hl'. rewrite list_lookup_insert_ne; [auto|].
    intros <-. rewrite (Harr _ _ Hl') in El. done. }
  destruct (Heap.typeof_object _); [|by intros [= <-]].
  by apply Hrec.
Qed.

Lemma _rename_arrays h0 (fuel : nat) :
  ∀ h target depth h' result,
    arrays_kept h0 h →
    Heap._rename newKeyOf fuel h target depth = Some (h', result) →
    arrays_kept h0 h' ∧ result = (if 0 <? depth then target else Heap.JUndef).
Proof.
  induction fuel as [|fuel IH]; intros h target depth h' result Hk; [done|].
  simpl.
  destruct (depth - 1 <? 0) eqn:Hd.
  { intros [= <- <-]. split; [done|]. destruct (0 <? depth) eqn:Hd'; [lia|done]. }
  assert ((0 <? depth) = true) as -> by lia.
  assert (∀ d h v h', arrays_kept h0 h →
            fst <$> Heap._rename newKeyOf fuel h v d = Some h' → arrays_kept h0 h')
    as Hrec.
  { intros d h1 v h1' Hk1.
    destruct (Heap._rename newKeyOf fuel h1 v d) as [[h2 r]|] eqn:E; [|done].
    intros [= <-]. by eapply IH. }
  destruct target as [| | | | |l]; try by intros [= <- <-].
  destruct (h !! l) as [[items|props]|] eqn:El; [| |done].
  - destruct (Heap.forEach _ items h) as [h1|] eqn:E; simpl; [|done].
    intros [= <- <-]. split; [|done]. unfold Heap.forEach in E.
    eapply (foldl_option_inv (arrays_kept h0) (fun _ => True)) in E; [done| | |done].
    + intros a item a' Ha _. by apply Hrec.
    + by apply Forall_forall.
  - destruct (Heap.for_in _ _ l _ h) as [h1|] eqn:E; simpl; [|done].
    intros [= <- <-]. split; [|done]. unfold Heap.for_in in E.
    eapply (foldl_option_inv (arrays_kept h0) (fun _ => True)) in E; [done| | |done].
    + intros a key a' Ha _. apply for_in_step_arrays; [|done]. apply Hrec.
    + by apply Forall_forall.
Qed.

Lemma foldl_bind_None {A B : Type} (step : A → B → option A) (bs : list B) :
  foldl (fun acc b => a ← acc; step a b) None bs = None.
Proof. induction bs as [|b bs IH]; simpl; [done|apply IH]. Qed.

(** The loop over an array that holds an element on which the call does
    not return. *)
Lemma forEach_None (P : list Heap.cell → Prop)
    (recur : list Heap.cell → Heap.jsval → option (list Heap.cell)) (x : Heap.jsval) :
  (∀ h, P h → recur h x = None) →
  (∀ h y h', P h → recur h y = Some h' → P h') →
  ∀ pre post h, P h → Heap.forEach recur (pre ++ x :: post) h = None.
Proof.
  intros Hx Hstep pre post. unfold Heap.forEach.
  induction pre as [|y pre IH]; intros h Hh; simpl.
  - rewrite (Hx h Hh). apply foldl_bind_None.
  - destruct (recur h y) as [h'|] eqn:E; [|apply foldl_bind_None].
    apply IH. by eapply Hstep.
Qed.

Lemma _rename_self_array (l : nat) (items : list Heap.jsval) (fuel : nat) :
  Heap.JRef l ∈ items →
  ∀ h depth, h !! l = Some (Heap.CArr items) → 0 < depth →
    Heap._rename newKeyOf fuel h (Heap.JRef l) depth = None.
Proof.
  intros (pre & post & ->)%list_elem_of_split.
  induction fuel as [|fuel IH]; intros h depth Hl Hd; [done|].
  simpl. destruct (depth - 1 <? 0) eqn:E; [lia|]. rewrite Hl.
  rewrite (forEach_None (arrays_kept h)); [done| | |apply arrays_kept_refl].
  - intros h1 [_ Hk]. rewrite IH; [done|by apply Hk|done].
  - intros h1 y h2 Hk.
    destruct (Heap._rename newKeyOf fuel h1 y default_depth) as [[h3 r]|] eqn:E1; [|done].
    intros [= <-]. by eapply _rename_arrays.
Qed.

Lemma foldl_option_total {A B : Type} (P : A → Prop) (step : A → B → option A) :
  (∀ a b, P a → ∃ a', step a b = Some a' ∧ P a') →
  ∀ (bs : list B) a, P a →
    ∃ a', foldl (fun acc b => a ← acc; step a b) (Some a) bs = Some a' ∧ P a'.
Proof.
  intros Hstep bs. induction bs as [|b bs IH]; intros a Ha; simpl; [by eauto|].
  destruct (Hstep a b Ha) as (a1 & -> & Ha1). simpl. by apply IH.
Qed.

Lemma valid_ref_obj_get h (o : properties Heap.jsval) k :
  Forall (fun kv => valid_ref h (snd kv)) o → valid_ref h (Heap.obj_get o k).
Proof.
  intros Ho. unfold Heap.obj_get.
  destruct (obj_lookup o k) as [v|] eqn:E; simpl; [|done].
  apply obj_lookup_In in E.
  by eapply (proj1 (Forall_forall _ _)) in Ho; [|exact E].
Qed.

Lemma objects_only_insert h l props :
  objects_only h → Forall (fun kv => valid_ref h (snd kv)) props →
  objects_only (<[l := Heap.CObj props]> h).
Proof.
  intros Ho Hp.
  assert (∀ v, valid_ref h v → valid_ref (<[l := Heap.CObj props]> h) v) as Hv.
  { intros [| | | | |x]; simpl; try done. by rewrite length_insert. }
  intros l' c. destruct (decide (l = l')) as [<-|Hne].
  - intros Hc. assert (l < length h)%nat as Hlt.
    { apply lookup_lt_Some in Hc. by rewrite length_insert in Hc. }
    rewrite list_lookup_insert_eq in Hc by done. injection Hc as <-.
    exists props. split; [done|]. eapply Forall_impl; [exact Hp|]. intros kv. apply Hv.
  - rewrite list_lookup_insert_ne by done. intros Hc.
    destruct (Ho _ _ Hc) as (props' & -> & Hp'). exists props'. split; [done|].
    eapply Forall_impl; [exact Hp'|]. intros kv. apply Hv.
Qed.

(** In a store of objects only the budget ends the recursion, whatever the
    references: the call returns once the fuel exceeds the budget. *)
Lemma _rename_objects_only (fuel : nat) :
  ∀ h target depth,
    objects_only h → valid_ref h target → (0 < fuel)%nat → depth < Z.of_nat fuel →
    ∃ h' result, Heap._rename newKeyOf fuel h target depth = Some (h', result)
      ∧ objects_only h' ∧ length h' = length h.
Proof.
  induction fuel as [|fuel IH]; intros h target depth Ho Hv Hpos Hfuel; [lia|].
  simpl. destruct (depth - 1 <? 0) eqn:Hd; [by eauto|].
  destruct target as [| | | | |l]; try by eauto.
  simpl in Hv. destruct (lookup_lt_is_Some_2 h l Hv) as [c Hc].
  destruct (Ho _ _ Hc) as (props & -> & Hprops). rewrite Hc.
  destruct (foldl_option_total
              (fun h1 : list Heap.cell => objects_only h1 ∧ length h1 = length h)
              (Heap.for_in_step newKeyOf
                 (fun h v => fst <$> Heap._rename newKeyOf fuel h v (depth - 1)) l))
    with (bs := keys props) (a := h) as (h' & E & Ho' & Hlen'); [|by split|].
  - intros h1 key [Ho1 Hlen1]. unfold Heap.for_in_step.
    assert (l < length h1)%nat as Hl1 by lia.
    destruct (lookup_lt_is_Some_2 h1 l Hl1) as [c1 Hc1].
    destruct (Ho1 _ _ Hc1) as (target & -> & Htarget). rewrite Hc1.
    destruct (obj_has target key); [|by exists h1].
    set (target' := if String.eqb key (newKeyOf key) then target else _).
    assert (Forall (fun kv => valid_ref h1 (snd kv)) target') as Htarget'.
    { subst target'. destruct (String.eqb key (newKeyOf key)); [done|].
      apply Forall_obj_delete, Forall_obj_set; [done|]. by apply valid_ref_obj_get. }
    pose proof (objects_only_insert h1 l target' Ho1 Htarget') as Ho2.
    destruct (Heap.typeof_object _).
    + destruct (IH (<[l := Heap.CObj target']> h1)
                   (Heap.obj_get target' (newKeyOf key)) (depth - 1))
        as (h2 & r & -> & Ho3 & Hlen3); [done| |lia|lia|].
      { pose proof (valid_ref_obj_get h1 target' (newKeyOf key) Htarget') as Hg.
        destruct (Heap.obj_get target' (newKeyOf key)); simpl in *; try done.
        by rewrite length_insert. }
      simpl. eexists; split; [done|]. split; [done|].
      rewrite Hlen3, length_insert. done.
    + eexists; split; [done|]. split; [done|]. by rewrite length_insert.
  - unfold Heap.for_in. rewrite E. simpl. by eauto.
Qed.

End AnyStore.

(** ** The copy of any store *)

Section CloneAny.

Lemma lookup_assignValue_ne (h : list Heap.cell) l key v x :
  x ≠ l → Heap.assignValue h l key v !! x = h !! x.
Proof.
  intros Hne. unfold Heap.assignValue.
  destruct (h !! l) as [[?|?]|], key; try done; by rewrite list_lookup_insert_ne.
Qed.

Lemma foldl_clone_each_None clone result (entries : list ((nat + string) * Heap.jsval)) :
  foldl (Heap.clone_each clone result) None entries = None.
Proof. induction entries as [|e es IH]; simpl; [done|apply IH]. Qed.

Lemma clone_each_inv (P : list Heap.cell * list (nat * nat) → Prop)
    (Q : (nat + string) * Heap.jsval → Prop) clone (result : nat) :
  (∀ h stack key v h1 stack1 v1,
     P (h, stack) → Q (key, v) → clone h stack v = Some (h1, stack1, v1) →
     P (Heap.assignValue h1 result key v1, stack1)) →
  ∀ entries st st',
    Forall Q entries → P st →
    foldl (Heap.clone_each clone result) (Some st) entries = Some st' → P st'.
Proof.
  intros Hstep entries.
  induction entries as [|[key v] entries IH]; intros [h stack] st' HQ HP.
  - by intros [= <-].
  - apply Forall_cons in HQ as [Hq HQ]. cbn [foldl].
    destruct (clone h stack v) as [[[h1 stack1] v1]|] eqn:E.
    + rewrite (clone_each_step _ _ _ _ _ _ _ _ _ E). apply IH; [done|].
      by eapply Hstep.
    + assert (Heap.clone_each clone result (Some (h, stack)) (key, v) = None) as ->.
      { unfold Heap.clone_each. simpl. by rewrite E. }
      by rewrite foldl_clone_each_None.
Qed.

(** A copy leaves the cells that were there as they are and the entries
    of the stack as they are. *)
Lemma baseClone_mono (fuel : nat) :
  ∀ h stack v h' stack' v',
    Heap.baseClone fuel h stack v = Some (h', stack', v') →
    (length h ≤ length h')%nat
    ∧ (∀ x, (x < length h)%nat → h' !! x = h !! x)
    ∧ (∀ k r, Heap.stack_get stack k = Some r → Heap.stack_get stack' k = Some r).
Proof.
  induction fuel as [|fuel IH]; intros h stack v h' stack' v'; [done|].
  simpl. destruct v as [| | | | |l]; try by intros [= <- <- <-].
  destruct (Heap.stack_get stack l) as [l'|] eqn:Eget; [by intros [= <- <- <-]|].
  set (P := fun st : list Heap.cell * list (nat * nat) =>
              (length h < length (fst st))%nat
              ∧ (∀ x, (x < length h)%nat → fst st !! x = h !! x)
              ∧ (∀ k r, Heap.stack_get stack k = Some r
                        → Heap.stack_get (snd st) k = Some r)).
  assert (∀ c, P (h ++ [c], (l, length h) :: stack)) as Hstart.
  { intros c. split; [|split]; simpl.
    - rewrite length_app. simpl. lia.
    - intros x Hx. by apply lookup_app_l.
    - intros k r Hk. destruct (l =? k)%nat eqn:E; [|done].
      apply Nat.eqb_eq in E as ->. congruence. }
  assert (∀ entries st st',
            P st →
            foldl (Heap.clone_each (Heap.baseClone fuel) (length h)) (Some st) entries
            = Some st' → P st') as Hloop.
  { intros entries st st' HP.
    apply (clone_each_inv P (fun _ => True)); [|by apply Forall_forall|done].
    intros h1 stack1 key v h2 stack2 v2 (Hlen1 & Hold1 & Hst1) _ E. simpl in *.
    apply IH in E as (Hlen2 & Hold2 & Hst2).
    split; [|split]; simpl.
    - rewrite length_assignValue. lia.
    - intros x Hx. rewrite lookup_assignValue_ne by lia.
      rewrite Hold2 by lia. auto.
    - auto. }
  destruct (h !! l) as [[items|props]|] eqn:El; [| |done].
  - match goal with |- context [foldl ?f ?a ?es] =>
      change (foldl f a es) with
        (foldl (Heap.clone_each (Heap.baseClone fuel) (length h)) a es);
      destruct (foldl (Heap.clone_each (Heap.baseClone fuel) (length h)) a es)
        as [[h1 stack1]|] eqn:E end; simpl; [|done].
    intros [= <- <- <-]. apply Hloop in E as (? & ? & ?); [|apply Hstart].
    simpl in *. split; [lia|done].
  - match goal with |- context [foldl ?f ?a ?es] =>
      change (foldl f a es) with
        (foldl (Heap.clone_each (Heap.baseClone fuel) (length h)) a es);
      destruct (foldl (Heap.clone_each (Heap.baseClone fuel) (length h)) a es)
        as [[h1 stack1]|] eqn:E end; simpl; [|done].
    intros [= <- <- <-]. apply Hloop in E as (? & ? & ?); [|apply Hstart].
    simpl in *. split; [lia|done].
Qed.

(** The copy of an array that holds itself holds itself. *)
Lemma cloneDeep_self_array (fuel : nat) (h : list Heap.cell) (l : nat)
    (items : list Heap.jsval) h' v' :
  h !! l = Some (Heap.CArr items) → Heap.JRef l ∈ items →
  Heap.cloneDeep fuel h (Heap.JRef l) = Some (h', v') →
  ∃ r items', v' = Heap.JRef r ∧ h' !! r = Some (Heap.CArr items')
              ∧ Heap.JRef r ∈ items'.
Proof.
  intros Hl (pre & post & ->)%list_elem_of_split. unfold Heap.cloneDeep.
  destruct fuel as [|fuel]; [done|]. simpl. rewrite Hl.
  set (result := length h).
  set (i0 := length pre).
  match goal with |- context [foldl ?f ?a ?es] =>
    change (foldl f a es) with
      (foldl (Heap.clone_each (Heap.baseClone fuel) result) a es) end.
  rewrite imap_app, foldl_app. rewrite imap_cons. cbn [foldl].
  set (start := (h ++ [Heap.CArr (replicate (length (pre ++ Heap.JRef l :: post)) Heap.JUndef)],
                 [(l, result)])).
  set (PA := fun st : list Heap.cell * list (nat * nat) =>
               Heap.stack_get (snd st) l = Some result
               ∧ ∃ cur, fst st !! result = Some (Heap.CArr cur) ∧ (i0 < length cur)%nat).
  assert (PA start) as Hstart.
  { split; simpl; [by rewrite Nat.eqb_refl|].
    eexists. split.
    - rewrite lookup_app_r by done. subst result. by rewrite Nat.sub_diag.
    - rewrite length_replicate, length_app. simpl. subst i0. lia. }
  assert (∀ entries st st',
            PA st →
            foldl (Heap.clone_each (Heap.baseClone fuel) result) (Some st) entries
            = Some st' → PA st') as HloopA.
  { intros entries st st' HP.
    apply (clone_each_inv PA (fun _ => True)); [|by apply Forall_forall|done].
    intros h1 stack1 key v h2 stack2 v2 (Hst1 & cur & Hcur & Hlen) _ E. simpl in *.
    apply baseClone_mono in E as (Hlen2 & Hold2 & Hst2).
    assert (result < length h1)%nat as Hres by (by apply lookup_lt_Some in Hcur).
    split; simpl; [auto|].
    unfold Heap.assignValue. rewrite Hold2, Hcur by done.
    destruct key as [i|k].
    - exists (<[i := v2]> cur). rewrite length_insert. split; [|done].
      apply list_lookup_insert_eq. lia.
    - exists cur. split; [|done]. by rewrite Hold2. }
  destruct (foldl (Heap.clone_each (Heap.baseClone fuel) result) (Some start)
              (imap (fun i x => (inl i, x)) pre)) as [[h1 stack1]|] eqn:EA.
  2:{ simpl. by rewrite foldl_clone_each_None. }
  apply HloopA in EA as (Hst1 & cur & Hcur & Hlen); [|done]. simpl in Hst1, Hcur.
  assert (result < length h1)%nat as Hres by (by apply lookup_lt_Some in Hcur).
  destruct fuel as [|fuel].
  { simpl. by rewrite foldl_clone_each_None. }
  assert (Heap.clone_each (Heap.baseClone (S fuel)) result (Some (h1, stack1))
            (inl (i0 + 0)%nat, Heap.JRef l)
          = Some (<[result := Heap.CArr (<[i0 := Heap.JRef result]> cur)]> h1, stack1))
    as Estep.
  { unfold Heap.clone_each. simpl. rewrite Hst1. simpl.
    unfold Heap.assignValue. rewrite Hcur. by rewrite Nat.add_0_r. }
  change (length pre + 0)%nat with (i0 + 0)%nat. rewrite Estep.
  set (PB := fun st : list Heap.cell * list (nat * nat) =>
               ∃ cur, fst st !! result = Some (Heap.CArr cur)
                      ∧ cur !! i0 = Some (Heap.JRef result)).
  match goal with |- context [foldl ?f (Some ?a) ?es] =>
    destruct (foldl f (Some a) es) as [[h2 stack2]|] eqn:EB end; simpl; [|done].
  intros [= <- <-].
  apply (clone_each_inv PB (fun e => fst e ≠ inl i0)) in EB.
  - destruct EB as (cur' & Hcur' & Hi0). simpl in Hcur'.
    exists result, cur'. split; [done|]. split; [done|].
    by apply list_elem_of_lookup_2 in Hi0.
  - intros h3 stack3 key v h4 stack4 v4 (cur3 & Hcur3 & Hi3) Hkey E.
    cbn [fst snd] in *.
    apply baseClone_mono in E as (Hlen4 & Hold4 & Hst4).
    assert (result < length h3)%nat as Hres3 by (by apply lookup_lt_Some in Hcur3).
    unfold Heap.assignValue. rewrite Hold4, Hcur3 by done.
    destruct key as [i|k].
    + exists (<[i := v4]> cur3). split.
      * apply list_lookup_insert_eq. lia.
      * rewrite list_lookup_insert_ne; [done|]. intros ->. done.
    + exists cur3. split; [|done]. by rewrite Hold4.
  - apply Forall_forall. intros e Hin.
    apply list_elem_of_lookup in Hin as [j Hj].
    rewrite list_lookup_imap in Hj.
    destruct (post !! j); simpl in Hj; [|done]. injection Hj as <-. simpl.
    intros [= E]. subst i0. lia.
  - eexists. split; simpl.
    + apply list_lookup_insert_eq. lia.
    + apply list_lookup_insert_eq. lia.
Qed.

End CloneAny.

(** ** The copy of a store of objects only *)

Section CloneObjects.

Lemma unvisited_mono (s s' : list (nat * nat)) (n : nat) :
  (∀ k r, Heap.stack_get s k = Some r → is_Some (Heap.stack_get s' k)) →
  (unvisited s' n ≤ unvisited s n)%nat.
Proof.
  intros Hsub. induction n as [|n IH]; simpl; [done|].
  destruct (Heap.stack_get s n) as [r|] eqn:E.
  - destruct (Hsub n r E) as [r' ->]. lia.
  - destruct (Heap.stack_get s' n); lia.
Qed.

Lemma unvisited_push (s : list (nat * nat)) (l r n : nat) :
  Heap.stack_get s l = None → (l < n)%nat →
  (unvisited ((l, r) :: s) n < unvisited s n)%nat.
Proof.
  intros Hl. induction n as [|n IH]; [lia|]. intros Hlt. simpl.
  destruct (decide (l = n)) as [->|Hne].
  - rewrite Nat.eqb_refl, Hl.
    pose proof (unvisited_mono s ((n, r) :: s) n) as Hle.
    assert (unvisited ((n, r) :: s) n ≤ unvisited s n)%nat; [|lia].
    apply Hle. intros k r' Hk. simpl. destruct (n =? k)%nat; by eauto.
  - apply Nat.eqb_neq in Hne as Hne'. rewrite Hne'.
    specialize (IH ltac:(lia)). destruct (Heap.stack_get s n); lia.
Qed.

Lemma valid_ref_mono (h h' : list Heap.cell) v :
  (length h ≤ length h')%nat → valid_ref h v → valid_ref h' v.
Proof. destruct v; simpl; try done. lia. Qed.

Lemma objects_only_alloc (h : list Heap.cell) :
  objects_only h → objects_only (h ++ [Heap.CObj []]).
Proof.
  intros Ho l c [[Hl Hc]|[Hl <-]]%lookup_snoc_Some.
  - destruct (Ho _ _ Hc) as (props & -> & Hp). exists props. split; [done|].
    eapply Forall_impl; [exact Hp|]. intros kv. apply valid_ref_mono.
    rewrite length_app. lia.
  - exists []. by split.
Qed.

Lemma clone_each_total (P : list Heap.cell * list (nat * nat) → Prop)
    (Q : (nat + string) * Heap.jsval → Prop) clone (result : nat) :
  (∀ st e, P st → Q e → ∃ st', Heap.clone_each clone result (Some st) e = Some st' ∧ P st') →
  ∀ entries st,
    Forall Q entries → P st →
    ∃ st', foldl (Heap.clone_each clone result) (Some st) entries = Some st' ∧ P st'.
Proof.
  intros Hstep entries. induction entries as [|e entries IH]; intros st HQ HP.
  - by exists st.
  - apply Forall_cons in HQ as [Hq HQ]. cbn [foldl].
    destruct (Hstep st e HP Hq) as (st1 & -> & HP1). by apply IH.
Qed.

Variable h0 : list Heap.cell.
Hypothesis Hh0 : objects_only h0.

(** The store and the stack while [h0] is copied: the cells of [h0] are
    as they were, every cell is an object, and the stack hands out
    references to cells. *)
Let copying (st : list Heap.cell * list (nat * nat)) : Prop :=
  (length h0 ≤ length (fst st))%nat
  ∧ (∀ x, (x < length h0)%nat → fst st !! x = h0 !! x)
  ∧ objects_only (fst st)
  ∧ (∀ k r, Heap.stack_get (snd st) k = Some r → (r < length (fst st))%nat).

Lemma baseClone_objects_total (fuel : nat) :
  ∀ h stack v,
    copying (h, stack) → valid_ref h0 v → (unvisited stack (length h0) < fuel)%nat →
    ∃ h' stack' v',
      Heap.baseClone fuel h stack v = Some (h', stack', v')
      ∧ copying (h', stack') ∧ valid_ref h' v'.
Proof.
  induction fuel as [|fuel IH]; intros h stack v Hc Hv Hfuel; [lia|].
  simpl. destruct v as [| | | | |l]; try by eauto 10.
  destruct (Heap.stack_get stack l) as [l'|] eqn:Eget.
  { exists h, stack, (Heap.JRef l'). split; [done|]. split; [done|].
    simpl. by apply (proj2 (proj2 (proj2 Hc)) l). }
  destruct Hc as (Hlen & Hold & Ho & Hst). simpl in Hlen, Hold, Ho, Hst, Hv.
  destruct (lookup_lt_is_Some_2 h0 l Hv) as [c Hc0].
  destruct (Hh0 _ _ Hc0) as (props & -> & Hprops).
  rewrite (Hold l Hv), Hc0.
  set (result := length h).
  set (LI := fun st : list Heap.cell * list (nat * nat) =>
               copying st ∧ (result < length (fst st))%nat
               ∧ (unvisited (snd st) (length h0) < fuel)%nat).
  match goal with |- context [foldl ?f ?a ?es] =>
    change (foldl f a es) with
      (foldl (Heap.clone_each (Heap.baseClone fuel) result) a es) end.
  destruct (clone_each_total LI (fun e => valid_ref h0 (snd e))
              (Heap.baseClone fuel) result)
    with (entries := prod_map (@inr nat string) id <$> props)
         (st := (h ++ [Heap.CObj []], (l, result) :: stack))
    as ([h1 stack1] & -> & (Hc1 & Hres1 & _)).
  - intros [h1 stack1] [key x] (Hc1 & Hres1 & Hun1) Hx. cbn [fst snd] in *.
    destruct (IH h1 stack1 x Hc1 Hx Hun1) as (h2 & stack2 & v2 & E & Hc2 & Hv2).
    rewrite (clone_each_step _ _ _ _ _ _ _ _ _ E).
    apply baseClone_mono in E as (Hlen2 & Hold2 & Hst2).
    destruct Hc2 as (Hlen2' & Hold2' & Ho2 & Hst2'). cbn [fst snd] in *.
    assert (result < length h2)%nat as Hres2 by lia.
    destruct (lookup_lt_is_Some_2 h2 result Hres2) as [c2 Hcell2].
    destruct (Ho2 _ _ Hcell2) as (cur & -> & Hcur).
    eexists. split; [done|].
    assert (∀ k' y, Heap.assignValue h2 result k' y = h2
                    ∨ ∃ k'', k' = inr k''
                        ∧ Heap.assignValue h2 result k' y
                          = <[result := Heap.CObj (obj_set cur k'' y)]> h2) as Hassign.
    { intros k' y. unfold Heap.assignValue. rewrite Hcell2.
      destruct k' as [i|k'']; [by left|right]. by exists k''. }
    assert (length (Heap.assignValue h2 result key v2) = length h2) as Hlen3
      by apply length_assignValue.
    split; [split; [|split; [|split]]|split]; cbn [fst snd].
    + lia.
    + intros y Hy. rewrite lookup_assignValue_ne by (subst result; lia). auto.
    + destruct (Hassign key v2) as [->|(k'' & _ & ->)]; [done|].
      apply objects_only_insert; [done|]. by apply Forall_obj_set.
    + intros k r Hk. rewrite Hlen3. eauto.
    + lia.
    + eapply Nat.le_lt_trans; [|exact Hun1].
      apply unvisited_mono. intros k r Hk. by eauto.
  - apply Forall_forall. intros [key x] ([k y] & [= -> ->] & Hin)%list_elem_of_fmap.
    simpl. rewrite Forall_forall in Hprops. by apply (Hprops (k, y)).
  - assert (length (h ++ [Heap.CObj []]) = S (length h)) as Hlen1.
    { rewrite length_app. simpl. lia. }
    split; [split; [|split; [|split]]|split]; cbn [fst snd].
    + lia.
    + intros y Hy. rewrite lookup_app_l by lia. auto.
    + by apply objects_only_alloc.
    + intros k r. simpl. destruct (l =? k)%nat.
      * intros [= <-]. subst result. lia.
      * intros Hk%Hst. lia.
    + subst result. lia.
    + pose proof (unvisited_push stack l result (length h0) Eget Hv). lia.
  - simpl. exists h1, stack1, (Heap.JRef result). split; [done|]. split; [done|].
    done.
Qed.

End CloneObjects.

(** ** The transformer on the store *)

(** X8.  On a well-formed value laid out as a tree in the store,
    [snakeToHump] and [humpToSnake] return as soon as the fuel exceeds the
    height of the value, and what they return is the result of the
    function on values, laid out as a tree in cells that the call has
    created: the result shares no cell with the input. *)
Theorem public_functions_return_a_new_tree (fuel : nat) (h : list Heap.cell)
    (v : Heap.jsval) (t : value) (fp : list nat) (depth : Z) :
  Heap.lays h v t fp → wf t = true → (height t < fuel)%nat →
  (∃ h' r fp',
     Heap.snakeToHump fuel h v depth = Some (h', r)
     ∧ Heap.lays h' r (snakeToHump t depth) fp'
     ∧ (∀ l, l ∈ fp' → (length h ≤ l)%nat)
     ∧ Heap.read fuel h' r = Some (snakeToHump t depth))
  ∧ (∃ h' r fp',
       Heap.humpToSnake fuel h v depth = Some (h', r)
       ∧ Heap.lays h' r (humpToSnake t depth) fp'
       ∧ (∀ l, l ∈ fp' → (length h ≤ l)%nat)
       ∧ Heap.read fuel h' r = Some (humpToSnake t depth)).
Proof.
  intros Hl Hwf Hh.
  split; [exact (store_transform_agrees Lodash.camelCase fuel h v t fp depth Hl Hwf Hh)
         |exact (store_transform_agrees Lodash.snakeCase fuel h v t fp depth Hl Hwf Hh)].
Qed.

Lemma public_functions_return_a_new_tree_witness :
  ∃ h' r fp',
    Heap.snakeToHump 5 [Heap.CObj [("a_b", Heap.JRef 1)]; Heap.CArr [Heap.JNum 1]]
                     (Heap.JRef 0) default_depth = Some (h', r)
    ∧ Heap.lays h' r (snakeToHump (VObj [("a_b", VArr [VNum 1])]) default_depth) fp'
    ∧ (∀ l, l ∈ fp' → (2 ≤ l)%nat)
    ∧ Heap.read 5 h' r = Some (snakeToHump (VObj [("a_b", VArr [VNum 1])]) default_depth).
Proof.
  destruct (public_functions_return_a_new_tree 5
              [Heap.CObj [("a_b", Heap.JRef 1)]; Heap.CArr [Heap.JNum 1]]
              (Heap.JRef 0) (VObj [("a_b", VArr [VNum 1])]) [0; 1]%nat default_depth)
    as [Hcamel _]; [|reflexivity|simpl; lia|exact Hcamel].
  apply (Heap.lays_obj _ 0%nat [("a_b", Heap.JRef 1)] [("a_b", VArr [VNum 1])]
           [("a_b", [1%nat])]); [reflexivity| |].
  - repeat constructor.
    apply (Heap.lays_arr _ 1%nat [Heap.JNum 1] [VNum 1] [[]]); [reflexivity| |].
    + repeat constructor.
    + apply NoDup_singleton.
  - apply NoDup_cons. split; [|apply NoDup_singleton].
    intros Hin%list_elem_of_singleton. discriminate.
Defined.

(** X9.  The private function converts in place: on a value laid out as
    a tree it returns the very reference it was given (for a positive
    budget), which then holds the result of the function on values; it
    creates no cell and writes to cells of the tree of its argument
    only. *)
Theorem private_functions_convert_in_place (newKeyOf : string → string)
    (fuel : nat) (h : list Heap.cell) (v : Heap.jsval) (t : value)
    (fp : list nat) (depth : Z) :
  Heap.lays h v t fp → (height t < fuel)%nat → 0 < depth →
  ∃ h' fp',
    Heap._rename newKeyOf fuel h v depth = Some (h', v)
    ∧ Heap.lays h' v (rename newKeyOf t depth) fp'
    ∧ fp' ⊆+ fp
    ∧ length h' = length h
    ∧ ∀ l, l ∉ fp → h' !! l = h !! l.
Proof.
  intros Hl Hh Hd.
  destruct (_rename_total newKeyOf fuel t depth Hh) as (r & t' & Et & _ & Hr).
  destruct (store_rename_agrees newKeyOf fuel h v t fp depth r t' Hl Et)
    as (h' & fp' & E & Hl' & Hsub & Hlen & Hk).
  rewrite (rename_eq _ _ _ _ _ _ Et), Hr.
  destruct (depth - 1 <? 0) eqn:Hlt; [lia|].
  by exists h', fp'.
Qed.

Lemma private_functions_convert_in_place_witness :
  ∃ h' fp',
    Heap._rename Lodash.camelCase 5
      [Heap.CObj [("a_b", Heap.JNum 1)]] (Heap.JRef 0) default_depth
    = Some (h', Heap.JRef 0)
    ∧ Heap.lays h' (Heap.JRef 0)
        (rename Lodash.camelCase (VObj [("a_b", VNum 1)]) default_depth) fp'.
Proof.
  destruct (private_functions_convert_in_place Lodash.camelCase 5
              [Heap.CObj [("a_b", Heap.JNum 1)]] (Heap.JRef 0)
              (VObj [("a_b", VNum 1)]) [0%nat] default_depth)
    as (h' & fp' & E & Hl & _); [|simpl; lia|reflexivity|by exists h', fp'].
  apply (Heap.lays_obj _ 0%nat [("a_b", Heap.JNum 1)] [("a_b", VNum 1)] [("a_b", [])]);
    [reflexivity| |apply NoDup_singleton].
  repeat constructor.
Defined.

(** X10.  On any store, shared or cyclic, a call of the private function
    that returns has created no cell and has written to no array: every
    array holds the elements it held, in the same order; and what it
    returns is its argument, or [undefined] when the budget was spent. *)
Theorem private_functions_never_write_to_an_array (newKeyOf : string → string)
    (fuel : nat) (h : list Heap.cell) (target : Heap.jsval) (depth : Z)
    (h' : list Heap.cell) (result : Heap.jsval) :
  Heap._rename newKeyOf fuel h target depth = Some (h', result) →
  length h' = length h
  ∧ (∀ l items, h !! l = Some (Heap.CArr items) → h' !! l = Some (Heap.CArr items))
  ∧ result = (if 0 <? depth then target else Heap.JUndef).
Proof.
  intros E.
  destruct (_rename_arrays newKeyOf h fuel h target depth h' result
              (arrays_kept_refl h) E) as [[Hlen Harr] Hr].
  done.
Qed.

Lemma private_functions_never_write_to_an_array_witness :
  ∃ h',
    Heap._rename Lodash.camelCase 20 sample_heap (Heap.JRef 0) default_depth
    = Some (h', Heap.JRef 0)
    ∧ h' !! 1%nat = Some (Heap.CArr [Heap.JRef 2; Heap.JNum 1; Heap.JRef 2]).
Proof.
  destruct (Heap._rename Lodash.camelCase 20 sample_heap (Heap.JRef 0) default_depth)
    as [[h' r]|] eqn:E; [|vm_compute in E; discriminate].
  destruct (private_functions_never_write_to_an_array Lodash.camelCase 20 sample_heap
              (Heap.JRef 0) default_depth h' r E) as (_ & Harr & ->).
  exists h'. split; [reflexivity|]. apply Harr. reflexivity.
Defined.

(** X11.  An array that holds itself is never converted: with a budget
    left, no amount of fuel makes [snakeToHump] or [humpToSnake] return on
    it, because the copy holds itself as well and each visit of an element
    starts again from the default budget. *)
Theorem an_array_that_holds_itself_is_never_converted
    (h : list Heap.cell) (l : nat) (items : list Heap.jsval) (depth : Z) (fuel : nat) :
  h !! l = Some (Heap.CArr items) → Heap.JRef l ∈ items → 0 < depth →
  Heap.snakeToHump fuel h (Heap.JRef l) depth = None
  ∧ Heap.humpToSnake fuel h (Heap.JRef l) depth = None.
Proof.
  intros Hl Hin Hd.
  assert (∀ newKeyOf, Heap.transform newKeyOf fuel h (Heap.JRef l) depth = None) as Hnone.
  { intros newKeyOf. unfold Heap.transform.
    destruct (Heap.cloneDeep fuel h (Heap.JRef l)) as [[h1 temp]|] eqn:Ec; [|done].
    destruct (cloneDeep_self_array fuel h l items h1 temp Hl Hin Ec)
      as (r & items' & -> & Hr & Hin').
    simpl. by apply (_rename_self_array newKeyOf r items'). }
  split; apply Hnone.
Qed.

Lemma an_array_that_holds_itself_is_never_converted_witness :
  Heap.snakeToHump 1000 [Heap.CArr [Heap.JNum 1; Heap.JRef 0]] (Heap.JRef 0) 1 = None.
Proof.
  apply (an_array_that_holds_itself_is_never_converted
           [Heap.CArr [Heap.JNum 1; Heap.JRef 0]] 0 [Heap.JNum 1; Heap.JRef 0] 1 1000);
    [reflexivity | apply list_elem_of_In; simpl; auto | lia].
Defined.

(** X12.  Objects that refer to each other, or to themselves, are
    converted: on a store of objects only, [snakeToHump] and [humpToSnake]
    return as soon as the fuel exceeds the number of cells and the budget.
    The copy ends because a cell is copied once, and the walk over the
    copy because each object on the way spends one level of the budget. *)
Theorem objects_that_hold_themselves_are_converted
    (fuel : nat) (h : list Heap.cell) (target : Heap.jsval) (depth : Z) :
  objects_only h → valid_ref h target →
  (length h < fuel)%nat → depth < Z.of_nat fuel →
  (∃ h' result, Heap.snakeToHump fuel h target depth = Some (h', result)
                ∧ objects_only h')
  ∧ (∃ h' result, Heap.humpToSnake fuel h target depth = Some (h', result)
                  ∧ objects_only h').
Proof.
  intros Ho Hv Hlen Hd.
  assert (∀ newKeyOf, ∃ h' result,
            Heap.transform newKeyOf fuel h target depth = Some (h', result)
            ∧ objects_only h') as Hall.
  { intros newKeyOf. unfold Heap.transform, Heap.cloneDeep.
    destruct (baseClone_objects_total h Ho fuel h [] target)
      as (h1 & stack1 & temp & -> & (_ & _ & Ho1 & _) & Hv1).
    - split; [done|]. split; [done|]. split; [done|]. done.
    - done.
    - assert (∀ n, unvisited [] n = n) as ->; [|done].
      induction n as [|n IH]; simpl; [done|by rewrite IH].
    - simpl in *.
      destruct (_rename_objects_only newKeyOf fuel h1 temp depth Ho1 Hv1)
        as (h' & result & -> & Ho' & _); [lia|done|].
      by exists h', result. }
  split; apply Hall.
Qed.

Lemma objects_that_hold_themselves_are_converted_witness :
  ∃ h' result,
    Heap.snakeToHump 11 [Heap.CObj [("my_self", Heap.JRef 0)]] (Heap.JRef 0) default_depth
    = Some (h', result).
Proof.
  destruct (objects_that_hold_themselves_are_converted 11
              [Heap.CObj [("my_self", Heap.JRef 0)]] (Heap.JRef 0) default_depth)
    as [(h' & result & E & _) _];
    [|simpl; lia|simpl; lia|reflexivity|by exists h', result].
  intros l c Hc. destruct l as [|l]; [|by destruct l].
  injection Hc as <-. eexists. split; [reflexivity|].
  repeat constructor.
Defined.

(** ** What the transport is called with *)

Lemma rename_truthy (newKeyOf : string → string) (target : value) (depth : Z) :
  0 < depth → truthy (rename newKeyOf target depth) = truthy target.
Proof.
  intros Hd. destruct target as [| | | | |items|props];
    try (by rewrite rename_primitive).
  - unfold rename. simpl. by destruct (depth - 1 <? 0).
  - by rewrite rename_arr.
  - by destruct (rename_obj_keys newKeyOf props depth Hd) as (props' & -> & _).
Qed.

Lemma obj_lookup_assign (b : obj) :
  ∀ (a : obj) k, NoDup (keys b) →
    obj_lookup (obj_assign a b) k
    = match obj_lookup b k with Some v => Some v | None => obj_lookup a k end.
Proof.
  unfold obj_assign, keys.
  induction b as [|[k0 v0] b IH]; intros a k; simpl; [done|].
  rewrite NoDup_cons. intros [Hk0 Hnd]. rewrite IH by done.
  destruct (String.eqb k0 k) eqn:E.
  - apply String.eqb_eq in E as ->.
    apply (obj_lookup_None b) in Hk0 as ->. apply obj_lookup_set_eq.
  - apply String.eqb_neq in E. by rewrite obj_lookup_set_ne.
Qed.

Section Sent.

Import HttpFetchService.

Implicit Types (httpOption : RequestConfig) (transport : obj → TransportOutcome)
  (url : string) (config : obj).

Lemma obj_lookup_convert_field convert field config k :
  obj_lookup (convert_field convert field config) k
  = if String.eqb field k && truthy (obj_get config field)
    then Some (convert (obj_get config field) default_depth)
    else obj_lookup config k.
Proof.
  unfold convert_field. destruct (truthy (obj_get config field)) eqn:Ht.
  - destruct (String.eqb field k) eqn:E; simpl.
    + apply String.eqb_eq in E as ->. apply obj_lookup_set_eq.
    + apply String.eqb_neq in E. by apply obj_lookup_set_ne.
  - by rewrite andb_false_r.
Qed.

Lemma keys_convert_field convert field config :
  keys (convert_field convert field config) = keys config.
Proof.
  unfold convert_field. destruct (truthy (obj_get config field)) eqn:Ht; [|done].
  rewrite keys_obj_set. unfold obj_has, obj_get in *.
  by destruct (obj_lookup config field).
Qed.

Lemma keys_outgoing httpOption config : keys (outgoing httpOption config) = keys config.
Proof.
  unfold outgoing. destruct (parameterStyle httpOption) as [[| |]|];
    by rewrite ?keys_convert_field.
Qed.

Lemma obj_lookup_outgoing httpOption config k x :
  obj_lookup config k = Some x →
  obj_lookup (outgoing httpOption config) k
  = Some (if String.eqb k "data" || String.eqb k "params"
          then match parameterStyle httpOption with
               | Some CAMEL_TO_SNAKE => converted_field humpToSnake x
               | Some SNAKE_TO_CAMEL => converted_field snakeToHump x
               | _ => x
               end
          else x).
Proof.
  intros Hx.
  assert (∀ convert,
    obj_lookup (convert_field convert "params" (convert_field convert "data" config)) k
    = Some (if String.eqb k "data" || String.eqb k "params"
            then converted_field convert x else x)) as Hboth.
  { intros convert. rewrite obj_lookup_convert_field.
    unfold obj_get at 1 2. rewrite !obj_lookup_convert_field.
    rewrite (String.eqb_sym k "data"), (String.eqb_sym k "params").
    change (String.eqb "data" "params") with false. cbn [andb].
    destruct (String.eqb "params" k) eqn:Ep; cbn [andb orb].
    - apply String.eqb_eq in Ep as <-.
      change (String.eqb "data" "params") with false. cbn [andb orb].
      rewrite Hx. cbn [default]. unfold id.
      unfold converted_field. by destruct (truthy x).
    - rewrite orb_false_r. destruct (String.eqb "data" k) eqn:Ed; cbn [andb]; [|done].
      apply String.eqb_eq in Ed as <-. unfold obj_get. rewrite Hx. cbn [default]. unfold id.
      unfold converted_field. by destruct (truthy x). }
  unfold outgoing. destruct (parameterStyle httpOption) as [[| |]|]; rewrite ?Hboth, ?Hx;
    by destruct (String.eqb k "data" || String.eqb k "params").
Qed.

Lemma obj_lookup_outgoing_None httpOption config k :
  obj_lookup config k = None → obj_lookup (outgoing httpOption config) k = None.
Proof.
  rewrite !obj_lookup_None. by rewrite keys_outgoing.
Qed.

Lemma sent_lookup httpOption transport url (config : option obj) k :
  k ≠ "url" → NoDup (keys (default [] config)) →
  obj_lookup (sent (request httpOption transport url config)) k
  = match obj_lookup (outgoing httpOption (default [] config)) k with
    | Some v => Some v
    | None => obj_lookup (obj_assign [] (option_fields httpOption)) k
    end.
Proof.
  intros Hk Hnd. cbn [request sent]. unfold merged.
  rewrite obj_lookup_set_ne by done.
  apply obj_lookup_assign. by rewrite keys_outgoing.
Qed.

Lemma per_call_fields_lookup httpOption transport url (config : option obj) k x :
  NoDup (keys (default [] config)) → k ≠ "url" →
  obj_lookup (default [] config) k = Some x →
  obj_lookup (sent (request httpOption transport url config)) k
  = Some (if String.eqb k "data" || String.eqb k "params"
          then match parameterStyle httpOption with
               | Some CAMEL_TO_SNAKE => converted_field humpToSnake x
               | Some SNAKE_TO_CAMEL => converted_field snakeToHump x
               | _ => x
               end
          else x).
Proof.
  intros Hnd Hk Hx. rewrite sent_lookup by done.
  by rewrite (obj_lookup_outgoing httpOption _ k x Hx).
Qed.

End Sent.

(** ** What the caller gets *)

Section Results.

Import HttpFetchService.

Implicit Types (httpOption : RequestConfig) (transport : obj → TransportOutcome)
  (url : string) (config : option obj).

Lemma catch_throws err : ∃ e, fst (catch err None) = Throws e.
Proof.
  unfold catch. cbn [fst]. destruct (err_response err) as [response|]; [|by eexists].
  destruct (negb _ && negb _); by eexists.
Qed.

Lemma request_null_body httpOption transport url config resp :
  transport (sent (request httpOption transport url config)) = Resolved resp →
  resp_data resp = VUndef ∨ resp_data resp = VNull →
  result (request httpOption transport url config)
  = Throws (TypeError "err.response.data").
Proof.
  intros E Hbody. unfold request in *. cbn [sent] in E. cbn [result]. rewrite E.
  by destruct Hbody as [-> | ->].
Qed.

(** A call that returns has had a response with a body, and returns the
    envelope of that response. *)
Lemma request_returns_inv httpOption transport url config response :
  result (request httpOption transport url config) = Returns response →
  ∃ resp, transport (sent (request httpOption transport url config)) = Resolved resp
    ∧ resp_data resp ≠ VUndef ∧ resp_data resp ≠ VNull
    ∧ response = envelope_of httpOption resp.
Proof.
  intros Hr.
  destruct (transport (sent (request httpOption transport url config)))
    as [resp|err] eqn:E.
  - assert (resp_data resp = VUndef ∨ resp_data resp = VNull
            ∨ (resp_data resp ≠ VUndef ∧ resp_data resp ≠ VNull)) as [Hb|[Hb|[Hu Hn]]].
    { destruct (resp_data resp); auto. }
    { rewrite (request_null_body _ _ _ _ _ E) in Hr by auto. done. }
    { rewrite (request_null_body _ _ _ _ _ E) in Hr by auto. done. }
    rewrite (request_resolved _ _ _ _ _ E Hu Hn) in Hr. injection Hr as <-.
    by exists resp.
  - rewrite (request_rejected _ _ _ _ _ E) in Hr.
    destruct (catch_throws err) as [e He]. congruence.
Qed.

Lemma prefix_app (p s : string) : String.prefix p (p +:+ s) = true.
Proof.
  induction p as [|c p IH]; simpl; [by destruct s|].
  destruct (Ascii.ascii_dec c c); [done|congruence].
Qed.

Lemma normalize_url_prefix httpOption url :
  String.prefix (protocol_of httpOption) (normalize_url httpOption url) = true.
Proof.
  unfold normalize_url. rewrite indexOf_zero.
  destruct (String.prefix (protocol_of httpOption) url) eqn:E; [done|].
  apply prefix_app.
Qed.

End Results.

(** ** The request pipeline, field by field *)

(** X13.  Every field of the per-call configuration other than [url]
    reaches the transport, whatever the defaults of the service hold
    under the same key: [data] and [params] converted when the service
    has a converting style and the field is truthy ([humpToSnake] under
    [CAMEL_TO_SNAKE], [snakeToHump] under [SNAKE_TO_CAMEL]), every other
    field, and a falsy [data] or [params], as the caller gave it. *)
Theorem per_call_fields_reach_the_transport
    (httpOption : HttpFetchService.RequestConfig)
    (transport : obj → HttpFetchService.TransportOutcome)
    (url : string) (config : option obj) (k : string) (x : value) :
  NoDup (keys (default [] config)) → k ≠ "url" →
  obj_lookup (default [] config) k = Some x →
  obj_lookup (HttpFetchService.sent (HttpFetchService.request httpOption transport url config)) k
  = Some (if String.eqb k "data" || String.eqb k "params"
          then match HttpFetchService.parameterStyle httpOption with
               | Some HttpFetchService.CAMEL_TO_SNAKE => converted_field humpToSnake x
               | Some HttpFetchService.SNAKE_TO_CAMEL => converted_field snakeToHump x
               | _ => x
               end
          else x).
Proof. apply per_call_fields_lookup. Qed.

(** Scenario A of the specification: under [CAMEL_TO_SNAKE] the body
    [{userId: 5}] is sent as [{user_id: 5}]. *)
Lemma per_call_fields_reach_the_transport_witness :
  obj_lookup
    (HttpFetchService.sent
       (HttpFetchService.request
          (HttpFetchService.options (Some HttpFetchService.CAMEL_TO_SNAKE))
          (HttpFetchService.resolves_with 200 HttpFetchService.ok_body)
          "api/x" (Some [("data", camel_payload)])))
    "data"
  = Some snake_payload.
Proof.
  apply (per_call_fields_reach_the_transport
           (HttpFetchService.options (Some HttpFetchService.CAMEL_TO_SNAKE))
           (HttpFetchService.resolves_with 200 HttpFetchService.ok_body)
           "api/x" (Some [("data", camel_payload)]) "data" camel_payload);
    [apply distinct_NoDup; reflexivity | discriminate | reflexivity].
Defined.

(** X14.  A field of the options of the service ([protocol] and
    [parameterStyle] when they are set, and every field meant for the
    transport) reaches the transport under a key that the per-call
    configuration does not have, and it does so as it is: a [data] or
    [params] that comes from the options is not converted, whatever the
    style. *)
Theorem options_fill_in_unconverted
    (httpOption : HttpFetchService.RequestConfig)
    (transport : obj → HttpFetchService.TransportOutcome)
    (url : string) (config : option obj) (k : string) (v : value) :
  NoDup (keys (default [] config)) →
  NoDup (keys (HttpFetchService.option_fields httpOption)) →
  k ≠ "url" →
  obj_lookup (default [] config) k = None →
  obj_lookup (HttpFetchService.option_fields httpOption) k = Some v →
  obj_lookup (HttpFetchService.sent (HttpFetchService.request httpOption transport url config)) k
  = Some v.
Proof.
  intros Hnd Hnd' Hk Hno Hv. rewrite sent_lookup by done.
  rewrite obj_lookup_outgoing_None by done.
  rewrite obj_lookup_assign by done. by rewrite Hv.
Qed.

Lemma options_fill_in_unconverted_witness :
  obj_lookup
    (HttpFetchService.sent
       (HttpFetchService.request
          {| HttpFetchService.protocol := Some "https";
             HttpFetchService.parameterStyle := Some HttpFetchService.CAMEL_TO_SNAKE;
             HttpFetchService.transportDefaults := [("params", camel_payload)] |}
          (HttpFetchService.resolves_with 200 HttpFetchService.ok_body)
          "api/x" (Some [("data", camel_payload)])))
    "params"
  = Some camel_payload
  ∧ obj_lookup
      (HttpFetchService.sent
         (HttpFetchService.request
            {| HttpFetchService.protocol := Some "https";
               HttpFetchService.parameterStyle := Some HttpFetchService.CAMEL_TO_SNAKE;
               HttpFetchService.transportDefaults := [("params", camel_payload)] |}
            (HttpFetchService.resolves_with 200 HttpFetchService.ok_body)
            "api/x" (Some [("data", camel_payload)])))
      "protocol"
    = Some (VStr "https").
Proof.
  split;
    apply (options_fill_in_unconverted
             {| HttpFetchService.protocol := Some "https";
                HttpFetchService.parameterStyle := Some HttpFetchService.CAMEL_TO_SNAKE;
                HttpFetchService.transportDefaults := [("params", camel_payload)] |}
             (HttpFetchService.resolves_with 200 HttpFetchService.ok_body)
             "api/x" (Some [("data", camel_payload)]));
    [apply distinct_NoDup; reflexivity | apply distinct_NoDup; reflexivity
    | discriminate | reflexivity | reflexivity
    | apply distinct_NoDup; reflexivity | apply distinct_NoDup; reflexivity
    | discriminate | reflexivity | reflexivity].
Defined.

(** X15.  The verb of a wrapper is the [method] the transport is called
    with: neither a [method] of the per-call configuration nor one of the
    defaults of the service takes its place. *)
Theorem the_verb_of_the_wrapper_reaches_the_transport
    (httpOption : HttpFetchService.RequestConfig)
    (transport : obj → HttpFetchService.TransportOutcome)
    (url : string) (config : option obj) :
  NoDup (keys (default [] config)) →
  Forall
    (fun '(wrapper, verb) =>
       obj_lookup (HttpFetchService.sent (wrapper httpOption transport url config)) "method"
       = Some (VStr verb))
    [ (HttpFetchService.get, "get"); (HttpFetchService.post, "post");
      (HttpFetchService.put, "put"); (HttpFetchService.delete, "delete");
      (HttpFetchService.patch, "patch"); (HttpFetchService.head, "head") ].
Proof.
  intros Hnd.
  assert (∀ verb,
    obj_lookup (HttpFetchService.sent
                  (HttpFetchService.request httpOption transport url
                     (Some (HttpFetchService.with_method verb config)))) "method"
    = Some (VStr verb)) as Hverb.
  { intros verb.
    rewrite (per_call_fields_lookup httpOption transport url
               (Some (HttpFetchService.with_method verb config)) "method" (VStr verb));
      [done| |done|].
    - by apply NoDup_keys_obj_set.
    - apply obj_lookup_set_eq. }
  repeat constructor; apply Hverb.
Qed.

Lemma the_verb_of_the_wrapper_reaches_the_transport_witness :
  obj_lookup
    (HttpFetchService.sent
       (HttpFetchService.post
          {| HttpFetchService.protocol := None;
             HttpFetchService.parameterStyle := None;
             HttpFetchService.transportDefaults := [("method", VStr "put")] |}
          (HttpFetchService.resolves_with 200 HttpFetchService.ok_body)
          "api/x" (Some [("method", VStr "get")])))
    "method"
  = Some (VStr "post").
Proof.
  pose proof (the_verb_of_the_wrapper_reaches_the_transport
                {| HttpFetchService.protocol := None;
                   HttpFetchService.parameterStyle := None;
                   HttpFetchService.transportDefaults := [("method", VStr "put")] |}
                (HttpFetchService.resolves_with 200 HttpFetchService.ok_body)
                "api/x" (Some [("method", VStr "get")])
                ltac:(apply distinct_NoDup; reflexivity)) as Hall.
  apply Forall_cons in Hall as [_ Hall]. apply Forall_cons in Hall as [Hpost _].
  exact Hpost.
Defined.

(** X16.  The caller gets an envelope exactly when the transport resolves
    with a body that is neither [null] nor [undefined]: no rejection, of
    whatever kind, is returned as an envelope. *)
Theorem an_envelope_needs_a_resolved_body
    (httpOption : HttpFetchService.RequestConfig)
    (transport : obj → HttpFetchService.TransportOutcome)
    (url : string) (config : option obj) :
  (∃ response,
     HttpFetchService.result (HttpFetchService.request httpOption transport url config)
     = HttpFetchService.Returns response)
  ↔ ∃ resp,
      transport (HttpFetchService.sent (HttpFetchService.request httpOption transport url config))
      = HttpFetchService.Resolved resp
      ∧ HttpFetchService.resp_data resp ≠ VUndef
      ∧ HttpFetchService.resp_data resp ≠ VNull.
Proof.
  split.
  - intros [response (resp & E & Hu & Hn & _)%request_returns_inv]. by exists resp.
  - intros (resp & E & Hu & Hn). eexists. by apply request_resolved.
Qed.

(** X17.  The three ways in which the [catch] block itself fails with a
    [TypeError]: a rejection with a structured body (a truthy [code] or
    [data]) reads the [status] of a response that was never assigned; a
    rejection without a response reads the [data] of [undefined]; and so
    does a success whose body is [null] or [undefined], after the request
    line has been logged.  Each logs the message of the error that was
    caught. *)
Theorem type_errors_of_the_catch_block
    (httpOption : HttpFetchService.RequestConfig)
    (transport : obj → HttpFetchService.TransportOutcome)
    (url : string) (config : option obj) :
  (∀ err response,
     transport (HttpFetchService.sent (HttpFetchService.request httpOption transport url config))
     = HttpFetchService.Rejected err →
     HttpFetchService.err_response err = Some response →
     truthy (HttpFetchService.get_field
               (or_else (HttpFetchService.eresp_data response) (VObj [])) "code")
     || truthy (HttpFetchService.get_field
                  (or_else (HttpFetchService.eresp_data response) (VObj [])) "data") = true →
     HttpFetchService.result (HttpFetchService.request httpOption transport url config)
     = HttpFetchService.Throws (HttpFetchService.TypeError "resp.status")
     ∧ HttpFetchService.logged (HttpFetchService.request httpOption transport url config)
       = [HttpFetchService.LogError (HttpFetchService.err_message err)])
  ∧ (∀ err,
       transport (HttpFetchService.sent (HttpFetchService.request httpOption transport url config))
       = HttpFetchService.Rejected err →
       HttpFetchService.err_response err = None →
       HttpFetchService.result (HttpFetchService.request httpOption transport url config)
       = HttpFetchService.Throws (HttpFetchService.TypeError "err.response.data")
       ∧ HttpFetchService.logged (HttpFetchService.request httpOption transport url config)
         = [HttpFetchService.LogError (HttpFetchService.err_message err)])
  ∧ (∀ resp,
       transport (HttpFetchService.sent (HttpFetchService.request httpOption transport url config))
       = HttpFetchService.Resolved resp →
       HttpFetchService.resp_data resp = VUndef ∨ HttpFetchService.resp_data resp = VNull →
       HttpFetchService.result (HttpFetchService.request httpOption transport url config)
       = HttpFetchService.Throws (HttpFetchService.TypeError "err.response.data")
       ∧ ∃ line message,
           HttpFetchService.logged (HttpFetchService.request httpOption transport url config)
           = [line; HttpFetchService.LogError message]).
Proof.
  split; [|split].
  - intros err response E Hresp Hbody.
    unfold HttpFetchService.request in *. cbn [HttpFetchService.sent] in E.
    cbn [HttpFetchService.result HttpFetchService.logged]. rewrite E.
    unfold HttpFetchService.catch. rewrite Hresp. cbn [fst snd].
    apply orb_prop in Hbody as [-> | ->]; by rewrite ?andb_false_r.
  - intros err E Hresp.
    unfold HttpFetchService.request in *. cbn [HttpFetchService.sent] in E.
    cbn [HttpFetchService.result HttpFetchService.logged]. rewrite E.
    unfold HttpFetchService.catch. by rewrite Hresp.
  - intros resp E Hbody. split; [by apply (request_null_body _ _ _ _ resp)|].
    unfold HttpFetchService.request in *. cbn [HttpFetchService.sent] in E.
    cbn [HttpFetchService.logged]. rewrite E.
    destruct Hbody as [-> | ->]; by do 2 eexists.
Qed.

Lemma type_errors_of_the_catch_block_witness :
  HttpFetchService.result
    (HttpFetchService.request (HttpFetchService.options None)
       (HttpFetchService.rejects_with "Request failed with status code 404" 404
          HttpFetchService.not_found_body)
       "service.internal/x" None)
  = HttpFetchService.Throws (HttpFetchService.TypeError "resp.status")
  ∧ HttpFetchService.result
      (HttpFetchService.request (HttpFetchService.options None)
         (fun _ => HttpFetchService.Rejected
                     {| HttpFetchService.err_message := "Network Error";
                        HttpFetchService.err_response := None |})
         "service.internal/x" None)
    = HttpFetchService.Throws (HttpFetchService.TypeError "err.response.data")
  ∧ HttpFetchService.result
      (HttpFetchService.request (HttpFetchService.options None)
         (HttpFetchService.resolves_with 204 VNull)
         "service.internal/x" None)
    = HttpFetchService.Throws (HttpFetchService.TypeError "err.response.data").
Proof.
  split; [|split].
  - destruct (type_errors_of_the_catch_block (HttpFetchService.options None)
                (HttpFetchService.rejects_with "Request failed with status code 404" 404
                   HttpFetchService.not_found_body)
                "service.internal/x" None) as (Hsoft & _ & _).
    destruct (Hsoft _ _ eq_refl eq_refl eq_refl) as [Hr _]. exact Hr.
  - destruct (type_errors_of_the_catch_block (HttpFetchService.options None)
                (fun _ => HttpFetchService.Rejected
                            {| HttpFetchService.err_message := "Network Error";
                               HttpFetchService.err_response := None |})
                "service.internal/x" None) as (_ & Hnone & _).
    destruct (Hnone _ eq_refl eq_refl) as [Hr _]. exact Hr.
  - destruct (type_errors_of_the_catch_block (HttpFetchService.options None)
                (HttpFetchService.resolves_with 204 VNull)
                "service.internal/x" None) as (_ & _ & Hnull).
    destruct (Hnull _ eq_refl (or_intror eq_refl)) as [Hr _]. exact Hr.
Defined.

(** X18.  The url the transport is called with starts with the protocol
    of the service, and giving it to the service again changes nothing:
    the protocol is put in front at most once. *)
Theorem url_normalisation_is_idempotent
    (httpOption : HttpFetchService.RequestConfig) (url : string) :
  String.prefix (HttpFetchService.protocol_of httpOption)
                (HttpFetchService.normalize_url httpOption url) = true
  ∧ HttpFetchService.normalize_url httpOption (HttpFetchService.normalize_url httpOption url)
    = HttpFetchService.normalize_url httpOption url.
Proof.
  split; [apply normalize_url_prefix|].
  unfold HttpFetchService.normalize_url at 1.
  by rewrite indexOf_zero, normalize_url_prefix.
Qed.

(** X19.  In an envelope that is returned, [code] is truthy or 0 and
    [msg] is truthy or the empty string; under a converting style [data]
    is truthy: a payload that is missing, [null], [false], 0 or the empty
    string reaches the caller as the empty object. *)
Theorem returned_envelope_has_no_falsy_gap
    (httpOption : HttpFetchService.RequestConfig)
    (transport : obj → HttpFetchService.TransportOutcome)
    (url : string) (config : option obj) (response : HttpFetchService.ResponseSchema) :
  HttpFetchService.result (HttpFetchService.request httpOption transport url config)
  = HttpFetchService.Returns response →
  (truthy (HttpFetchService.code response) = true ∨ HttpFetchService.code response = VNum 0)
  ∧ (truthy (HttpFetchService.msg response) = true ∨ HttpFetchService.msg response = VStr "")
  ∧ (HttpFetchService.parameterStyle httpOption = Some HttpFetchService.CAMEL_TO_SNAKE
     ∨ HttpFetchService.parameterStyle httpOption = Some HttpFetchService.SNAKE_TO_CAMEL →
     truthy (HttpFetchService.data response) = true
     ∧ ∀ resp,
         transport (HttpFetchService.sent
                      (HttpFetchService.request httpOption transport url config))
         = HttpFetchService.Resolved resp →
         truthy (HttpFetchService.get_field (HttpFetchService.resp_data resp) "data") = false →
         HttpFetchService.data response = VObj []).
Proof.
  intros (resp & E & Hu & Hn & ->)%request_returns_inv.
  unfold HttpFetchService.envelope_of.
  cbn [HttpFetchService.code HttpFetchService.msg HttpFetchService.data].
  assert (∀ a b, truthy (or_else a b) = true ∨ or_else a b = b) as Hor.
  { intros a b. unfold or_else. destruct (truthy a) eqn:Ha; auto. }
  split; [apply Hor|]. split; [apply Hor|].
  assert (∀ a, truthy (or_else a (VObj [])) = true) as Hobj.
  { intros a. unfold or_else. by destruct (truthy a) eqn:Ha. }
  intros Hstyle. split.
  - destruct Hstyle as [-> | ->]; unfold snakeToHump, humpToSnake, cloneDeep;
      rewrite rename_truthy by done; apply Hobj.
  - intros resp' E' Hfalsy. rewrite E in E'. injection E' as <-.
    unfold or_else. rewrite Hfalsy.
    destruct Hstyle as [-> | ->]; reflexivity.
Qed.

Lemma returned_envelope_has_no_falsy_gap_witness :
  truthy (VNum 0) = false
  ∧ ∀ response,
      HttpFetchService.result
        (HttpFetchService.request
           (HttpFetchService.options (Some HttpFetchService.CAMEL_TO_SNAKE))
           (HttpFetchService.resolves_with 200
              (VObj [("code", VNum 0); ("msg", VStr "ok"); ("data", VNum 0)]))
           "api/x" None)
      = HttpFetchService.Returns response →
      HttpFetchService.data response = VObj [].
Proof.
  split; [reflexivity|]. intros response Hr.
  destruct (returned_envelope_has_no_falsy_gap
              (HttpFetchService.options (Some HttpFetchService.CAMEL_TO_SNAKE))
              (HttpFetchService.resolves_with 200
                 (VObj [("code", VNum 0); ("msg", VStr "ok"); ("data", VNum 0)]))
              "api/x" None response Hr) as (_ & _ & Hdata).
  destruct (Hdata ltac:(left; reflexivity)) as [_ Hgap].
  apply (Hgap _ eq_refl). reflexivity.
Defined.

(** X20.  A round trip through the service: when the server sends back
    the [data] it was sent, the caller of a service with a converting
    style gets a payload deep-equal to the truthy, well-formed [data] it
    gave, provided its keys are in the caller's convention (camelCase
    under [CAMEL_TO_SNAKE], snake_case under [SNAKE_TO_CAMEL]) and come
    back from the other convention as they were. *)
Theorem echoed_data_comes_back
    (httpOption : HttpFetchService.RequestConfig)
    (url : string) (config : option obj) (x : value) :
  NoDup (keys (default [] config)) →
  obj_lookup (default [] config) "data" = Some x →
  truthy x = true → wf x = true →
  (HttpFetchService.parameterStyle httpOption = Some HttpFetchService.CAMEL_TO_SNAKE →
   in_convention Lodash.camelCase x = true →
   lossless Lodash.snakeCase Lodash.camelCase x = true →
   ∃ response,
     HttpFetchService.result (HttpFetchService.request httpOption echoes url config)
     = HttpFetchService.Returns response
     ∧ deep_equal (HttpFetchService.data response) x)
  ∧ (HttpFetchService.parameterStyle httpOption = Some HttpFetchService.SNAKE_TO_CAMEL →
     in_convention Lodash.snakeCase x = true →
     lossless Lodash.camelCase Lodash.snakeCase x = true →
     ∃ response,
       HttpFetchService.result (HttpFetchService.request httpOption echoes url config)
       = HttpFetchService.Returns response
       ∧ deep_equal (HttpFetchService.data response) x).
Proof.
  intros Hnd Hx Ht Hwf.
  pose proof (per_call_fields_lookup httpOption echoes url config "data" x Hnd
                ltac:(discriminate) Hx) as Hsent.
  change (String.eqb "data" "data" || String.eqb "data" "params") with true in Hsent.
  cbv iota in Hsent.
  set (args := HttpFetchService.sent (HttpFetchService.request httpOption echoes url config))
    in *.
  assert (echoes args = HttpFetchService.Resolved
            {| HttpFetchService.resp_status := 200;
               HttpFetchService.resp_data :=
                 VObj [("code", VNum 0); ("msg", VStr "ok"); ("data", obj_get args "data")];
               HttpFetchService.resp_config := args |}) as E by done.
  split; intros Hstyle Hconv Hloss;
    (eexists; split; [by apply (request_resolved _ _ _ _ _ E)|]);
    unfold HttpFetchService.envelope_of; cbn [HttpFetchService.data HttpFetchService.resp_data];
    rewrite Hstyle in *;
    change (HttpFetchService.get_field (VObj _) "data") with (obj_get args "data");
    unfold obj_get; rewrite Hsent; cbn [default]; unfold id;
    unfold converted_field; rewrite Ht;
    unfold or_else, snakeToHump, humpToSnake, cloneDeep;
    rewrite rename_truthy by done; rewrite Ht;
    by apply round_trip.
Qed.

Lemma echoed_data_comes_back_witness :
  ∃ response,
    HttpFetchService.result
      (HttpFetchService.request
         (HttpFetchService.options (Some HttpFetchService.CAMEL_TO_SNAKE))
         echoes "api/x" (Some [("data", camel_nested)]))
    = HttpFetchService.Returns response
    ∧ deep_equal (HttpFetchService.data response) camel_nested.
Proof.
  destruct (echoed_data_comes_back
              (HttpFetchService.options (Some HttpFetchService.CAMEL_TO_SNAKE))
              "api/x" (Some [("data", camel_nested)]) camel_nested) as [Hcamel _];
    [apply distinct_NoDup; reflexivity | reflexivity | reflexivity
    | vm_compute; reflexivity |].
  apply Hcamel; [reflexivity | vm_compute; reflexivity | vm_compute; reflexivity].
Defined.

(** X21.  The request line of a call that gets a body shows the url as
    the transport resolved it and, for [params] and for the body, what
    the transport was sent when the per-call configuration holds a truthy
    one, and the empty object otherwise, also when the defaults of the
    service supplied the field. *)
Theorem request_line_shows_the_per_call_fields
    (httpOption : HttpFetchService.RequestConfig)
    (transport : obj → HttpFetchService.TransportOutcome)
    (url : string) (config : option obj) (resp : HttpFetchService.AxiosResponse) :
  NoDup (keys (default [] config)) →
  transport (HttpFetchService.sent (HttpFetchService.request httpOption transport url config))
  = HttpFetchService.Resolved resp →
  HttpFetchService.resp_data resp ≠ VUndef →
  HttpFetchService.resp_data resp ≠ VNull →
  HttpFetchService.logged (HttpFetchService.request httpOption transport url config)
  = [HttpFetchService.LogRequest
       (obj_get (HttpFetchService.resp_config resp) "url")
       (if truthy (obj_get (default [] config) "params")
        then obj_get (HttpFetchService.sent
                        (HttpFetchService.request httpOption transport url config)) "params"
        else VObj [])
       (if truthy (obj_get (default [] config) "data")
        then obj_get (HttpFetchService.sent
                        (HttpFetchService.request httpOption transport url config)) "data"
        else VObj [])].
Proof.
  intros Hnd E Hu Hn.
  assert (∀ field, field = "params" ∨ field = "data" →
            or_else (obj_get (HttpFetchService.outgoing httpOption (default [] config)) field)
                    (VObj [])
            = if truthy (obj_get (default [] config) field)
              then obj_get (HttpFetchService.sent
                              (HttpFetchService.request httpOption transport url config)) field
              else VObj []) as Hshown.
  { intros field Hfield. unfold obj_get at 1 2 3.
    destruct (obj_lookup (default [] config) field) as [x|] eqn:Ex.
    - rewrite (per_call_fields_lookup httpOption transport url config field x Hnd)
        by (done || destruct Hfield as [-> | ->]; discriminate).
      rewrite (obj_lookup_outgoing httpOption _ field x Ex).
      cbn [default]. unfold id, or_else.
      assert (∀ convert, (∀ v, truthy (convert v default_depth) = truthy v) →
                truthy (converted_field convert x) = truthy x) as Hconv.
      { intros convert Hc. unfold converted_field.
        destruct (truthy x) eqn:Hx; [by rewrite Hc|done]. }
      assert (truthy (if String.eqb field "data" || String.eqb field "params"
                      then match HttpFetchService.parameterStyle httpOption with
                           | Some HttpFetchService.CAMEL_TO_SNAKE =>
                               converted_field humpToSnake x
                           | Some HttpFetchService.SNAKE_TO_CAMEL =>
                               converted_field snakeToHump x
                           | _ => x
                           end
                      else x) = truthy x) as ->; [|done].
      destruct (String.eqb field "data" || String.eqb field "params"); [|done].
      destruct (HttpFetchService.parameterStyle httpOption) as [[| |]|]; try done;
        apply Hconv; intros v; unfold snakeToHump, humpToSnake, cloneDeep;
        by apply rename_truthy.
    - by rewrite (obj_lookup_outgoing_None httpOption _ field Ex). }
  unfold HttpFetchService.request in E |- * at 1.
  cbn [HttpFetchService.sent] in E. cbn [HttpFetchService.logged]. rewrite E.
  assert (∃ content, get_prop (HttpFetchService.resp_data resp) "data" = Some content)
    as [content ->].
  { destruct (HttpFetchService.resp_data resp); try done; by eexists. }
  cbn [snd]. by rewrite !Hshown by auto.
Qed.

Lemma request_line_shows_the_per_call_fields_witness :
  HttpFetchService.logged
    (HttpFetchService.request
       {| HttpFetchService.protocol := None;
          HttpFetchService.parameterStyle := Some HttpFetchService.CAMEL_TO_SNAKE;
          HttpFetchService.transportDefaults := [("params", camel_payload)] |}
       (HttpFetchService.resolves_with 200 HttpFetchService.ok_body)
       "api/x" (Some [("data", camel_payload)]))
  = [HttpFetchService.LogRequest (VStr "http://api/x") (VObj []) snake_payload].
Proof.
  apply (request_line_shows_the_per_call_fields
           {| HttpFetchService.protocol := None;
              HttpFetchService.parameterStyle := Some HttpFetchService.CAMEL_TO_SNAKE;
              HttpFetchService.transportDefaults := [("params", camel_payload)] |}
           (HttpFetchService.resolves_with 200 HttpFetchService.ok_body)
           "api/x" (Some [("data", camel_payload)])
           {| HttpFetchService.resp_status := 200;
              HttpFetchService.resp_data := HttpFetchService.ok_body;
              HttpFetchService.resp_config :=
                HttpFetchService.sent
                  (HttpFetchService.request
                     {| HttpFetchService.protocol := None;
                        HttpFetchService.parameterStyle :=
                          Some HttpFetchService.CAMEL_TO_SNAKE;
                        HttpFetchService.transportDefaults := [("params", camel_payload)] |}
                     (HttpFetchService.resolves_with 200 HttpFetchService.ok_body)
                     "api/x" (Some [("data", camel_payload)])) |});
    [apply distinct_NoDup; reflexivity | reflexivity | discriminate | discriminate].
Defined.
